(** * cal-previewer: the projection engine of [src/app/page.tsx]

    A shallow embedding of the computational classes of the page:
    [STLParser.meshToVoxels], [CALProjector._createRadonKernel],
    [CALProjector.generateProjections], [CALProjector.normalizeProjections]
    and [CALProjector.createTestModel], followed by the properties the
    specification states about them.

    Number model.  A JavaScript [number] is modelled by [JS.num]: the IEEE
    special values [Infinity], [-Infinity] and [NaN] with their algebra, and
    the finite values as exact rationals kept in lowest terms.  Rounding of
    finite results, overflow and the sign of zero are not modelled in the
    voxel and pixel arithmetic; the kernel runs on the device in the
    device's precision anyway (gpu.js), so the statements about voxels and
    pixels are about the exact-arithmetic reading of the program.  The
    angle attached to a projection is computed on the host, in binary64,
    and is modelled so ([Double]): its value is the rounded one.
    [Math.cos], [Math.sin] are parameters of the kernel.  The constants the
    statements turn on are computed in binary64 as well ([Binary64], at the
    end). *)

From Stdlib Require Import QArith Qround Qreduction Qpower ZArith List Lia Lqa.
From Stdlib Require Import Bool.
From Stdlib Require Floats.
Import ListNotations.

Set Implicit Arguments.

(* ===================================================================== *)
(** ** JavaScript numbers *)
(* ===================================================================== *)
Module JS.

Inductive num : Type :=
| Fin (q : Q)
| PInf
| NInf
| NaN.

Definition of_Z (z : Z) : num := Fin (inject_Z z).
Definition of_nat (n : nat) : num := of_Z (Z.of_nat n).

Definition Qsgn (q : Q) : Z := Z.sgn (Qnum q).

(** [s * Infinity] for a sign [s]; [0 * Infinity] is [NaN]. *)
Definition inf_of_sign (s : Z) : num :=
match s with
| Z0 => NaN
| Zpos _ => PInf
| Zneg _ => NInf
end.

Definition neg (a : num) : num :=
match a with
| Fin q => Fin (Qred (- q))
| PInf => NInf
| NInf => PInf
| NaN => NaN
end.

Definition add (a b : num) : num :=
match a, b with
| NaN, _ | _, NaN => NaN
| Fin p, Fin q => Fin (Qred (p + q))
| PInf, NInf | NInf, PInf => NaN
| PInf, _ | _, PInf => PInf
| NInf, _ | _, NInf => NInf
end.

Definition sub (a b : num) : num :=
match a, b with
| NaN, _ | _, NaN => NaN
| Fin p, Fin q => Fin (Qred (p - q))
| PInf, PInf | NInf, NInf => NaN
| PInf, _ | _, NInf => PInf
| NInf, _ | _, PInf => NInf
end.

Definition mul (a b : num) : num :=
match a, b with
| NaN, _ | _, NaN => NaN
| Fin p, Fin q => Fin (Qred (p * q))
| Fin p, PInf | PInf, Fin p => inf_of_sign (Qsgn p)
| Fin p, NInf | NInf, Fin p => inf_of_sign (- Qsgn p)
| PInf, PInf | NInf, NInf => PInf
| PInf, NInf | NInf, PInf => NInf
end.

(** A zero divisor is read as [+0]: every zero divisor of the program is a
  difference [m - m] or a maximum of such. *)
Definition div (a b : num) : num :=
match a, b with
| NaN, _ | _, NaN => NaN
| Fin p, Fin q =>
    if Qeq_bool q 0 then inf_of_sign (Qsgn p) else Fin (Qred (p / q))
| Fin _, _ => Fin 0
| PInf, Fin q => if (Qsgn q <? 0)%Z then NInf else PInf
| NInf, Fin q => if (Qsgn q <? 0)%Z then PInf else NInf
| _, _ => NaN
end.

(** Comparisons: every comparison with [NaN] is false. *)
Definition ltb (a b : num) : bool :=
match a, b with
| Fin p, Fin q => negb (Qle_bool q p)
| NInf, Fin _ | NInf, PInf | Fin _, PInf => true
| _, _ => false
end.

Definition leb (a b : num) : bool :=
match a, b with
| NaN, _ | _, NaN => false
| Fin p, Fin q => Qle_bool p q
| NInf, _ | _, PInf => true
| _, _ => false
end.

Definition gtb (a b : num) : bool := ltb b a.
Definition geb (a b : num) : bool := leb b a.

(** [Math.floor], [Math.round] (half-way cases go up), [Math.min],
  [Math.max] and the truthiness of a number ([0] and [NaN] are falsy). *)
Definition floor (a : num) : num :=
match a with
| Fin q => of_Z (Qfloor q)
| _ => a
end.

Definition round (a : num) : num :=
match a with
| Fin q => of_Z (Qfloor (q + (1 # 2)))
| _ => a
end.

Definition min (a b : num) : num :=
match a, b with
| NaN, _ | _, NaN => NaN
| _, _ => if ltb b a then b else a
end.

Definition max (a b : num) : num :=
match a, b with
| NaN, _ | _, NaN => NaN
| _, _ => if ltb a b then b else a
end.

(** [Math.max(...xs)] and [Math.min(...xs)]: [-Infinity] and [Infinity] on
    no argument. *)
Definition max_list (xs : list num) : num := fold_left max xs NInf.
Definition min_list (xs : list num) : num := fold_left min xs PInf.

Definition truthy (a : num) : bool :=
match a with
| Fin q => negb (Qeq_bool q 0)
| PInf | NInf => true
| NaN => false
end.

(** [Math.pow(a, 2)] *)
Definition pow2 (a : num) : num := mul a a.

(** [a || b] on numbers. *)
Definition or_else (a b : num) : num := if truthy a then a else b.

(** The index a number denotes when it subscripts an array: a non-negative
  integer, nothing otherwise. *)
Definition index (a : num) : option nat :=
match a with
| Fin q =>
    if Qeq_bool q (inject_Z (Qfloor q)) && (0 <=? Qfloor q)%Z
    then Some (Z.to_nat (Qfloor q))
    else None
| _ => None
end.

(** The rational a finite number stands for. *)
Definition finite (a : num) : Prop :=
match a with Fin _ => True | _ => False end.

(** [within lo hi a]: [a] is finite and lies in the closed interval. *)
Definition within (lo hi : Q) (a : num) : Prop :=
match a with
| Fin q => lo <= q /\ q <= hi
| _ => False
end.

End JS.

Declare Scope num_scope.
Delimit Scope num_scope with num.
Bind Scope num_scope with JS.num.
Infix "+" := JS.add : num_scope.
Infix "-" := JS.sub : num_scope.
Infix "*" := JS.mul : num_scope.
Infix "/" := JS.div : num_scope.
Notation "- a" := (JS.neg a) : num_scope.
Infix "<?" := JS.ltb : num_scope.
Infix "<=?" := JS.leb : num_scope.
Infix ">?" := JS.gtb : num_scope.
Infix ">=?" := JS.geb : num_scope.

Abbreviation Fin := JS.Fin.
Abbreviation num := JS.num.

(** Failure of a step (a read outside an array, a loop out of fuel). *)
Notation "x <- e ;; k" :=
  (match e with Some x => k | None => None end)
  (at level 61, e at next level, right associativity).

Fixpoint traverse (A B : Type) (f : A -> option B) (xs : list A)
  : option (list B) :=
  match xs with
  | [] => Some []
  | x :: xs' => y <- f x ;; ys <- traverse f xs' ;; Some (y :: ys)
  end.

(** [xs.forEach(x => s = body(s, x))] on a state that may fail. *)
Fixpoint for_each (S A : Type) (body : S -> A -> option S) (xs : list A)
    (s : S) : option S :=
  match xs with
  | [] => Some s
  | x :: xs' => s' <- body s x ;; for_each body xs' s'
  end.

(* ===================================================================== *)
(** ** Grids *)
(* ===================================================================== *)

(** [type VoxelVolume = number[][][]], subscripted [volume[z][y][x]]. *)
Definition VoxelVolume := list (list (list num)).

(** [Array(n).fill(0).map(() => Array(n).fill(0).map(() => Array(n).fill(0)))] *)
Definition zeros (n : nat) : VoxelVolume :=
  repeat (repeat (repeat (Fin 0) n) n) n.

(** [volume.flat(2)] *)
Definition flat2 (volume : VoxelVolume) : list num := concat (concat volume).

(** gpu.js [new Input(value, [x, y, z])]: a flat array the kernel subscripts
    as [volume[z][y][x]], cell [z * sizeY * sizeX + y * sizeX + x]. *)
Record Input := mkInput {
  value : list num;
  sizeX : nat;
  sizeY : nat;
  sizeZ : nat
}.

(** A subscript that is not an index of its dimension is a failed read. *)
Definition read (volume : Input) (z y x : num) : option num :=
  match JS.index z, JS.index y, JS.index x with
  | Some k, Some j, Some i =>
      if (k <? sizeZ volume) && (j <? sizeY volume) && (i <? sizeX volume)
      then nth_error (value volume)
             (k * sizeY volume * sizeX volume + j * sizeX volume + i)
      else None
  | _, _, _ => None
  end.

(** The cell [volume[z][y][x]] of a nested grid, when it exists. *)
Definition cell (volume : VoxelVolume) (z y x : nat) : option num :=
  row <- nth_error volume z ;; line <- nth_error row y ;; nth_error line x.

(** [n]-by-[n]-by-[n] grids and [n]-by-[n] images. *)
Definition cubic (n : nat) (volume : VoxelVolume) : Prop :=
  length volume = n /\
  Forall (fun plane => length plane = n /\
                       Forall (fun line => length line = n) plane) volume.

Definition square (n : nat) (A : Type) (image : list (list A)) : Prop :=
  length image = n /\ Forall (fun line => length line = n) image.

(** [for (let t = t0; t < hi; t += step) s = body(t, s)], on [fuel]
    iterations at most. *)
Fixpoint for_num (S : Type) (fuel : nat) (step hi : num)
    (body : num -> S -> option S) (t : num) (s : S) : option S :=
  if JS.ltb t hi then
    match fuel with
    | O => None
    | Datatypes.S fuel' =>
        s' <- body t s ;; for_num fuel' step hi body (JS.add t step) s'
    end
  else Some s.

(* ===================================================================== *)
(** ** CALProjector._createRadonKernel *)
(* ===================================================================== *)

(** [Math.PI], the double nearest to pi. *)
Definition Math_PI : num := Fin (884279719003555 # 281474976710656).

Section RadonKernel.

(** [Math.cos] and [Math.sin] as the device provides them. *)
Variables Math_cos Math_sin : num -> num.

Local Open Scope num_scope.

(** The test that guards the reads: every coordinate in [[0, size - 1)]. *)
Definition inside (size x y z : num) : bool :=
  (x >=? Fin 0) && (x <? size - Fin 1) &&
  (y >=? Fin 0) && (y <? size - Fin 1) &&
  (z >=? Fin 0) && (z <? size - Fin 1).

(** The guarded block up to the interpolated value: eight reads, then
    the blend along x, y and z. *)
Definition interpolate (volume : Input) (x y z : num) : option num :=
  let x0 := JS.floor x in
  let y0 := JS.floor y in
  let z0 := JS.floor z in
  let dx := x - x0 in
  let dy := y - y0 in
  let dz := z - z0 in
  c000 <- read volume z0 y0 x0 ;;
  c100 <- read volume z0 y0 (x0 + Fin 1) ;;
  c010 <- read volume z0 (y0 + Fin 1) x0 ;;
  c110 <- read volume z0 (y0 + Fin 1) (x0 + Fin 1) ;;
  c001 <- read volume (z0 + Fin 1) y0 x0 ;;
  c101 <- read volume (z0 + Fin 1) y0 (x0 + Fin 1) ;;
  c011 <- read volume (z0 + Fin 1) (y0 + Fin 1) x0 ;;
  c111 <- read volume (z0 + Fin 1) (y0 + Fin 1) (x0 + Fin 1) ;;
  let c00 := c000 * (Fin 1 - dx) + c100 * dx in
  let c01 := c001 * (Fin 1 - dx) + c101 * dx in
  let c10 := c010 * (Fin 1 - dx) + c110 * dx in
  let c11 := c011 * (Fin 1 - dx) + c111 * dx in
  let c0 := c00 * (Fin 1 - dy) + c10 * dy in
  let c1 := c01 * (Fin 1 - dy) + c11 * dy in
  Some (c0 * (Fin 1 - dz) + c1 * dz).

(** The position sampled at parameter [t]. *)
Definition samplePosition
    (cosTheta sinTheta uCentered vCentered center t : num)
  : num * num * num :=
  let x := uCentered * cosTheta - t * sinTheta + center in
  let y := vCentered + center in
  let z := uCentered * sinTheta + t * cosTheta + center in
  (x, y, z).

(** The body of the marching loop at parameter [t]: the new value of
    [lineIntegral]. *)
Definition marchStep (volume : Input)
    (size cosTheta sinTheta uCentered vCentered center : num)
    (t lineIntegral : num) : option num :=
  let '(x, y, z) :=
    samplePosition cosTheta sinTheta uCentered vCentered center t in
  if inside size x y z
  then
    c <- interpolate volume x y z ;;
    Some (lineIntegral + c * Fin (1 # 2))
  else Some lineIntegral.

(** Iterations granted to the marching loop of a volume of side [size]. *)
Definition marchFuel (size : nat) : nat := 3 * size + 1.

(** The kernel function at thread [(x, y) = (u, v)]. *)
Definition radonPixel (volume : Input) (theta : num) (size : nat)
    (u v : nat) : option num :=
  let n := JS.of_nat size in
  let angleRad := theta * (Math_PI / Fin 180) in
  let cosTheta := Math_cos angleRad in
  let sinTheta := Math_sin angleRad in
  let center := n / Fin 2 in
  let uCentered := JS.of_nat u - center in
  let vCentered := JS.of_nat v - center in
  for_num (marchFuel size) (Fin (1 # 2)) (n * Fin (7 # 10))
    (marchStep volume n cosTheta sinTheta uCentered vCentered center)
    (- n * Fin (7 # 10)) (Fin 0).

(** The number of iterations of the marching loop: the same loop,
    counting. *)
Definition marchSteps (size : nat) : option nat :=
  let n := JS.of_nat size in
  for_num (marchFuel size) (Fin (1 # 2)) (n * Fin (7 # 10))
    (fun _ k => Some (Datatypes.S k)) (- n * Fin (7 # 10)) O.

(** A kernel of output [[out, out]]: the image [data[y][x]] of the
    kernel function over the threads. *)
Definition radonKernel (out : nat) (volume : Input) (theta : num)
    (size : nat) : option (list (list num)) :=
  traverse (fun v =>
    traverse (fun u => radonPixel volume theta size u v) (seq 0 out))
    (seq 0 out).

End RadonKernel.

(* ===================================================================== *)
(** ** CALProjector: state, generateProjections, normalizeProjections *)
(* ===================================================================== *)

(** [type Projection = { angle: number; data: number[][] }] *)
Record Projection := mkProjection {
  angle : num;
  data : list (list num)
}.

(** The fields of a [CALProjector] the engine reads and writes.
    [kernelOutput] is the [output] setting the constructor gave the kernel
    it created: the [volumeSize] of that moment. *)
Record CALProjector := mkCALProjector {
  volumeSize : nat;
  numProjections : nat;
  projections : list Projection;
  kernelOutput : nat
}.

Definition newCALProjector (volumeSize numProjections : nat) : CALProjector :=
  mkCALProjector volumeSize numProjections [] volumeSize.

Definition set_projections (self : CALProjector) (ps : list Projection)
  : CALProjector :=
  mkCALProjector (volumeSize self) (numProjections self) ps
    (kernelOutput self).

Section Normalizer.

Local Open Scope num_scope.

(** The body of the innermost [forEach] of the first pass, on the pair
    [(globalMin, globalMax)]. *)
Definition scanValue (acc : num * num) (val : num) : num * num :=
  let (globalMin, globalMax) := acc in
  let globalMin := if val <? globalMin then val else globalMin in
  let globalMax := if val >? globalMax then val else globalMax in
  (globalMin, globalMax).

Definition scanProjections (ps : list Projection) : num * num :=
  fold_left (fun acc proj =>
    fold_left (fun acc row => fold_left scanValue row acc) (data proj) acc)
    ps (JS.PInf, JS.NInf).

Definition rescale (globalMin range : num) (val : num) : num :=
  JS.round (((val - globalMin) / range) * Fin 255).

Definition normalizeProjections (self : CALProjector) : CALProjector :=
  let (globalMin, globalMax) := scanProjections (projections self) in
  let range := JS.or_else (globalMax - globalMin) (Fin 1) in
  set_projections self
    (map (fun proj =>
            mkProjection (angle proj)
              (map (fun row => map (rescale globalMin range) row)
                 (data proj)))
       (projections self)).

End Normalizer.

(* ===================================================================== *)
(** ** Doubles *)
(* ===================================================================== *)

(** The numbers of the host as IEEE binary64 values, and their exact
    value as a [num]. *)
Module Double.

Import Floats.
Local Open Scope float_scope.

(** A loop counter as a double; exact below [2^53]. *)
Definition of_nat (n : nat) : float :=
  of_uint63 (Uint63.of_Z (Z.of_nat n)).

(** The exact value of a double: [(-1)^s * m * 2^e] for a finite one. *)
Definition to_num (f : float) : num :=
  match Prim2SF f with
  | S754_zero _ => Fin 0
  | S754_infinity false => JS.PInf
  | S754_infinity true => JS.NInf
  | S754_nan => JS.NaN
  | S754_finite s m e =>
      Fin (Qred (inject_Z (if s then Z.neg m else Z.pos m) * Qpower 2 e))
  end.

(** The bits of a finite double: an integer [m] and an exponent [e]
    with the value [m * 2^e]. *)
Definition decode (f : float) : option (Z * Z) :=
  match Prim2SF f with
  | S754_zero _ => Some (0%Z, 0%Z)
  | S754_finite s m e => Some (if s then Z.neg m else Z.pos m, e)
  | _ => None
  end.

(** [(i / numProjections) * 360] *)
Definition angle (i numProjections : float) : float :=
  i / numProjections * 360.

End Double.

Section Generate.

Variables Math_cos Math_sin : num -> num.

Local Open Scope num_scope.

(** The angle of projection [i] of [n], [(i / this.numProjections) * 360]
    in binary64: the quotient is rounded, and so is the product. *)
Definition angleOf (i n : nat) : num :=
  Double.to_num (Double.angle (Double.of_nat i) (Double.of_nat n)).

(** One turn of the loop of [generateProjections]: the kernel runs and
    its image is pushed with its angle.  The progress callback and the
    pause after every tenth angle touch no field of the projector. *)
Definition generateStep (inputVolume : Input) (self : CALProjector)
    (i : nat) : option CALProjector :=
  let angle := angleOf i (numProjections self) in
  projectionData <-
    radonKernel Math_cos Math_sin (kernelOutput self) inputVolume angle
      (volumeSize self) ;;
  Some (set_projections self
          (projections self ++ [mkProjection angle projectionData])).

(** The projector after the run, and the array it returns. *)
Definition generateProjections (self : CALProjector) (volume : VoxelVolume)
  : option (CALProjector * list Projection) :=
  let self := set_projections self [] in
  let flatVolume := flat2 volume in
  let inputVolume :=
    mkInput flatVolume (volumeSize self) (volumeSize self)
      (volumeSize self) in
  self <- for_each (generateStep inputVolume)
            (seq 0 (numProjections self)) self ;;
  let self := normalizeProjections self in
  Some (self, projections self).

End Generate.

(* ===================================================================== *)
(** ** Writing a grid *)
(* ===================================================================== *)

Fixpoint update (A : Type) (xs : list A) (i : nat) (f : A -> option A)
  : option (list A) :=
  match xs, i with
  | [], _ => None
  | x :: xs', O => y <- f x ;; Some (y :: xs')
  | x :: xs', Datatypes.S i' => ys <- update xs' i' f ;; Some (x :: ys)
  end.

(** [grid[z][y][x] = val] inside the grid.  A store anywhere else stops
    the model here (JavaScript raises on a missing plane or line and
    lengthens a short line); the stores of the cube model and of the mesh
    voxelizer are shown to stay inside. *)
Definition store (grid : VoxelVolume) (z y x : num) (val : num)
  : option VoxelVolume :=
  match JS.index z, JS.index y, JS.index x with
  | Some k, Some j, Some i =>
      update grid k (fun plane =>
        update plane j (fun line =>
          update line i (fun _ => Some val)))
  | _, _, _ => None
  end.

(* ===================================================================== *)
(** ** CALProjector.createTestModel *)
(* ===================================================================== *)

Inductive ModelType := gear | cube | sphere | custom.

Section TestModel.

Variable Math_sqrt : num -> num.
Variable Math_atan2 : num -> num -> num.

Local Open Scope num_scope.

(** [for (let i = lo; i < hi; i++)] over a grid of side [size]. *)
Definition for_index (size : nat) (lo hi : num)
    (body : num -> VoxelVolume -> option VoxelVolume)
    (model : VoxelVolume) : option VoxelVolume :=
  for_num (Datatypes.S size) (Fin 1) hi body lo model.

Definition gearModel (n : nat) (model : VoxelVolume)
  : option VoxelVolume :=
  let size := JS.of_nat n in
  let center := size / Fin 2 in
  let outerRadius := size / Fin 3 in
  let innerRadius := size / Fin 6 in
  let teeth := Fin 8 in
  let height := size * Fin (6 # 10) in
  let startZ := (size - height) / Fin 2 in
  let endZ := startZ + height in
  for_index n (JS.floor startZ) (JS.floor endZ) (fun z =>
    for_index n (Fin 0) size (fun y =>
      for_index n (Fin 0) size (fun x model =>
        let dx := x - center in
        let dy := y - center in
        let dist := Math_sqrt (dx * dx + dy * dy) in
        let angle := Math_atan2 dy dx in
        let toothAngle :=
          ((angle + Math_PI) / (Fin 2 * Math_PI)) * teeth in
        let toothPhase := toothAngle - JS.floor toothAngle in
        let radiusMod :=
          if toothPhase <? Fin (1 # 2) then Fin 1 else Fin (7 # 10) in
        let effectiveRadius :=
          innerRadius + (outerRadius - innerRadius) * radiusMod in
        if dist <=? effectiveRadius then store model z y x (Fin 1)
        else Some model))) model.

Definition cubeModel (n : nat) (model : VoxelVolume)
  : option VoxelVolume :=
  let size := JS.of_nat n in
  let cubeSize := size * Fin (4 # 10) in
  let start := (size - cubeSize) / Fin 2 in
  let end_ := start + cubeSize in
  for_index n (JS.floor start) (JS.floor end_) (fun z =>
    for_index n (JS.floor start) (JS.floor end_) (fun y =>
      for_index n (JS.floor start) (JS.floor end_) (fun x model =>
        store model z y x (Fin 1)))) model.

Definition sphereModel (n : nat) (model : VoxelVolume)
  : option VoxelVolume :=
  let size := JS.of_nat n in
  let center := size / Fin 2 in
  let radius := size * Fin (3 # 10) in
  for_index n (Fin 0) size (fun z =>
    for_index n (Fin 0) size (fun y =>
      for_index n (Fin 0) size (fun x model =>
        if Math_sqrt (JS.pow2 (x - center) + JS.pow2 (y - center) +
                      JS.pow2 (z - center)) <=? radius
        then store model z y x (Fin 1)
        else Some model))) model.

Definition createTestModel (self : CALProjector) (modelType : ModelType)
  : option VoxelVolume :=
  let size := volumeSize self in
  let model := zeros size in
  match modelType with
  | gear => gearModel size model
  | cube => cubeModel size model
  | sphere => sphereModel size model
  | custom => Some model
  end.

End TestModel.

(* ===================================================================== *)
(** ** STLParser.meshToVoxels *)
(* ===================================================================== *)

(** [type Mesh = { vertices: number[][]; triangles: number[][] }] *)
Record Mesh := mkMesh {
  vertices : list (list num);
  triangles : list (list num)
}.

Section MeshToVoxels.

Local Open Scope num_scope.

(** [v[i]] in arithmetic: a missing entry reads as [NaN]. *)
Definition at_ (v : list num) (i : nat) : num := nth i v JS.NaN.

(** [a[i] = val] on an array that has an entry [i]. *)
Fixpoint assign (a : list num) (i : nat) (val : num) : list num :=
  match a, i with
  | [], _ => []
  | _ :: a', O => val :: a'
  | x :: a', Datatypes.S i' => x :: assign a' i' val
  end.

(** The first [forEach]: the bounding box [(min, max)]. *)
Definition boundVertex (acc : list num * list num) (v : list num)
  : list num * list num :=
  fold_left (fun (acc : list num * list num) i =>
    let (min, max) := acc in
    (assign min i (JS.min (at_ min i) (at_ v i)),
     assign max i (JS.max (at_ max i) (at_ v i))))
    (seq 0 3) acc.

Definition boundingBox (vertices : list (list num))
  : list num * list num :=
  fold_left boundVertex vertices
    ([JS.PInf; JS.PInf; JS.PInf], [JS.NInf; JS.NInf; JS.NInf]).

(** [max.map((m, i) => m - min[i])] *)
Definition extent (min max : list num) : list num :=
  map (fun mi => fst mi - at_ min (snd mi))
    (combine max (seq 0 (length max))).

(** The grid coordinate of a vertex along axis [i]. *)
Definition gridCoord (gridSize : nat) (min size : list num) (scale : num)
    (vertex : list num) (i : nat) : num :=
  JS.floor ((at_ vertex i - at_ min i) * scale +
            (JS.of_nat gridSize - at_ size i * scale) / Fin 2).

(** The body of the second [forEach]. *)
Definition plotVertex (gridSize : nat) (min size : list num) (scale : num)
    (voxels : VoxelVolume) (vertex : list num) : option VoxelVolume :=
  let x := gridCoord gridSize min size scale vertex 0 in
  let y := gridCoord gridSize min size scale vertex 1 in
  let z := gridCoord gridSize min size scale vertex 2 in
  if (x >=? Fin 0) && (x <? JS.of_nat gridSize) &&
     (y >=? Fin 0) && (y <? JS.of_nat gridSize) &&
     (z >=? Fin 0) && (z <? JS.of_nat gridSize)
  then store voxels z y x (Fin 1)
  else Some voxels.

(** [(gridSize * 0.8) / Math.max(...size)] *)
Definition meshScale (gridSize : nat) (size : list num) : num :=
  (JS.of_nat gridSize * Fin (8 # 10)) / JS.max_list size.

Definition meshToVoxels (mesh : Mesh) (gridSize : nat)
  : option VoxelVolume :=
  let (min, max) := boundingBox (vertices mesh) in
  let size := extent min max in
  let scale := meshScale gridSize size in
  let voxels := zeros gridSize in
  for_each (plotVertex gridSize min size scale) (vertices mesh) voxels.

End MeshToVoxels.

(* ===================================================================== *)
(** ** Vocabulary of the statements *)
(* ===================================================================== *)

(** A kernel input of side [n]. *)
Definition wfInput (n : nat) (volume : Input) : Prop :=
  sizeX volume = n /\ sizeY volume = n /\ sizeZ volume = n /\
  length (value volume) = (n * n * n)%nat.

(** The cell of index [(k, j, i)] in the flat array of a kernel input. *)
Definition flatCell (volume : Input) (k j i : nat) : option num :=
  nth_error (value volume)
    (k * sizeY volume * sizeX volume + j * sizeX volume + i).

(** The side of a volume as a rational, and the two ends of the march. *)
Definition sideQ (n : nat) : Q := inject_Z (Z.of_nat n).
Definition marchStart (n : nat) : Q := Qred (Qred (- sideQ n) * (7 # 10)).
Definition marchEnd (n : nat) : Q := Qred (sideQ n * (7 # 10)).

(** The kernel input [generateProjections] builds from a grid. *)
Definition inputOf (n : nat) (volume : VoxelVolume) : Input :=
  mkInput (flat2 volume) n n n.

(** All pixel values of a projection set, in the order of the scan. *)
Definition pixels (ps : list Projection) : list num :=
  concat (map (fun p => concat (data p)) ps).

(** The pixel [data[v][u]] of projection [i]. *)
Definition pixel (ps : list Projection) (i v u : nat) : option num :=
  p <- nth_error ps i ;; row <- nth_error (data p) v ;; nth_error row u.

(** The Normalizer in the words of the specification, for a rule
    [rangeOf] that turns [max - min] into the range. *)
Definition normalizer (rangeOf : num -> num) (ps : list Projection)
  : list Projection :=
  let globalMin := JS.min_list (pixels ps) in
  let globalMax := JS.max_list (pixels ps) in
  let range := rangeOf (JS.sub globalMax globalMin) in
  map (fun p =>
         mkProjection (angle p)
           (map (map (fun value =>
                        JS.round (JS.mul (JS.div (JS.sub value globalMin) range)
                                    (Fin 255))))
              (data p)))
    ps.

(** [range = max(max - min, 1)], and [range = (max - min) || 1]. *)
Definition rangeMax (d : num) : num := JS.max d (Fin 1).
Definition rangeOr (d : num) : num := JS.or_else d (Fin 1).

(** The values of two finite numbers agree. *)
Definition same (a b : num) : Prop :=
  match a, b with
  | Fin p, Fin q => p == q
  | _, _ => False
  end.

(** [Number.EPSILON], the gap between 1 and the next double. *)
Definition epsilon : Q := 1 # 2 ^ 52.

(** A finite number within a relative [epsilon] of the value [x >= 0]. *)
Definition near (a : num) (x : Q) : Prop :=
  match a with
  | Fin q => x * (1 - epsilon) <= q /\ q <= x * (1 + epsilon)
  | _ => False
  end.

Definition isZero (a : num) : bool :=
  match a with
  | Fin (Qmake Z0 xH) => true
  | _ => false
  end.

(** The numbers of projections the page offers: its slider runs from 36
    to 720 in steps of 36, and starts at 180. *)
Definition offeredCounts : list nat := map (fun k => 36 * k)%nat (seq 1 20).

Definition offered (numProjections : nat) : Prop :=
  In numProjections offeredCounts.

(** The check of [near] on the bits of a double: [m / 2^s] lies within
    a relative [epsilon] of [x / n]. *)
Definition nearBits (x n m s : Z) : bool :=
  let value := Z.shiftl (n * m) 52 in
  (Z.shiftl (Z.shiftl x 52 - x) s <=? value)%Z &&
  (value <=? Z.shiftl (Z.shiftl x 52 + x) s)%Z.

(** [m / 2^s < m' / 2^s'] *)
Definition belowBits (m s m' s' : Z) : bool :=
  (Z.shiftl m s' <? Z.shiftl m' s)%Z.

(** The angle of projection [i] of [n] is near [i / n * 360] and below
    the double [(i + 1) / n * 360], the angle of the next projection if
    there is one. *)
Definition angleChecked (n i : nat) : bool :=
  match Double.decode (Double.angle (Double.of_nat i) (Double.of_nat n)),
        Double.decode (Double.angle (Double.of_nat (Datatypes.S i))
                         (Double.of_nat n)) with
  | Some (m, e), Some (m', e') =>
      (e <=? 0)%Z && (e' <=? 0)%Z &&
      nearBits (360 * Z.of_nat i) (Z.of_nat n) m (- e) &&
      belowBits m (- e) m' (- e')
  | _, _ => false
  end.

(** The angles of a run of [n] projections start at 0 and pass the
    check one by one. *)
Definition anglesChecked (n : nat) : bool :=
  isZero (angleOf 0 n) && forallb (angleChecked n) (seq 0 n).

(** The raw projection of index [i]: the image of the kernel with the
    angle attached, before the Normalizer. *)
Definition rawProjection (Math_cos Math_sin : num -> num)
    (self : CALProjector) (inputVolume : Input) (i : nat)
  : option Projection :=
  projectionData <-
    radonKernel Math_cos Math_sin (kernelOutput self) inputVolume
      (angleOf i (numProjections self)) (volumeSize self) ;;
  Some (mkProjection (angleOf i (numProjections self)) projectionData).

Definition rawProjections (Math_cos Math_sin : num -> num)
    (self : CALProjector) (volume : VoxelVolume)
  : option (list Projection) :=
  traverse (rawProjection Math_cos Math_sin self
              (inputOf (volumeSize self) volume))
    (seq 0 (numProjections self)).

(** The rescale the Normalizer applies to a projection set: the one map on
    pixel values its second pass uses. *)
Definition rescaleOf (ps : list Projection) : num -> num :=
  let (globalMin, globalMax) := scanProjections ps in
  rescale globalMin (JS.or_else (JS.sub globalMax globalMin) (Fin 1)).

(** The bounds of the cube of [createTestModel]: [Math.floor(start)] and
    [Math.floor(end)]. *)
Definition cubeStart (n : nat) : num :=
  let size := JS.of_nat n in
  JS.floor (JS.div (JS.sub size (JS.mul size (Fin (4 # 10)))) (Fin 2)).

Definition cubeEnd (n : nat) : num :=
  let size := JS.of_nat n in
  JS.floor (JS.add (JS.div (JS.sub size (JS.mul size (Fin (4 # 10)))) (Fin 2))
              (JS.mul size (Fin (4 # 10)))).

Definition inCube (n : nat) (x : nat) : bool :=
  JS.leb (cubeStart n) (JS.of_nat x) && JS.ltb (JS.of_nat x) (cubeEnd n).

(** The interval of the shape fixture as the specification writes it:
    [[round((N - 0.4 N) / 2), round((N - 0.4 N) / 2) + 0.4 N)]. *)
Definition fixtureLow (n : nat) : num :=
  let size := JS.of_nat n in
  JS.round (JS.div (JS.sub size (JS.mul (Fin (4 # 10)) size)) (Fin 2)).

Definition fixtureHigh (n : nat) : num :=
  JS.add (fixtureLow n) (JS.mul (Fin (4 # 10)) (JS.of_nat n)).

Definition inFixture (n : nat) (x : nat) : bool :=
  JS.leb (fixtureLow n) (JS.of_nat x) && JS.ltb (JS.of_nat x) (fixtureHigh n).

(** The grid of side [length mask] whose cell [(z, y, x)] holds 1 where
    the mask holds on the three axes, and 0 elsewhere. *)
Definition boxGrid (mask : list bool) : VoxelVolume :=
  map (fun bz =>
    map (fun by_ =>
      map (fun bx => if bx && by_ && bz then Fin 1 else Fin 0) mask) mask)
    mask.

(** The cube fixture at resolution 64. *)
Definition cube64 : VoxelVolume := boxGrid (map (inCube 64) (seq 0 64)).

(** Every cell of a grid satisfies [P]. *)
Definition cells (P : num -> Prop) (volume : VoxelVolume) : Prop :=
  Forall (Forall (Forall P)) volume.

Definition binary (c : num) : Prop := c = Fin 0 \/ c = Fin 1.

(** The extent of the bounding box of a mesh, per axis. *)
Definition meshExtent (mesh : Mesh) : list num :=
  let (min, max) := boundingBox (vertices mesh) in extent min max.

(** [Math.cos] and [Math.sin] tabulated at the quadrant angles, where
    they are exact; elsewhere the table holds 0. *)
Definition quadrant (table : list (num * num)) (a : num) : num :=
  match a with
  | Fin q =>
      match find (fun e => match fst e with
                           | Fin p => Qeq_bool p q
                           | _ => false
                           end) table with
      | Some e => snd e
      | None => Fin 0
      end
  | _ => JS.NaN
  end.

Definition radians (degrees : Q) : num :=
  JS.mul (Fin degrees) (JS.div Math_PI (Fin 180)).

Definition quadrant_cos : num -> num :=
  quadrant [(radians 0, Fin 1); (radians 90, Fin 0);
            (radians 180, Fin (-1)); (radians 270, Fin 0)].

Definition quadrant_sin : num -> num :=
  quadrant [(radians 0, Fin 0); (radians 90, Fin 1);
            (radians 180, Fin 0); (radians 270, Fin (-1))].

(** A trigonometric function whose finite values stay in [[-1, 1]]. *)
Definition bounded_trig (f : num -> num) : Prop :=
  forall a, JS.finite a -> JS.within (-1) 1 (f a).

(** A projection with a pixel above zero. *)
Definition lit (p : Projection) : Prop :=
  exists v u row r,
    nth_error (data p) v = Some row /\ nth_error row u = Some (Fin r) /\
    0 < r.

(* ===================================================================== *)
(** ** normalizeProjections on objects *)
(* ===================================================================== *)

(** The Projection objects live in a store and [this.projections] is an
    array of references to them: [proj.data = ...] rewrites the field of
    the object a reference points to, and every holder of the reference
    sees it. *)
Module Store.

Definition Ref := nat.
Definition Heap := list Projection.

Definition deref (heap : Heap) (r : Ref) : option Projection :=
  nth_error heap r.

(** [{ angle, data }]: a new object, at a new address. *)
Definition alloc (heap : Heap) (p : Projection) : Heap * Ref :=
  (heap ++ [p], length heap).

(** [this.projections.push({ angle, data })] *)
Definition push (heap : Heap) (refs : list Ref) (p : Projection)
  : Heap * list Ref :=
  let (heap', r) := alloc heap p in (heap', refs ++ [r]).

(** The objects an array of references shows, in its order. *)
Definition view (heap : Heap) (refs : list Ref) : option (list Projection) :=
  traverse (deref heap) refs.

(** The first pass: the scan of the objects behind the references. *)
Definition scanRefs (heap : Heap) (refs : list Ref) : option (num * num) :=
  for_each (fun acc r =>
              proj <- deref heap r ;;
              Some (fold_left
                      (fun acc row => fold_left scanValue row acc)
                      (data proj) acc))
    refs (JS.PInf, JS.NInf).

(** The second pass: [proj.data = proj.data.map(...)] on each reference in
    turn. *)
Definition rescaleRefs (globalMin range : num) (heap : Heap)
    (refs : list Ref) : option Heap :=
  for_each (fun heap r =>
              update heap r (fun proj =>
                Some (mkProjection (angle proj)
                        (map (fun row => map (rescale globalMin range) row)
                           (data proj)))))
    refs heap.

Definition normalizeProjections (heap : Heap) (refs : list Ref)
  : option Heap :=
  match scanRefs heap refs with
  | Some (globalMin, globalMax) =>
      let range := JS.or_else (JS.sub globalMax globalMin) (Fin 1) in
      rescaleRefs globalMin range heap refs
  | None => None
  end.

End Store.

(* ===================================================================== *)
(** ** Small inputs *)
(* ===================================================================== *)

(** A 4-by-4-by-4 grid with a 2-by-2-by-2 block of ones in the middle. *)
Definition block4 : VoxelVolume := boxGrid [false; true; true; false].

(** A set of two 2-by-2 raw projections. *)
Definition twoViews : list Projection :=
  [mkProjection (Fin 0) [[Fin 0; Fin (1 # 2)]; [Fin 3; Fin 1]];
   mkProjection (Fin 180) [[Fin 2; Fin 0]; [Fin (5 # 2); Fin 1]]].

(** A mesh whose vertices coincide. *)
Definition pointMesh : Mesh :=
  mkMesh [[Fin 1; Fin 2; Fin 3]; [Fin 1; Fin 2; Fin 3]; [Fin 1; Fin 2; Fin 3]]
         [[Fin 0; Fin 1; Fin 2]].

(* ===================================================================== *)
(** ** The constants in binary64 *)
(* ===================================================================== *)

(** The same expressions on IEEE doubles, for the constants on which the
    statements about the fixtures turn. *)
Module Binary64.

Import Floats.
Local Open Scope float_scope.

(** [start] and [end] of the cube of [createTestModel]. *)
Definition cubeBounds (size : float) : float * float :=
  let cubeSize := size * 0x1.999999999999ap-2 in
  let start := (size - cubeSize) / 2 in
  (start, start + cubeSize).

(** The iterations of [for (t = -size * 0.7; t < size * 0.7; t += 0.5)]. *)
Fixpoint countFrom (fuel : nat) (hi t : float) (k : nat) : option nat :=
  if t <? hi then
    match fuel with
    | O => None
    | S fuel' => countFrom fuel' hi (t + 0.5) (S k)
    end
  else Some k.

Definition marchCount (fuel : nat) (size : float) : option nat :=
  countFrom fuel (size * 0x1.6666666666666p-1) (- size * 0x1.6666666666666p-1)
    O.

(** [(val - min) / range * 255], before [Math.round]. *)
Definition scaled (min range val : float) : float :=
  (val - min) / range * 255.

(** [x] lies in [[k, k + 1)]: its floor is [k]. *)
Definition floors_to (x k : float) : bool :=
  (k <=? x) && (x <? k + 1).

End Binary64.


(* ===================================================================== *)
(** ** STLParser.parseBinary *)
(* ===================================================================== *)

From Stdlib Require Import NArith.
From Stdlib Require Strings.Byte Strings.Ascii Strings.String.

(** An [ArrayBuffer]: its bytes. *)
Definition ArrayBuffer := list Byte.byte.

Module DataView.

(** The [len] bytes from [offset] on; a view that leaves the buffer is the
    [RangeError] of the accessors. *)
Definition bytesAt (buffer : ArrayBuffer) (offset len : nat)
  : option (list Byte.byte) :=
  let bs := firstn len (skipn offset buffer) in
  if (length bs =? len)%nat then Some bs else None.

(** The number a little-endian byte sequence denotes. *)
Definition littleEndian (bs : list Byte.byte) : N :=
  fold_right (fun b acc => (Byte.to_N b + 256 * acc)%N) 0%N bs.

(** [dataView.getUint32(offset, true)] *)
Definition getUint32 (buffer : ArrayBuffer) (offset : nat) : option N :=
  bs <- bytesAt buffer offset 4 ;; Some (littleEndian bs).

(** The value of a binary32 pattern: sign bit 31, exponent bits 30..23,
    fraction bits 22..0.  Every finite binary32 value is a rational, so
    the conversion to a number is exact (the sign of a zero is dropped,
    as everywhere in the number model). *)
Definition float32 (bits : N) : num :=
  let sign := N.testbit bits 31 in
  let e := N.land (N.shiftr bits 23) 255 in
  let m := N.land bits 8388607 in
  if (e =? 255)%N then
    if (m =? 0)%N then (if sign then JS.NInf else JS.PInf) else JS.NaN
  else
    let mag : Q :=
      if (e =? 0)%N
      then inject_Z (Z.of_N m) * Qpower 2 (-149)
      else inject_Z (Z.of_N (8388608 + m)) * Qpower 2 (Z.of_N e - 150) in
    Fin (Qred (if sign then - mag else mag)).

(** [dataView.getFloat32(offset, true)] *)
Definition getFloat32 (buffer : ArrayBuffer) (offset : nat) : option num :=
  bits <- getUint32 buffer offset ;; Some (float32 bits).

End DataView.

Section ParseBinary.

Local Open Scope nat_scope.

Variable buffer : ArrayBuffer.

(** One turn of the inner loop, on [(vertices, triangle, offset)]. *)
Definition binaryVertex (st : list (list num) * list num * nat) (j : nat)
  : option (list (list num) * list num * nat) :=
  let '(vertices, triangle, offset) := st in
  x <- DataView.getFloat32 buffer offset ;;
  y <- DataView.getFloat32 buffer (offset + 4) ;;
  z <- DataView.getFloat32 buffer (offset + 8) ;;
  let vertices := vertices ++ [[x; y; z]] in
  let triangle := triangle ++ [JS.of_nat (length vertices - 1)] in
  Some (vertices, triangle, offset + 12).

(** One turn of the outer loop, on [(vertices, triangles, offset)]: the
    normal is stepped over, three vertices are read, the attribute bytes
    are stepped over. *)
Definition binaryTriangle (st : list (list num) * list (list num) * nat)
    (i : nat) : option (list (list num) * list (list num) * nat) :=
  let '(vertices, triangles, offset) := st in
  let offset := offset + 12 in
  match for_each binaryVertex (seq 0 3) (vertices, [], offset) with
  | Some (vertices, triangle, offset) =>
      Some (vertices, triangles ++ [triangle], offset + 2)
  | None => None
  end.

Definition parseBinary : option Mesh :=
  triangleCount <- DataView.getUint32 buffer 80 ;;
  match for_each binaryTriangle (seq 0 (N.to_nat triangleCount))
          ([], [], 84) with
  | Some (vertices, triangles, _) => Some (mkMesh vertices triangles)
  | None => None
  end.

End ParseBinary.

(** The three little-endian binary32 values from [offset] on. *)
Definition vertexAt (buffer : ArrayBuffer) (offset : nat)
  : option (list num) :=
  x <- DataView.getFloat32 buffer offset ;;
  y <- DataView.getFloat32 buffer (offset + 4) ;;
  z <- DataView.getFloat32 buffer (offset + 8) ;;
  Some [x; y; z].

(** The triangle of index [k] of a parsed file: three consecutive
    vertex indices. *)
Definition triangleOf (k : nat) : list num :=
  [JS.of_nat (3 * k); JS.of_nat (3 * k + 1); JS.of_nat (3 * k + 2)].

(** Where the binary format keeps coordinate [c] of vertex [k]. *)
Definition coordOffset (k c : nat) : nat :=
  (84 + 50 * (k / 3) + 12 + 12 * (k mod 3) + 4 * c)%nat.

(** The mesh of a binary file by direct access: the count at byte 80,
    vertex [k] at [coordOffset k 0], triangle [k] the indices
    [3k, 3k+1, 3k+2]. *)
Definition binaryMesh (buffer : ArrayBuffer) : option Mesh :=
  triangleCount <- DataView.getUint32 buffer 80 ;;
  vertices <- traverse (fun k => vertexAt buffer (coordOffset k 0))
                (seq 0 (3 * N.to_nat triangleCount)) ;;
  Some (mkMesh vertices (map triangleOf (seq 0 (N.to_nat triangleCount)))).

(** The bytes of a binary file the parser looks at: the count, and of each
    50-byte record the 36 bytes after the normal. *)
Definition readsByte (offset : nat) : bool :=
  ((80 <=? offset) && (offset <? 84) ||
   (84 <=? offset) && (12 <=? (offset - 84) mod 50) &&
   ((offset - 84) mod 50 <? 48))%nat.

(** A file of one triangle, (0,0,0) (1,0,0) (0,1,0), with an empty
    header, no normal and no attribute bytes. *)
Definition oneTriangle : ArrayBuffer :=
  let o := Byte.x00 in
  repeat o 80 ++ [Byte.x01; o; o; o] ++ repeat o 12 ++
  [o; o; o; o;  o; o; o; o;  o; o; o; o] ++
  [o; o; Byte.x80; Byte.x3f;  o; o; o; o;  o; o; o; o] ++
  [o; o; o; o;  o; o; Byte.x80; Byte.x3f;  o; o; o; o].

Definition oneTriangleMesh : Mesh :=
  mkMesh [[Fin 0; Fin 0; Fin 0]; [Fin 1; Fin 0; Fin 0]; [Fin 0; Fin 1; Fin 0]]
         [[Fin 0; Fin 1; Fin 2]].

(* ===================================================================== *)
(** ** STLParser.parseASCII *)
(* ===================================================================== *)

(** A JavaScript string: its UTF-16 code units. *)
Definition jsstring := list N.

Module Str.

Local Open Scope N_scope.

(** A string literal of the source (ASCII). *)
Definition lit (s : String.string) : jsstring :=
  map Ascii.N_of_ascii (String.list_ascii_of_string s).

(** The code units [trim] strips and [\s] matches: the WhiteSpace and
    LineTerminator code points of ECMAScript. *)
Definition isSpace (c : N) : bool :=
  (c =? 9) || (c =? 10) || (c =? 11) || (c =? 12) || (c =? 13) ||
  (c =? 32) || (c =? 160) || (c =? 5760) ||
  ((8192 <=? c) && (c <=? 8202)) ||
  (c =? 8232) || (c =? 8233) || (c =? 8239) || (c =? 8287) ||
  (c =? 12288) || (c =? 65279).

Fixpoint dropSpaces (s : jsstring) : jsstring :=
  match s with
  | [] => []
  | c :: s' => if isSpace c then dropSpaces s' else s
  end.

(** [s.trim()] *)
Definition trim (s : jsstring) : jsstring :=
  rev (dropSpaces (rev (dropSpaces s))).

(** [s.startsWith(prefix)] *)
Fixpoint startsWith (s prefix : jsstring) : bool :=
  match prefix, s with
  | [], _ => true
  | _ :: _, [] => false
  | p :: prefix', c :: s' => (c =? p) && startsWith s' prefix'
  end.

(** [s.split(sep)] for a separator of one code unit: [cur] is the piece
    under way. *)
Fixpoint splitAt (sep : N) (cur s : jsstring) : list jsstring :=
  match s with
  | [] => [cur]
  | c :: s' =>
      if c =? sep then cur :: splitAt sep [] s'
      else splitAt sep (cur ++ [c]) s'
  end.

Definition split (sep : N) (s : jsstring) : list jsstring :=
  splitAt sep [] s.

(** [s.split(/\s+/)]: the pieces between the maximal runs of space; a
    run at either end leaves an empty piece there.  [inRun] tells that
    the unit before was space. *)
Fixpoint splitRuns (inRun : bool) (cur s : jsstring) : list jsstring :=
  match s with
  | [] => [cur]
  | c :: s' =>
      if isSpace c then
        if inRun then splitRuns true cur s'
        else cur :: splitRuns true [] s'
      else splitRuns false (cur ++ [c]) s'
  end.

Definition splitSpaces (s : jsstring) : list jsstring :=
  splitRuns false [] s.

(** [parts[i]] handed to a function of a string: a missing part is
    [undefined]; the parser reads parts 1 to 3 of at least 4. *)
Definition part (parts : list jsstring) (i : nat) : jsstring :=
  nth i parts [].

End Str.

(** The literals of the parser and of the examples. *)
Module Words.

Import Stdlib.Strings.String.
Local Open Scope string_scope.

Definition vertex : jsstring := Str.lit "vertex".
Definition projection_ : jsstring := Str.lit "projection_".
Definition png : jsstring := Str.lit ".png".

(** A facet, and a stray vertex line of two fields only. *)
Definition facetText : jsstring :=
  Str.lit "solid s
 facet normal 0 0 1
  outer loop
   vertex 0 0 0
   vertex 1 0 0
   vertex 0 1 0
  endloop
 endfacet
 vertex 5 5
endsolid s".

End Words.

Section ParseASCII.

(** [parseFloat], a built-in. *)
Variable parseFloat : jsstring -> num.

Local Open Scope nat_scope.

(** The callback of [forEach], on [(vertices, triangles, currentTriangle)]. *)
Definition asciiLine
    (st : list (list num) * list (list num) * list num) (line : jsstring)
  : list (list num) * list (list num) * list num :=
  let '(vertices, triangles, currentTriangle) := st in
  let trimmed := Str.trim line in
  if Str.startsWith trimmed Words.vertex then
    let parts := Str.splitSpaces trimmed in
    if 4 <=? length parts then
      let vertices :=
        vertices ++ [[parseFloat (Str.part parts 1);
                      parseFloat (Str.part parts 2);
                      parseFloat (Str.part parts 3)]] in
      let currentTriangle :=
        currentTriangle ++ [JS.of_nat (length vertices - 1)] in
      if length currentTriangle =? 3
      then (vertices, triangles ++ [currentTriangle], [])
      else (vertices, triangles, currentTriangle)
    else st
  else st.

Definition parseASCII (text : jsstring) : Mesh :=
  let '(vertices, triangles, _) :=
    fold_left asciiLine (Str.split 10 text) ([], [], []) in
  mkMesh vertices triangles.

End ParseASCII.

(** The vertex a line contributes, if it is a vertex line. *)
Definition lineVertex (parseFloat : jsstring -> num) (line : jsstring)
  : list (list num) :=
  let trimmed := Str.trim line in
  let parts := Str.splitSpaces trimmed in
  if Str.startsWith trimmed Words.vertex && (4 <=? length parts)%nat
  then [[parseFloat (Str.part parts 1); parseFloat (Str.part parts 2);
         parseFloat (Str.part parts 3)]]
  else [].

(** The state between two lines: the triangles are the full triples of
    the vertices so far, and [currentTriangle] holds the indices of the
    vertices after the last full triple. *)
Definition asciiInv (st : list (list num) * list (list num) * list num)
  : Prop :=
  let '(vertices, triangles, currentTriangle) := st in
  Forall (fun v => length v = 3%nat) vertices /\
  exists q r,
    (r < 3)%nat /\ length vertices = (3 * q + r)%nat /\
    triangles = map triangleOf (seq 0 q) /\
    currentTriangle = map JS.of_nat (seq (3 * q) r).

(** A text with every line feed turned into carriage return, line feed. *)
Definition crlf (text : jsstring) : jsstring :=
  flat_map (fun c => if (c =? 10)%N then [13%N; 10%N] else [c]) text.

(** A [parseFloat] for the examples: the digits of an unsigned integer
    literal; [NaN] on anything else. *)
Fixpoint digitsValue (acc : option Z) (s : jsstring) : num :=
  match s with
  | [] => match acc with Some z => JS.of_Z z | None => JS.NaN end
  | c :: s' =>
      if ((48 <=? c) && (c <=? 57))%N
      then digitsValue
             (Some (10 * match acc with Some z => z | None => 0 end
                    + Z.of_N (c - 48))%Z) s'
      else match acc with Some z => JS.of_Z z | None => JS.NaN end
  end.

(* ===================================================================== *)
(** ** The page's use of the projector *)
(* ===================================================================== *)

(** [projector.volumeSize = volumeSize; projector.numProjections =
    numProjections] in the page's [generateProjections]: the two fields
    are overwritten on the projector the page built once; its kernel is
    the one its constructor created. *)
Definition configure (self : CALProjector) (volumeSize numProjections : nat)
  : CALProjector :=
  mkCALProjector volumeSize numProjections (projections self)
    (kernelOutput self).

(** [block4] with the cells of its last slice, [y = 3], set to 1. *)
Definition block4capped : VoxelVolume :=
  map (fun plane => firstn 3 plane ++ [repeat (Fin 1) 4]) block4.

(* ===================================================================== *)
(** ** The test models, cell by cell *)
(* ===================================================================== *)

(** What a loop that stores 1 on the cells of a region that pass a test
    leaves of a grid: a grid of the same side, 1 on those cells, the
    grid as it was elsewhere. *)
Definition painted (n : nat) (region test : nat -> nat -> nat -> bool)
    (grid grid' : VoxelVolume) : Prop :=
  cubic n grid' /\
  forall z y x,
    cell grid' z y x
    = if region z y x && test z y x then Some (Fin 1) else cell grid z y x.

(** The integers of [[lo, hi)]. *)
Definition inRange (lo hi : Z) (k : nat) : bool :=
  ((lo <=? Z.of_nat k) && (Z.of_nat k <? hi))%Z.

Definition inBox (zlo zhi ylo yhi xlo xhi : Z) (z y x : nat) : bool :=
  inRange zlo zhi z && (inRange ylo yhi y && inRange xlo xhi x).

(** The integer below a finite number. *)
Definition floorZ (a : num) : Z :=
  match a with Fin q => Qfloor q | _ => 0%Z end.

Section ModelTests.

Variable Math_sqrt : num -> num.
Variable Math_atan2 : num -> num -> num.

Local Open Scope num_scope.

(** The test of the sphere branch at the cell [(x, y, z)]. *)
Definition sphereTest (n : nat) (z y x : num) : bool :=
  let size := JS.of_nat n in
  let center := size / Fin 2 in
  let radius := size * Fin (3 # 10) in
  Math_sqrt (JS.pow2 (x - center) + JS.pow2 (y - center) +
             JS.pow2 (z - center)) <=? radius.

(** The test of the gear branch at the cell [(x, y)] of a slice. *)
Definition gearTest (n : nat) (z y x : num) : bool :=
  let size := JS.of_nat n in
  let center := size / Fin 2 in
  let outerRadius := size / Fin 3 in
  let innerRadius := size / Fin 6 in
  let teeth := Fin 8 in
  let dx := x - center in
  let dy := y - center in
  let dist := Math_sqrt (dx * dx + dy * dy) in
  let angle := Math_atan2 dy dx in
  let toothAngle := ((angle + Math_PI) / (Fin 2 * Math_PI)) * teeth in
  let toothPhase := toothAngle - JS.floor toothAngle in
  let radiusMod :=
    if toothPhase <? Fin (1 # 2) then Fin 1 else Fin (7 # 10) in
  let effectiveRadius :=
    innerRadius + (outerRadius - innerRadius) * radiusMod in
  dist <=? effectiveRadius.

End ModelTests.

(** [Math.floor(startZ)] and [Math.floor(endZ)] of the gear branch. *)
Definition gearLow (n : nat) : Z :=
  let size := JS.of_nat n in
  let height := JS.mul size (Fin (6 # 10)) in
  floorZ (JS.div (JS.sub size height) (Fin 2)).

Definition gearHigh (n : nat) : Z :=
  let size := JS.of_nat n in
  let height := JS.mul size (Fin (6 # 10)) in
  floorZ (JS.add (JS.div (JS.sub size height) (Fin 2)) height).

(** [Math.floor(start)] and [Math.floor(end)] of the cube branch. *)
Definition cubeLow (n : nat) : Z := floorZ (cubeStart n).
Definition cubeHigh (n : nat) : Z := floorZ (cubeEnd n).

(** The cells of one axis the cube and the gear occupy at size [n]. *)
Definition cubeSpan (n w : nat) : bool :=
  ((3 * n / 10 <=? w) && (w <? 7 * n / 10))%nat.

Definition gearSpan (n z : nat) : bool :=
  ((n / 5 <=? z) && (z <? 4 * n / 5))%nat.

(** [dist] of the gear branch at the cell [(x, y)] of a slice. *)
Definition gearDist (Math_sqrt : num -> num) (n y x : nat) : num :=
  let center := JS.div (JS.of_nat n) (Fin 2) in
  let dx := JS.sub (JS.of_nat x) center in
  let dy := JS.sub (JS.of_nat y) center in
  Math_sqrt (JS.add (JS.mul dx dx) (JS.mul dy dy)).

(* ===================================================================== *)
(** ** The page: images of a projection *)
(* ===================================================================== *)

Module Canvas.

(** The conversion of a store into [ImageData.data], a
    [Uint8ClampedArray]: [NaN] (and [undefined]) give 0, the value is
    clamped to [[0, 255]] and rounded to the nearest integer, a tie to
    the even one. *)
Definition toUint8Clamp (a : num) : N :=
  match a with
  | Fin q =>
      if Qle_bool q 0 then 0%N
      else if Qle_bool 255 q then 255%N
      else
        let f := Qfloor q in
        let half := inject_Z f + (1 # 2) in
        if Qeq_bool q half
        then (if Z.even f then Z.to_N f else Z.to_N (f + 1))
        else if Qle_bool q half then Z.to_N f else Z.to_N (f + 1)
  | JS.PInf => 255%N
  | JS.NInf | JS.NaN => 0%N
  end.

(** [data[i] = byte] on a typed array: a store past the end does
    nothing. *)
Fixpoint setAt (data : list N) (i : nat) (byte : N) : list N :=
  match data, i with
  | [], _ => []
  | _ :: data', O => byte :: data'
  | b :: data', Datatypes.S i' => b :: setAt data' i' byte
  end.

(** The four stores of a pixel: the value three times, then 255. *)
Definition putPixel (data : list N) (i : nat) (value : num) : list N :=
  let data := setAt data i (toUint8Clamp value) in
  let data := setAt data (i + 1) (toUint8Clamp value) in
  let data := setAt data (i + 2) (toUint8Clamp value) in
  setAt data (i + 3) 255%N.

(** [ctx.createImageData(w, w).data]: transparent black; a zero width is
    an [IndexSizeError]. *)
Definition createImageData (w : nat) : option (list N) :=
  if (w =? 0)%nat then None else Some (repeat 0%N (4 * w * w)).

(** [data[row]?.[col]] for numbers [row] and [col]. *)
Definition lookup (data : list (list num)) (row col : num) : option num :=
  match JS.index row with
  | Some j =>
      line <- nth_error data j ;;
      match JS.index col with
      | Some i => nth_error line i
      | None => None
      end
  | None => None
  end.

End Canvas.

(** [drawProjection] up to [putImageData]: the bytes of the image drawn
    for a projection on a canvas of side [canvasSize].  The grid and the
    reticle are stroked over it afterwards. *)
Definition drawProjection (canvasSize : nat) (projection : Projection)
  : option (list N) :=
  let size := JS.of_nat (length (data projection)) in
  let scale := JS.div (JS.of_nat canvasSize) size in
  imageData <- Canvas.createImageData canvasSize ;;
  Some (fold_left (fun bytes y =>
          fold_left (fun bytes x =>
            let projX := JS.floor (JS.div (JS.of_nat x) scale) in
            let projY := JS.floor (JS.div (JS.of_nat y) scale) in
            let value :=
              match Canvas.lookup (data projection) projY projX with
              | Some v => JS.or_else v (Fin 0)
              | None => Fin 0
              end in
            let i := ((y * canvasSize + x) * 4)%nat in
            Canvas.putPixel bytes i value)
            (seq 0 canvasSize) bytes)
          (seq 0 canvasSize) imageData).

(** The image [exportImagesAsZip] builds for one projection, on a canvas
    of side [volumeSize].  [proj.data[y][x]] on a missing row is a
    [TypeError]; a missing entry of a row is [undefined], stored as 0. *)
Definition exportImage (volumeSize : nat) (proj : Projection)
  : option (list N) :=
  imageData <- Canvas.createImageData volumeSize ;;
  for_each (fun bytes y =>
    row <- nth_error (data proj) y ;;
    Some (fold_left (fun bytes x =>
            let val := nth x row JS.NaN in
            let index := ((y * volumeSize + x) * 4)%nat in
            Canvas.putPixel bytes index val)
            (seq 0 volumeSize) bytes))
    (seq 0 volumeSize) imageData.

(** The image whose pixel [(x, y)] has the grey level [level y x]. *)
Definition greyImage (w : nat) (level : nat -> nat -> N) : list N :=
  concat (map (fun y =>
            concat (map (fun x => [level y x; level y x; level y x; 255%N])
                      (seq 0 w)))
            (seq 0 w)).

(** The entry of a projection the canvas pixel [(x, y)] shows, or 0. *)
Definition shown (canvasSize : nat) (projection : Projection) (y x : nat)
  : num :=
  let size := length (data projection) in
  match nth_error (data projection) (y * size / canvasSize) with
  | Some line =>
      match nth_error line (x * size / canvasSize) with
      | Some v => JS.or_else v (Fin 0)
      | None => Fin 0
      end
  | None => Fin 0
  end.

(* ===================================================================== *)
(** ** The page: exportImagesAsZip *)
(* ===================================================================== *)

From Stdlib Require DecimalNat Finite.

Module Names.

(** The code units of a decimal numeral. *)
Fixpoint digits (d : Decimal.uint) : jsstring :=
  match d with
  | Decimal.Nil => []
  | Decimal.D0 d => 48%N :: digits d
  | Decimal.D1 d => 49%N :: digits d
  | Decimal.D2 d => 50%N :: digits d
  | Decimal.D3 d => 51%N :: digits d
  | Decimal.D4 d => 52%N :: digits d
  | Decimal.D5 d => 53%N :: digits d
  | Decimal.D6 d => 54%N :: digits d
  | Decimal.D7 d => 55%N :: digits d
  | Decimal.D8 d => 56%N :: digits d
  | Decimal.D9 d => 57%N :: digits d
  end.

(** [String(i)] for an index [i]. *)
Definition ofIndex (i : nat) : jsstring := digits (Nat.to_uint i).

(** [s.padStart(len, fill)] for a fill of one code unit. *)
Definition padStart (len : nat) (fill : N) (s : jsstring) : jsstring :=
  repeat fill (len - length s) ++ s.

(** [`projection_${String(i).padStart(4, "0")}.png`] *)
Definition fileName (i : nat) : jsstring :=
  Words.projection_ ++ padStart 4 48%N (ofIndex i) ++ Words.png.

(** A numeral with [k] zeros in front. *)
Fixpoint zeroPadded (k : nat) (d : Decimal.uint) : Decimal.uint :=
  match k with
  | O => d
  | Datatypes.S k' => Decimal.D0 (zeroPadded k' d)
  end.

End Names.

Section ZipExport.

(** The PNG of an image, as [canvas.toBlob] hands it to its callback:
    [null] when the image cannot be encoded. *)
Variable Blob : Type.
Variable toBlob : list N -> option Blob.

(** [zip.file(name, blob)]: a new entry, or the entry of that name
    replaced. *)
Definition zipFile (zip : list (jsstring * Blob)) (name : jsstring)
    (blob : Blob) : list (jsstring * Blob) :=
  if existsb (fun e => if list_eq_dec N.eq_dec (fst e) name
                       then true else false) zip
  then map (fun e => if list_eq_dec N.eq_dec (fst e) name
                     then (name, blob) else e) zip
  else zip ++ [(name, blob)].

(** What a call of [exportImagesAsZip] comes to: nothing to export, an
    exception out of the loop, or the entries of the archive. *)
Inductive Exported :=
| Skipped
| Raised
| Zipped (entries : list (jsstring * Blob)).

(** One turn of the loop, for projection [i]. *)
Definition exportStep (volumeSize : nat) (zip : list (jsstring * Blob))
    (entry : nat * Projection) : option (list (jsstring * Blob)) :=
  let (i, proj) := entry in
  image <- exportImage volumeSize proj ;;
  Some (match toBlob image with
        | Some blob => zipFile zip (Names.fileName i) blob
        | None => zip
        end).

Definition exportImagesAsZip (volumeSize : nat)
    (projections : list Projection) : Exported :=
  if (length projections =? 0)%nat then Skipped
  else
    match for_each (exportStep volumeSize)
            (combine (seq 0 (length projections)) projections) [] with
    | Some zip => Zipped zip
    | None => Raised
    end.

End ZipExport.

(* ===================================================================== *)
(** ** The page: playback, and the progress of a run *)
(* ===================================================================== *)

(** The update the playing interval applies to [currentFrame], for a set
    of [len] projections; the interval only runs for [len] above 0. *)
Definition nextFrame (len p : nat) : nat := ((p + 1) mod len)%nat.

(** [currentFrame] after [k] ticks of the interval. *)
Definition playback (len k p : nat) : nat := Nat.iter k (nextFrame len) p.

Section Progress.

Variables Math_cos Math_sin : num -> num.

(** The argument of [this.progressCallback?.(...)] in turn [i]. *)
Definition progressOf (self : CALProjector) (i : nat) : num :=
  JS.div (JS.add (JS.of_nat i) (Fin 1)) (JS.of_nat (numProjections self)).

(** A turn of the loop of [generateProjections] with the call of the
    progress callback recorded. *)
Definition generateStepLogged (inputVolume : Input)
    (st : CALProjector * list num) (i : nat)
  : option (CALProjector * list num) :=
  let (self, log) := st in
  self' <- generateStep Math_cos Math_sin inputVolume self i ;;
  Some (self', log ++ [progressOf self i]).

(** [generateProjections] with the calls of the progress callback: the
    projector after the run, the array returned, the values reported. *)
Definition generateProjectionsLogged (self : CALProjector)
    (volume : VoxelVolume)
  : option (CALProjector * list Projection * list num) :=
  let self := set_projections self [] in
  let flatVolume := flat2 volume in
  let inputVolume :=
    mkInput flatVolume (volumeSize self) (volumeSize self)
      (volumeSize self) in
  match for_each (generateStepLogged inputVolume)
          (seq 0 (numProjections self)) (self, []) with
  | Some (self, log) =>
      let self := normalizeProjections self in
      Some (self, projections self, log)
  | None => None
  end.

(** The page's text for a progress [p]:
    [Math.round(p * numProjections)]. *)
Definition angleShown (numProjections : nat) (p : num) : num :=
  JS.round (JS.mul p (JS.of_nat numProjections)).

End Progress.

(* ===================================================================== *)
(** ** meshToVoxels, cell by cell *)
(* ===================================================================== *)

(** The number [c] is the index [k]. *)
Definition coordIs (c : num) (k : nat) : bool :=
  match JS.index c with
  | Some j => (j =? k)%nat
  | None => false
  end.

(** The vertex falls on the cell [(x, y, z)] of the grid. *)
Definition plots (gridSize : nat) (min size : list num) (scale : num)
    (vertex : list num) (z y x : nat) : bool :=
  coordIs (gridCoord gridSize min size scale vertex 2) z &&
  coordIs (gridCoord gridSize min size scale vertex 1) y &&
  coordIs (gridCoord gridSize min size scale vertex 0) x &&
  (z <? gridSize)%nat && (y <? gridSize)%nat && (x <? gridSize)%nat.

(** Some vertex of the mesh falls on the cell. *)
Definition plotted (mesh : Mesh) (gridSize : nat) (z y x : nat) : bool :=
  let (min, max) := boundingBox (vertices mesh) in
  let size := extent min max in
  let scale := meshScale gridSize size in
  existsb (fun vertex => plots gridSize min size scale vertex z y x)
    (vertices mesh).

(** A vertex of three finite coordinates. *)
Definition vertex3 (v : list num) : Prop :=
  exists a b c : Q, v = [Fin a; Fin b; Fin c].

(** The cells of an axis inside the margin of a tenth of the grid. *)
Definition inMargin (gridSize k : nat) : Prop :=
  (gridSize / 10 <= k <= 9 * gridSize / 10)%nat.

(** Two vertices at opposite corners of a 1 x 2 x 4 box. *)
Definition twoCorners : Mesh :=
  mkMesh [[Fin 0; Fin 0; Fin 0]; [Fin 1; Fin 2; Fin 4]]
         [[Fin 0; Fin 1; Fin 1]].

(** The grid coordinate of a vertex along axis [i], as [meshToVoxels]
    computes it from the bounding box of the mesh. *)
Definition meshCoord (mesh : Mesh) (gridSize : nat) (vertex : list num)
    (i : nat) : num :=
  let (min, max) := boundingBox (vertices mesh) in
  let size := extent min max in
  gridCoord gridSize min size (meshScale gridSize size) vertex i.
(* ===================================================================== *)
(** ** Properties of the number model *)
(* ===================================================================== *)

Module NumFacts.

Lemma ltb_Fin (p q : Q) : JS.ltb (Fin p) (Fin q) = true <-> p < q.
Proof.
  simpl. rewrite negb_true_iff. split; intro H.
  - apply Qnot_le_lt. intro Hle. apply Qle_bool_iff in Hle. congruence.
  - destruct (Qle_bool q p) eqn:E; [|reflexivity].
    apply Qle_bool_iff in E. lra.
Qed.

Lemma ltb_Fin_false (p q : Q) : JS.ltb (Fin p) (Fin q) = false <-> q <= p.
Proof.
  simpl. rewrite negb_false_iff. apply Qle_bool_iff.
Qed.

Lemma leb_Fin (p q : Q) : JS.leb (Fin p) (Fin q) = true <-> p <= q.
Proof. simpl. apply Qle_bool_iff. Qed.

(** A number between two finite bounds is finite. *)
Lemma between (x : num) (lo hi : Q) :
  JS.geb x (Fin lo) = true -> JS.ltb x (Fin hi) = true ->
  exists q, x = Fin q /\ lo <= q /\ q < hi.
Proof.
  destruct x as [q| | |]; simpl; try discriminate.
  intros H1 H2. exists q. split; [reflexivity|].
  apply Qle_bool_iff in H1. apply (ltb_Fin q hi) in H2. lra.
Qed.

Lemma Qred_eq (p q : Q) : p == q -> Qred p = Qred q.
Proof. apply Qred_complete. Qed.

Lemma Qeq_bool_refl' (p q : Q) : p == q -> Qeq_bool p q = true.
Proof. apply Qeq_bool_iff. Qed.

(** An integer-valued finite number is the index it denotes. *)
Lemma index_int (q : Q) (z : Z) :
  q == inject_Z z -> (0 <= z)%Z -> JS.index (Fin q) = Some (Z.to_nat z).
Proof.
  intros Hq Hz. unfold JS.index.
  assert (Hf : Qfloor q = z) by (rewrite Hq; apply Qfloor_Z).
  rewrite Hf.
  rewrite (Qeq_bool_refl' Hq).
  destruct (Z.leb_spec 0 z); [reflexivity | lia].
Qed.

Lemma floor_bounds (q : Q) :
  inject_Z (Qfloor q) <= q /\ q < inject_Z (Qfloor q) + 1.
Proof.
  split; [apply Qfloor_le|].
  pose proof (Qlt_floor q) as H.
  rewrite inject_Z_plus in H. exact H.
Qed.

End NumFacts.

(* ===================================================================== *)
(** ** The kernel: reads, interpolation, the marching loop *)
(* ===================================================================== *)


Section KernelFacts.

Import NumFacts.
Local Open Scope Q_scope.

Variable n : nat.
Variable volume : Input.
Hypothesis Hwf : wfInput n volume.

Lemma read_inside (zq yq xq : Q) (k j i : Z) :
  zq == inject_Z k -> yq == inject_Z j -> xq == inject_Z i ->
  (0 <= k < Z.of_nat n)%Z -> (0 <= j < Z.of_nat n)%Z ->
  (0 <= i < Z.of_nat n)%Z ->
  exists c, read volume (Fin zq) (Fin yq) (Fin xq) = Some c /\
            flatCell volume (Z.to_nat k) (Z.to_nat j) (Z.to_nat i) = Some c.
Proof.
  intros Hz Hy Hx Hk Hj Hi.
  destruct Hwf as (HX & HY & HZ & Hlen).
  unfold read, flatCell.
  rewrite (index_int Hz), (index_int Hy), (index_int Hx) by lia.
  rewrite HX, HY, HZ.
  assert (Hk' : (Z.to_nat k < n)%nat) by lia.
  assert (Hj' : (Z.to_nat j < n)%nat) by lia.
  assert (Hi' : (Z.to_nat i < n)%nat) by lia.
  rewrite (proj2 (Nat.ltb_lt _ _) Hk'), (proj2 (Nat.ltb_lt _ _) Hj'),
    (proj2 (Nat.ltb_lt _ _) Hi'). simpl.
  destruct (nth_error (value volume)
              (Z.to_nat k * n * n + Z.to_nat j * n + Z.to_nat i)%nat) eqn:E.
  - exists n0. split; reflexivity.
  - apply nth_error_None in E. nia.
Qed.

(** The guard leaves finite coordinates in [[0, n - 1)]. *)
Lemma inside_bounds (x y z : num) :
  inside (JS.of_nat n) x y z = true ->
  exists qx qy qz, x = Fin qx /\ y = Fin qy /\ z = Fin qz /\
    0 <= qx < inject_Z (Z.of_nat n) - 1 /\
    0 <= qy < inject_Z (Z.of_nat n) - 1 /\
    0 <= qz < inject_Z (Z.of_nat n) - 1.
Proof.
  unfold inside. intro H.
  repeat (apply andb_prop in H; destruct H as [H ?]).
  change (JS.sub (JS.of_nat n) (Fin 1))
    with (Fin (Qred (inject_Z (Z.of_nat n) - 1))) in *.
  destruct (between x _ _ H H4) as (qx & -> & Hx1 & Hx2).
  destruct (between y _ _ H3 H2) as (qy & -> & Hy1 & Hy2).
  destruct (between z _ _ H1 H0) as (qz & -> & Hz1 & Hz2).
  rewrite Qred_correct in Hx2, Hy2, Hz2.
  exists qx, qy, qz. repeat split; assumption.
Qed.

Lemma floor_index (q : Q) :
  0 <= q < inject_Z (Z.of_nat n) - 1 ->
  (0 <= Qfloor q /\ Qfloor q + 1 < Z.of_nat n)%Z.
Proof.
  intros [H0 H1]. split.
  - change 0%Z with (Qfloor 0). apply Qfloor_resp_le. exact H0.
  - rewrite Zlt_Qlt. pose proof (Qfloor_le q).
    rewrite inject_Z_plus. change (inject_Z 1) with 1. lra.
Qed.

Lemma succ_int (f : Z) : Qred (inject_Z f + 1) == inject_Z (f + 1).
Proof. rewrite Qred_correct, inject_Z_plus. reflexivity. Qed.

(** Every read of the guarded block succeeds, and a property that holds
    of the eight cells around the position and that the blend preserves
    holds of the interpolated value. *)
Lemma interpolate_region (P : num -> Prop) :
  (forall a b d, P a -> P b -> 0 <= d < 1 ->
     P (JS.add (JS.mul a (JS.sub (Fin 1) (Fin (Qred d))))
               (JS.mul b (Fin (Qred d))))) ->
  forall qx qy qz,
    0 <= qx < inject_Z (Z.of_nat n) - 1 ->
    0 <= qy < inject_Z (Z.of_nat n) - 1 ->
    0 <= qz < inject_Z (Z.of_nat n) - 1 ->
    (forall dk dj di c,
       (dk = 0 \/ dk = 1)%Z -> (dj = 0 \/ dj = 1)%Z -> (di = 0 \/ di = 1)%Z ->
       flatCell volume (Z.to_nat (Qfloor qz + dk)) (Z.to_nat (Qfloor qy + dj))
         (Z.to_nat (Qfloor qx + di)) = Some c -> P c) ->
    exists c, interpolate volume (Fin qx) (Fin qy) (Fin qz) = Some c /\ P c.
Proof.
  intros Hblend qx qy qz Hx Hy Hz Hcells.
  destruct (floor_index Hx) as [Hx0 Hx1].
  destruct (floor_index Hy) as [Hy0 Hy1].
  destruct (floor_index Hz) as [Hz0 Hz1].
  pose proof (floor_bounds qx) as Fx.
  pose proof (floor_bounds qy) as Fy.
  pose proof (floor_bounds qz) as Fz.
  unfold interpolate.
  cbn [JS.floor]. unfold JS.of_Z. cbn [JS.add JS.sub].
  set (fx := Qfloor qx) in *. set (fy := Qfloor qy) in *.
  set (fz := Qfloor qz) in *.
  assert (Ex : inject_Z fx == inject_Z (fx + 0))
    by (rewrite Z.add_0_r; reflexivity).
  assert (Ey : inject_Z fy == inject_Z (fy + 0))
    by (rewrite Z.add_0_r; reflexivity).
  assert (Ez : inject_Z fz == inject_Z (fz + 0))
    by (rewrite Z.add_0_r; reflexivity).
  pose proof (succ_int fx) as Sx. pose proof (succ_int fy) as Sy.
  pose proof (succ_int fz) as Sz.
  destruct (read_inside Ez Ey Ex) as (c000 & -> & H000); try lia.
  destruct (read_inside Ez Ey Sx) as (c100 & -> & H100); try lia.
  destruct (read_inside Ez Sy Ex) as (c010 & -> & H010); try lia.
  destruct (read_inside Ez Sy Sx) as (c110 & -> & H110); try lia.
  destruct (read_inside Sz Ey Ex) as (c001 & -> & H001); try lia.
  destruct (read_inside Sz Ey Sx) as (c101 & -> & H101); try lia.
  destruct (read_inside Sz Sy Ex) as (c011 & -> & H011); try lia.
  destruct (read_inside Sz Sy Sx) as (c111 & -> & H111); try lia.
  apply Hcells in H000, H100, H010, H110, H001, H101, H011, H111; auto.
  eexists. split; [reflexivity|].
  repeat apply Hblend; auto; lra.
Qed.

Lemma flatCell_In (k j i : nat) (c : num) :
  flatCell volume k j i = Some c -> In c (value volume).
Proof. unfold flatCell. apply nth_error_In. Qed.

Lemma interpolate_spec (P : num -> Prop) :
  (forall a b d, P a -> P b -> 0 <= d < 1 ->
     P (JS.add (JS.mul a (JS.sub (Fin 1) (Fin (Qred d))))
               (JS.mul b (Fin (Qred d))))) ->
  Forall P (value volume) ->
  forall qx qy qz,
    0 <= qx < inject_Z (Z.of_nat n) - 1 ->
    0 <= qy < inject_Z (Z.of_nat n) - 1 ->
    0 <= qz < inject_Z (Z.of_nat n) - 1 ->
    exists c, interpolate volume (Fin qx) (Fin qy) (Fin qz) = Some c /\ P c.
Proof.
  intros Hblend Hcells qx qy qz Hx Hy Hz.
  rewrite Forall_forall in Hcells.
  apply interpolate_region; auto.
  intros dk dj di c _ _ _ Hc. apply Hcells.
  apply (flatCell_In _ _ _ Hc).
Qed.

(** The blend of two values of [[0, 1]] stays there; the blend of two
    zeros is zero. *)
Lemma blend_unit (a b : num) (d : Q) :
  JS.within 0 1 a -> JS.within 0 1 b -> 0 <= d < 1 ->
  JS.within 0 1 (JS.add (JS.mul a (JS.sub (Fin 1) (Fin (Qred d))))
                        (JS.mul b (Fin (Qred d)))).
Proof.
  destruct a as [p| | |], b as [q| | |];
    cbn [JS.within JS.add JS.mul JS.sub]; try tauto.
  intros [Hp0 Hp1] [Hq0 Hq1] [Hd0 Hd1].
  rewrite !Qred_correct. split; nra.
Qed.

Lemma blend_zero (a b : num) (d : Q) :
  a = Fin 0 -> b = Fin 0 -> 0 <= d < 1 ->
  JS.add (JS.mul a (JS.sub (Fin 1) (Fin (Qred d))))
         (JS.mul b (Fin (Qred d))) = Fin 0.
Proof.
  intros -> -> _. reflexivity.
Qed.

(** One turn of the marching loop: it never fails, and it adds half an
    interpolated value or nothing. *)
Lemma marchStep_spec (P : num -> Prop) :
  (forall a b d, P a -> P b -> 0 <= d < 1 ->
     P (JS.add (JS.mul a (JS.sub (Fin 1) (Fin (Qred d))))
               (JS.mul b (Fin (Qred d))))) ->
  Forall P (value volume) ->
  forall cosTheta sinTheta uCentered vCentered center t acc,
  exists acc',
    marchStep volume (JS.of_nat n) cosTheta sinTheta uCentered vCentered
      center t acc = Some acc' /\
    (acc' = acc \/
     exists c, P c /\ acc' = JS.add acc (JS.mul c (Fin (1 # 2)))).
Proof.
  intros Hblend Hcells cosTheta sinTheta uCentered vCentered center t acc.
  unfold marchStep.
  destruct (samplePosition cosTheta sinTheta uCentered vCentered center t)
    as [[x y] z].
  destruct (inside (JS.of_nat n) x y z) eqn:E.
  - destruct (inside_bounds _ _ _ E)
      as (qx & qy & qz & -> & -> & -> & Hx & Hy & Hz).
    destruct (interpolate_spec Hblend Hcells Hx Hy Hz) as (c & -> & Hc).
    eexists. split; [reflexivity|]. right. exists c. auto.
  - exists acc. auto.
Qed.

End KernelFacts.

Section LoopFacts.

Import NumFacts.
Local Open Scope Q_scope.

Variable S : Type.

(** A loop over finite parameters with a positive step: an invariant of
    the body holds at the exit, and the fuel suffices when it covers the
    distance to the bound. *)
Lemma for_num_run (P : Q -> S -> Prop) (st h : Q)
    (body : num -> S -> option S) :
  0 < st ->
  (forall q q' s, q == q' -> P q s -> P q' s) ->
  (forall q s, P q s -> q < h ->
     exists s', body (Fin q) s = Some s' /\ P (q + st) s') ->
  forall fuel q s,
    P q s -> h - q <= st * inject_Z (Z.of_nat fuel) ->
    exists q' s',
      for_num fuel (Fin st) (Fin h) body (Fin q) s = Some s' /\
      P q' s' /\ h <= q'.
Proof.
  intros Hst Hresp Hbody.
  induction fuel as [|fuel IH]; intros q s HP Hfuel;
    cbn [for_num]; destruct (JS.ltb (Fin q) (Fin h)) eqn:E.
  - apply ltb_Fin in E. change (inject_Z (Z.of_nat 0)) with 0 in Hfuel. lra.
  - apply ltb_Fin_false in E. exists q, s. auto.
  - apply ltb_Fin in E.
    destruct (Hbody q s HP E) as (s' & -> & HP').
    cbn [JS.add].
    apply IH.
    + apply Hresp with (q + st); [symmetry; apply Qred_correct | exact HP'].
    + rewrite Qred_correct.
      rewrite Nat2Z.inj_succ in Hfuel. unfold Z.succ in Hfuel.
      rewrite inject_Z_plus in Hfuel. change (inject_Z 1) with 1 in Hfuel.
      lra.
  - apply ltb_Fin_false in E. exists q, s. auto.
Qed.

End LoopFacts.

(** Two loops over the same parameters keep a relation between their
    states that their bodies keep. *)
Lemma for_num_rel (S1 S2 : Type) (R : S1 -> S2 -> Prop) (step hi : num)
    (body1 : num -> S1 -> option S1) (body2 : num -> S2 -> option S2) :
  (forall t s1 s2, R s1 s2 ->
     exists s1' s2', body1 t s1 = Some s1' /\ body2 t s2 = Some s2' /\
                     R s1' s2') ->
  forall fuel t s1 s2 r1,
    R s1 s2 ->
    for_num fuel step hi body1 t s1 = Some r1 ->
    exists r2, for_num fuel step hi body2 t s2 = Some r2 /\ R r1 r2.
Proof.
  intros Hbody.
  induction fuel as [|fuel IH]; intros t s1 s2 r1 HR Hrun;
    cbn [for_num] in *; destruct (JS.ltb t hi).
  - discriminate.
  - injection Hrun as <-. exists s2. auto.
  - destruct (Hbody t s1 s2 HR) as (s1' & s2' & E1 & E2 & HR').
    rewrite E1 in Hrun. rewrite E2. eapply IH; eauto.
  - injection Hrun as <-. exists s2. auto.
Qed.

Section PixelFacts.

Import NumFacts.
Local Open Scope Q_scope.

Variable n : nat.
Variable volume : Input.
Hypothesis Hwf : wfInput n volume.
Variables Math_cos Math_sin : num -> num.

Local Abbreviation N := (sideQ n).
Local Abbreviation T0 := (marchStart n).
Local Abbreviation H := (marchEnd n).

Lemma N_nonneg : 0 <= N.
Proof.
  unfold sideQ. change 0 with (inject_Z 0). rewrite <- Zle_Qle. lia.
Qed.

Lemma T0_val : T0 == - (7 # 10) * N.
Proof. unfold marchStart. rewrite !Qred_correct. ring. Qed.

Lemma H_val : H == (7 # 10) * N.
Proof. unfold marchEnd. rewrite !Qred_correct. ring. Qed.

Lemma marchFuel_enough :
  H - T0 <= (1 # 2) * inject_Z (Z.of_nat (marchFuel n)).
Proof.
  unfold marchFuel.
  rewrite Nat2Z.inj_add, Nat2Z.inj_mul, inject_Z_plus, inject_Z_mult.
  change (inject_Z (Z.of_nat 3)) with 3. change (inject_Z (Z.of_nat 1)) with 1.
  fold N. pose proof N_nonneg. rewrite T0_val, H_val. lra.
Qed.

(** The marching loop of a pixel under an invariant [Inv q acc] of the
    parameter and the running sum, for cells with a property [P] that
    the blend keeps. *)
Lemma radonPixel_inv (P : num -> Prop) (Inv : Q -> num -> Prop) :
  (forall a b d, P a -> P b -> 0 <= d < 1 ->
     P (JS.add (JS.mul a (JS.sub (Fin 1) (Fin (Qred d))))
               (JS.mul b (Fin (Qred d))))) ->
  Forall P (value volume) ->
  (forall q q' acc, q == q' -> Inv q acc -> Inv q' acc) ->
  Inv T0 (Fin 0) ->
  (forall q acc, Inv q acc -> q < H -> Inv (q + (1 # 2)) acc) ->
  (forall q acc c, Inv q acc -> q < H -> P c ->
     Inv (q + (1 # 2)) (JS.add acc (JS.mul c (Fin (1 # 2))))) ->
  forall theta u v,
  exists q r,
    radonPixel Math_cos Math_sin volume theta n u v = Some r /\
    Inv q r /\ H <= q.
Proof.
  intros Hblend Hcells Hresp Hinit Hskip Hadd theta u v.
  unfold radonPixel.
  change (JS.mul (JS.of_nat n) (Fin (7 # 10))) with (Fin H).
  change (JS.mul (JS.neg (JS.of_nat n)) (Fin (7 # 10))) with (Fin T0).
  apply for_num_run with (P := Inv); try assumption.
  - reflexivity.
  - intros q acc HI Hq.
    destruct (marchStep_spec Hwf Hblend Hcells
                (Math_cos (JS.mul theta (JS.div Math_PI (Fin 180))))
                (Math_sin (JS.mul theta (JS.div Math_PI (Fin 180))))
                (JS.sub (JS.of_nat u) (JS.div (JS.of_nat n) (Fin 2)))
                (JS.sub (JS.of_nat v) (JS.div (JS.of_nat n) (Fin 2)))
                (JS.div (JS.of_nat n) (Fin 2)) (Fin q) acc)
      as (acc' & -> & [-> | (c & Hc & ->)]);
      eexists; split; try reflexivity; auto.
  - apply marchFuel_enough.
Qed.

(** The kernel function never fails on a well-formed input. *)
Lemma radonPixel_total theta u v :
  exists r, radonPixel Math_cos Math_sin volume theta n u v = Some r.
Proof.
  destruct (@radonPixel_inv (fun _ => True) (fun _ _ => True))
    with (theta := theta) (u := u) (v := v) as (q & r & Hr & _); auto.
  - apply Forall_forall. auto.
  - eauto.
Qed.

(** Over a volume of zeros it returns zero. *)
Lemma radonPixel_zero theta u v :
  Forall (fun c => c = Fin 0) (value volume) ->
  radonPixel Math_cos Math_sin volume theta n u v = Some (Fin 0).
Proof.
  intro Hz.
  destruct (@radonPixel_inv (fun c => c = Fin 0) (fun _ acc => acc = Fin 0))
    with (theta := theta) (u := u) (v := v) as (q & r & Hr & -> & _); auto.
  - intros; apply blend_zero; auto.
  - intros q acc c -> _ ->. reflexivity.
Qed.

(** Over cells of [[0, 1]] the sum is non-negative and below
    [1.4 * n + 0.5]. *)
Lemma radonPixel_bounds theta u v :
  Forall (JS.within 0 1) (value volume) ->
  exists r,
    radonPixel Math_cos Math_sin volume theta n u v = Some (Fin r) /\
    0 <= r /\ r < (14 # 10) * N + (1 # 2).
Proof.
  intro Hc.
  destruct (@radonPixel_inv (JS.within 0 1)
              (fun q acc => exists a, acc = Fin a /\ 0 <= a /\
                                      a <= q - T0 /\ q < H + (1 # 2)))
    with (theta := theta) (u := u) (v := v)
    as (q & r & Hr & (a & -> & Ha0 & Ha1 & Hq) & _); auto.
  - intros; apply blend_unit; auto.
  - intros q q' acc E (a & -> & ? & ? & ?). exists a.
    rewrite <- E. auto.
  - exists 0. pose proof N_nonneg. rewrite T0_val, H_val.
    repeat split; try lra.
  - intros q acc (a & -> & ? & ? & ?) Hq. exists a.
    repeat split; try lra.
  - intros q acc [c| | |] (a & -> & ? & ? & ?) Hq Hc'; try contradiction.
    destruct Hc' as [Hc0 Hc1].
    cbn [JS.add JS.mul]. eexists. split; [reflexivity|].
    rewrite !Qred_correct. repeat split; try lra.
  - exists a. split; [exact Hr|]. rewrite T0_val, H_val in *.
    split; lra.
Qed.

End PixelFacts.

(* ===================================================================== *)
(** ** The Normalizer *)
(* ===================================================================== *)

Section ScanFacts.

Import NumFacts.
Local Open Scope Q_scope.

Lemma fold_left_concat (A B : Type) (f : A -> B -> A) (ls : list (list B)) :
  forall a, fold_left f (concat ls) a
            = fold_left (fun a l => fold_left f l a) ls a.
Proof.
  induction ls as [|l ls IH]; intro a; simpl; [reflexivity|].
  rewrite fold_left_app. apply IH.
Qed.

(** The first pass is one scan of the pixels. *)
Lemma scanProjections_pixels (ps : list Projection) :
  scanProjections ps = fold_left scanValue (pixels ps) (JS.PInf, JS.NInf).
Proof.
  unfold scanProjections, pixels.
  generalize (JS.PInf, JS.NInf).
  induction ps as [|p ps IH]; intro acc; simpl; [reflexivity|].
  rewrite IH, fold_left_app. f_equal. symmetry. apply fold_left_concat.
Qed.

(** Without [NaN] among the pixels the scan is [Math.min] and [Math.max]
    folded over them. *)
Lemma scan_min_max (vs : list num) :
  forall a b, a <> JS.NaN -> b <> JS.NaN ->
    Forall (fun v => v <> JS.NaN) vs ->
    fold_left scanValue vs (a, b)
    = (fold_left JS.min vs a, fold_left JS.max vs b).
Proof.
  induction vs as [|v vs IH]; intros a b Ha Hb Hvs; [reflexivity|].
  inversion Hvs as [|? ? Hv Hvs']; subst.
  cbn [fold_left]. unfold scanValue at 2.
  assert (Emin : (if JS.ltb v a then v else a) = JS.min a v)
    by (destruct a, v; try reflexivity; congruence).
  assert (Emax : (if JS.gtb v b then v else b) = JS.max b v)
    by (destruct b, v; try reflexivity; congruence).
  rewrite Emin, Emax. apply IH; auto.
  - destruct a, v; simpl; try congruence; destruct (Qle_bool _ _); simpl; congruence.
  - destruct b, v; simpl; try congruence; destruct (Qle_bool _ _); simpl; congruence.
Qed.

Lemma scanProjections_min_max (ps : list Projection) :
  Forall (fun v => v <> JS.NaN) (pixels ps) ->
  scanProjections ps = (JS.min_list (pixels ps), JS.max_list (pixels ps)).
Proof.
  intro H. rewrite scanProjections_pixels.
  apply scan_min_max; auto; discriminate.
Qed.

End ScanFacts.

Section ExtremeFacts.

Import NumFacts.
Local Open Scope Q_scope.

Lemma finite_not_NaN (vs : list num) :
  Forall JS.finite vs -> Forall (fun v => v <> JS.NaN) vs.
Proof.
  apply Forall_impl. intros [q| | |]; simpl; try tauto. discriminate.
Qed.

(** [Math.min] folded over finite values from a finite start: the least of
    them all. *)
Lemma fold_min_fin (vs : list num) :
  forall a0, Forall JS.finite vs ->
    exists a, fold_left JS.min vs (Fin a0) = Fin a /\ a <= a0 /\
              (Fin a = Fin a0 \/ In (Fin a) vs) /\
              Forall (fun v => exists q, v = Fin q /\ a <= q) vs.
Proof.
  induction vs as [|v vs IH]; intros a0 Hf.
  - exists a0. repeat split; auto. lra.
  - inversion Hf as [|? ? Hv Hf']; subst.
    destruct v as [q| | |]; try contradiction.
    cbn [fold_left]. unfold JS.min at 2.
    destruct (JS.ltb (Fin q) (Fin a0)) eqn:E.
    + apply ltb_Fin in E.
      destruct (IH q Hf') as (a & -> & Hle & Hin & Hall).
      exists a. repeat split; auto; try lra.
      * right. destruct Hin as [->|Hin]; [left; reflexivity | right; exact Hin].
      * constructor; [exists q; split; auto|exact Hall].
    + apply ltb_Fin_false in E.
      destruct (IH a0 Hf') as (a & -> & Hle & Hin & Hall).
      exists a. repeat split; auto.
      * destruct Hin as [->|Hin]; [left; reflexivity | right; right; exact Hin].
      * constructor; [exists q; split; [reflexivity|lra]|exact Hall].
Qed.

Lemma fold_max_fin (vs : list num) :
  forall b0, Forall JS.finite vs ->
    exists b, fold_left JS.max vs (Fin b0) = Fin b /\ b0 <= b /\
              (Fin b = Fin b0 \/ In (Fin b) vs) /\
              Forall (fun v => exists q, v = Fin q /\ q <= b) vs.
Proof.
  induction vs as [|v vs IH]; intros b0 Hf.
  - exists b0. repeat split; auto. lra.
  - inversion Hf as [|? ? Hv Hf']; subst.
    destruct v as [q| | |]; try contradiction.
    cbn [fold_left]. unfold JS.max at 2.
    destruct (JS.ltb (Fin b0) (Fin q)) eqn:E.
    + apply ltb_Fin in E.
      destruct (IH q Hf') as (b & -> & Hle & Hin & Hall).
      exists b. repeat split; auto; try lra.
      * right. destruct Hin as [->|Hin]; [left; reflexivity | right; exact Hin].
      * constructor; [exists q; split; auto|exact Hall].
    + apply ltb_Fin_false in E.
      destruct (IH b0 Hf') as (b & -> & Hle & Hin & Hall).
      exists b. repeat split; auto.
      * destruct Hin as [->|Hin]; [left; reflexivity | right; right; exact Hin].
      * constructor; [exists q; split; [reflexivity|lra]|exact Hall].
Qed.

(** The global minimum and maximum of a non-empty finite pixel list are
    pixels, and they bound every pixel. *)
Lemma min_list_fin (vs : list num) :
  Forall JS.finite vs -> vs <> [] ->
  exists a, JS.min_list vs = Fin a /\ In (Fin a) vs /\
            Forall (fun v => exists q, v = Fin q /\ a <= q) vs.
Proof.
  intros Hf Hne. destruct vs as [|v vs]; [congruence|].
  inversion Hf as [|? ? Hv Hf']; subst.
  destruct v as [q| | |]; try contradiction.
  unfold JS.min_list. cbn [fold_left].
  change (JS.min JS.PInf (Fin q)) with (Fin q).
  destruct (fold_min_fin q Hf') as (a & -> & Hle & Hin & Hall).
  exists a. repeat split.
  - destruct Hin as [->|Hin]; [left; reflexivity | right; exact Hin].
  - constructor; [exists q; split; auto|exact Hall].
Qed.

Lemma max_list_fin (vs : list num) :
  Forall JS.finite vs -> vs <> [] ->
  exists b, JS.max_list vs = Fin b /\ In (Fin b) vs /\
            Forall (fun v => exists q, v = Fin q /\ q <= b) vs.
Proof.
  intros Hf Hne. destruct vs as [|v vs]; [congruence|].
  inversion Hf as [|? ? Hv Hf']; subst.
  destruct v as [q| | |]; try contradiction.
  unfold JS.max_list. cbn [fold_left].
  change (JS.max JS.NInf (Fin q)) with (Fin q).
  destruct (fold_max_fin q Hf') as (b & -> & Hle & Hin & Hall).
  exists b. repeat split.
  - destruct Hin as [->|Hin]; [left; reflexivity | right; exact Hin].
  - constructor; [exists q; split; auto|exact Hall].
Qed.

(** The pixels after the second pass. *)
Lemma pixels_normalize (self : CALProjector) :
  pixels (projections (normalizeProjections self))
  = let (globalMin, globalMax) := scanProjections (projections self) in
    map (rescale globalMin (JS.or_else (JS.sub globalMax globalMin) (Fin 1)))
      (pixels (projections self)).
Proof.
  unfold normalizeProjections.
  destruct (scanProjections (projections self)) as [mn mx].
  cbn [projections set_projections]. unfold pixels.
  induction (projections self) as [|p ps IH]; [reflexivity|].
  cbn [map concat data]. rewrite map_app, IH. f_equal.
  rewrite concat_map. reflexivity.
Qed.

Lemma floor_unique (x : Q) (z : Z) :
  inject_Z z <= x -> x < inject_Z z + 1 -> Qfloor x = z.
Proof.
  intros H0 H1.
  pose proof (Qfloor_le x) as F0. pose proof (Qlt_floor x) as F1.
  rewrite inject_Z_plus in F1. change (inject_Z 1) with 1 in F1.
  assert (A : (Qfloor x < z + 1)%Z).
  { rewrite Zlt_Qlt, inject_Z_plus. change (inject_Z 1) with 1. lra. }
  assert (B : (z < Qfloor x + 1)%Z).
  { rewrite Zlt_Qlt, inject_Z_plus. change (inject_Z 1) with 1. lra. }
  lia.
Qed.

(** The rescaled value of a finite pixel for a finite non-zero range. *)
Lemma rescale_Fin (a r v : Q) :
  ~ r == 0 ->
  rescale (Fin a) (Fin r) (Fin v)
  = JS.of_Z (Qfloor ((v - a) / r * 255 + (1 # 2))).
Proof.
  intro Hr. unfold rescale. cbn [JS.sub JS.div].
  destruct (Qeq_bool r 0) eqn:E; [apply Qeq_bool_iff in E; contradiction|].
  cbn [JS.mul JS.round]. f_equal. apply Qfloor_comp.
  rewrite !Qred_correct. reflexivity.
Qed.

Lemma rescale_range (a r v : Q) :
  0 < r -> a <= v -> v <= a + r ->
  JS.within 0 255 (rescale (Fin a) (Fin r) (Fin v)).
Proof.
  intros Hr H0 H1. rewrite rescale_Fin by lra.
  set (x := (v - a) / r * 255).
  assert (Hx0 : 0 <= x).
  { unfold x. apply Qmult_le_0_compat; [|lra].
    apply Qle_shift_div_l; lra. }
  assert (Hx1 : x <= 255).
  { unfold x.
    assert ((v - a) / r <= 1) by (apply Qle_shift_div_r; lra). lra. }
  unfold JS.of_Z, JS.within.
  assert (L : (0 <= Qfloor (x + (1 # 2)))%Z).
  { change 0%Z with (Qfloor (1 # 2)). apply Qfloor_resp_le. lra. }
  assert (U : (Qfloor (x + (1 # 2)) <= 255)%Z).
  { change 255%Z with (Qfloor (255 + (1 # 2))). apply Qfloor_resp_le. lra. }
  rewrite Zle_Qle in L, U. split; assumption.
Qed.

Lemma rescale_low (a r v : Q) :
  ~ r == 0 -> v == a -> rescale (Fin a) (Fin r) (Fin v) = Fin 0.
Proof.
  intros Hr Hv. rewrite rescale_Fin by assumption.
  rewrite (floor_unique (z := 0)); [reflexivity| |].
  - rewrite Hv. setoid_replace ((a - a) / r * 255) with 0 by (field; auto).
    change (inject_Z 0) with 0. lra.
  - rewrite Hv. setoid_replace ((a - a) / r * 255) with 0 by (field; auto).
    change (inject_Z 0) with 0. lra.
Qed.

Lemma rescale_high (a r v : Q) :
  ~ r == 0 -> v == a + r -> rescale (Fin a) (Fin r) (Fin v) = Fin 255.
Proof.
  intros Hr Hv. rewrite rescale_Fin by assumption.
  rewrite (floor_unique (z := 255)); [reflexivity| |].
  - rewrite Hv. setoid_replace ((a + r - a) / r * 255) with 255 by (field; auto).
    change (inject_Z 255) with 255. lra.
  - rewrite Hv. setoid_replace ((a + r - a) / r * 255) with 255 by (field; auto).
    change (inject_Z 255) with 255. lra.
Qed.

End ExtremeFacts.

Section NormalizerFacts.

Import NumFacts.
Local Open Scope Q_scope.

(** The Normalizer on finite pixels: the bounds [a] and [b] it finds are
    pixels, every pixel lies between them, and every pixel is rescaled
    with [a] and the range of [b - a]. *)
Lemma normalize_fin (self : CALProjector) :
  Forall JS.finite (pixels (projections self)) ->
  pixels (projections self) <> [] ->
  exists a b,
    scanProjections (projections self) = (Fin a, Fin b) /\
    In (Fin a) (pixels (projections self)) /\
    In (Fin b) (pixels (projections self)) /\
    Forall (fun v => exists q, v = Fin q /\ a <= q /\ q <= b)
      (pixels (projections self)) /\
    pixels (projections (normalizeProjections self))
    = map (rescale (Fin a) (JS.or_else (Fin (Qred (b - a))) (Fin 1)))
        (pixels (projections self)).
Proof.
  intros Hf Hne.
  destruct (min_list_fin Hf Hne) as (a & Ea & Ia & La).
  destruct (max_list_fin Hf Hne) as (b & Eb & Ib & Ub).
  exists a, b.
  assert (Es : scanProjections (projections self) = (Fin a, Fin b)).
  { rewrite scanProjections_min_max by (apply finite_not_NaN; exact Hf).
    rewrite Ea, Eb. reflexivity. }
  repeat split; auto.
  - rewrite Forall_forall in *. intros v Hv.
    destruct (La v Hv) as (q & -> & Hq).
    destruct (Ub _ Hv) as (q' & Eq & Hq'). injection Eq as <-.
    exists q. auto.
  - rewrite pixels_normalize, Es. reflexivity.
Qed.

Lemma range_pos (a b : Q) :
  a < b ->
  JS.or_else (Fin (Qred (b - a))) (Fin 1) = Fin (Qred (b - a)).
Proof.
  intro H. unfold JS.or_else, JS.truthy.
  destruct (Qeq_bool (Qred (b - a)) 0) eqn:E; [|reflexivity].
  apply Qeq_bool_iff in E. rewrite Qred_correct in E. lra.
Qed.

Lemma range_zero (a b : Q) :
  a == b ->
  JS.or_else (Fin (Qred (b - a))) (Fin 1) = Fin 1.
Proof.
  intro H. unfold JS.or_else, JS.truthy.
  rewrite (Qeq_bool_refl' (p := Qred (b - a)) (q := 0)); [reflexivity|].
  rewrite Qred_correct. lra.
Qed.

End NormalizerFacts.

(** C2 (as amended): the Normalizer is the two-pass rescale of the
    specification with the range [(max - min) || 1]: the global minimum and
    maximum over every pixel of every projection, the range [max - min]
    unless that is zero, then [1], and every pixel replaced by
    [round((value - min) / range * 255)]; for pixels without [NaN]. *)
Theorem normalizer_refines_or_range (self : CALProjector) :
  Forall (fun v => v <> JS.NaN) (pixels (projections self)) ->
  projections (normalizeProjections self)
  = normalizer rangeOr (projections self).
Proof.
  intro H. unfold normalizeProjections, normalizer.
  rewrite (scanProjections_min_max _ H). reflexivity.
Qed.

(** C3: after the Normalizer, a non-empty finite pixel set whose values are
    not all equal has a pixel 0, a pixel 255 and every pixel in [0, 255];
    when all values are equal every pixel becomes 0. *)
Theorem normalize_extremes (self : CALProjector) :
  Forall JS.finite (pixels (projections self)) ->
  pixels (projections self) <> [] ->
  let raw := pixels (projections self) in
  let out := pixels (projections (normalizeProjections self)) in
  ((exists v w, In v raw /\ In w raw /\ ~ same v w) ->
     In (Fin 0) out /\ In (Fin 255) out /\ Forall (JS.within 0 255) out) /\
  ((forall v w, In v raw -> In w raw -> same v w) ->
     Forall (fun v => v = Fin 0) out).
Proof.
  intros Hf Hne raw out.
  destruct (normalize_fin self Hf Hne) as (a & b & _ & Ia & Ib & Hall & Eout).
  fold raw in Ia, Ib, Hall, Eout. fold out in Eout.
  rewrite Forall_forall in Hall.
  assert (Hab : (a <= b)%Q).
  { destruct (Hall _ Ia) as (q & Eq & H0 & H1). injection Eq as <-. exact H1. }
  split.
  - intros (v & w & Hv & Hw & Hneq).
    destruct (Hall _ Hv) as (p & -> & Hp0 & Hp1).
    destruct (Hall _ Hw) as (q & -> & Hq0 & Hq1).
    simpl in Hneq.
    assert (Hlt : (a < b)%Q).
    { apply Qnot_le_lt. intro Hle. apply Hneq. lra. }
    rewrite (range_pos Hlt) in Eout.
    assert (Hr : ~ (Qred (b - a) == 0)%Q) by (rewrite Qred_correct; lra).
    rewrite Eout. repeat split.
    + rewrite <- (rescale_low (a := a) (r := Qred (b - a)) (v := a) Hr)
        by reflexivity.
      apply in_map. exact Ia.
    + rewrite <- (rescale_high (a := a) (r := Qred (b - a)) (v := b) Hr)
        by (rewrite Qred_correct; ring).
      apply in_map. exact Ib.
    + apply Forall_forall. intros x Hx.
      apply in_map_iff in Hx. destruct Hx as (y & <- & Hy).
      destruct (Hall _ Hy) as (q' & -> & H0 & H1).
      apply rescale_range; rewrite ?Qred_correct; lra.
  - intros Heq.
    pose proof (Heq _ _ Ia Ib) as Eab. simpl in Eab.
    rewrite (range_zero Eab) in Eout. rewrite Eout.
    apply Forall_forall. intros x Hx.
    apply in_map_iff in Hx. destruct Hx as (y & <- & Hy).
    destruct (Hall _ Hy) as (q' & -> & H0 & H1).
    apply rescale_low; [discriminate|]. 
    pose proof (Heq _ _ Hy Ia) as E. simpl in E. exact E.
Qed.

(* ===================================================================== *)
(** ** The pipeline *)
(* ===================================================================== *)

Section PipelineFacts.

Lemma traverse_Forall2 (A B : Type) (f : A -> option B) (xs : list A) :
  forall ys, traverse f xs = Some ys ->
             Forall2 (fun x y => f x = Some y) xs ys.
Proof.
  induction xs as [|x xs IH]; intros ys H; simpl in H.
  - injection H as <-. constructor.
  - destruct (f x) as [y|] eqn:E; [|discriminate].
    destruct (traverse f xs) as [ys'|]; [|discriminate].
    injection H as <-. constructor; auto.
Qed.

Lemma traverse_total (A B : Type) (f : A -> option B) (xs : list A) :
  (forall x, In x xs -> exists y, f x = Some y) ->
  exists ys, traverse f xs = Some ys.
Proof.
  induction xs as [|x xs IH]; intro H; simpl.
  - eauto.
  - destruct (H x (or_introl eq_refl)) as (y & ->).
    destruct IH as (ys & ->); [intros; apply H; right; assumption|].
    eauto.
Qed.

Lemma Forall2_nth (A B : Type) (R : A -> B -> Prop) (xs : list A)
    (ys : list B) :
  Forall2 R xs ys ->
  forall i x, nth_error xs i = Some x ->
              exists y, nth_error ys i = Some y /\ R x y.
Proof.
  induction 1 as [|x0 y0 xs ys HR HF IH]; intros i x Hi.
  - destruct i; discriminate.
  - destruct i as [|i]; simpl in *.
    + injection Hi as <-. eauto.
    + eauto.
Qed.

Lemma nth_error_seq0 (len i : nat) :
  (i < len)%nat -> nth_error (seq 0 len) i = Some i.
Proof.
  intro H. rewrite nth_error_nth' with (d := O) by (rewrite length_seq; lia).
  rewrite seq_nth by lia. reflexivity.
Qed.

Lemma length_concat_const (A : Type) (k : nat) (ls : list (list A)) :
  Forall (fun l => length l = k) ls ->
  length (concat ls) = (length ls * k)%nat.
Proof.
  induction 1 as [|l ls Hl _ IH]; simpl; [reflexivity|].
  rewrite length_app, IH, Hl. reflexivity.
Qed.

Lemma Forall_concat_intro (A : Type) (P : A -> Prop) (ls : list (list A)) :
  Forall (Forall P) ls -> Forall P (concat ls).
Proof.
  induction 1; simpl; [constructor|]. apply Forall_app. auto.
Qed.

(** A cubic grid flattens to a well-formed kernel input. *)
Lemma cubic_input (n : nat) (volume : VoxelVolume) :
  cubic n volume -> wfInput n (inputOf n volume).
Proof.
  intros [Hlen Hall]. unfold wfInput, inputOf. cbn [sizeX sizeY sizeZ value].
  repeat split. unfold flat2.
  rewrite (length_concat_const (k := n)).
  - rewrite (length_concat_const (k := n)).
    + rewrite Hlen. reflexivity.
    + eapply Forall_impl; [|exact Hall]. intros l [H _]. exact H.
  - apply Forall_concat_intro.
    eapply Forall_impl; [|exact Hall]. intros l [_ H]. exact H.
Qed.

Variables Math_cos Math_sin : num -> num.

(** The image of the kernel over a well-formed input: it exists, it is
    [out]-by-[out], and its pixel [data[v][u]] is the kernel function at
    thread [(u, v)]. *)
Lemma radonKernel_image (n out : nat) (volume : Input) (theta : num) :
  wfInput n volume ->
  exists image,
    radonKernel Math_cos Math_sin out volume theta n = Some image /\
    square out image /\
    forall u v, (u < out)%nat -> (v < out)%nat ->
      exists row, nth_error image v = Some row /\
        exists r, nth_error row u = Some r /\
          radonPixel Math_cos Math_sin volume theta n u v = Some r.
Proof.
  intro Hwf. unfold radonKernel.
  destruct (traverse_total
              (fun v => traverse
                 (fun u => radonPixel Math_cos Math_sin volume theta n u v)
                 (seq 0 out)) (seq 0 out)) as (image & E).
  { intros v _. apply traverse_total. intros u _.
    apply radonPixel_total. exact Hwf. }
  exists image. split; [exact E|].
  apply traverse_Forall2 in E.
  pose proof (Forall2_length E) as Hlen. rewrite length_seq in Hlen.
  split; [split; [auto|]|].
  - apply Forall_forall. intros row Hrow.
    apply In_nth_error in Hrow. destruct Hrow as (v & Hv).
    assert (Hv' : (v < out)%nat).
    { rewrite Hlen. apply nth_error_Some. congruence. }
    destruct (Forall2_nth E v (nth_error_seq0 Hv')) as (row' & Er & Et).
    rewrite Hv in Er. injection Er as <-.
    apply traverse_Forall2, Forall2_length in Et.
    rewrite length_seq in Et. auto.
  - intros u v Hu Hv.
    destruct (Forall2_nth E v (nth_error_seq0 Hv)) as (row & Er & Et).
    exists row. split; [exact Er|].
    apply traverse_Forall2 in Et.
    destruct (Forall2_nth Et u (nth_error_seq0 Hu)) as (r & Ep & Eq).
    eauto.
Qed.

Lemma set_projections_fields (self : CALProjector) (ps : list Projection) :
  volumeSize (set_projections self ps) = volumeSize self /\
  numProjections (set_projections self ps) = numProjections self /\
  kernelOutput (set_projections self ps) = kernelOutput self /\
  projections (set_projections self ps) = ps.
Proof. repeat split. Qed.

(** The loop of [generateProjections] pushes the raw projections in the
    order of the indices. *)
Lemma for_each_generate (inputVolume : Input) (indices : list nat) :
  forall self,
    for_each (generateStep Math_cos Math_sin inputVolume) indices self
    = (raw <- traverse (rawProjection Math_cos Math_sin self inputVolume)
                indices ;;
       Some (set_projections self (projections self ++ raw))).
Proof.
  induction indices as [|i indices IH]; intro self; cbn [for_each traverse].
  - rewrite app_nil_r. destruct self; reflexivity.
  - unfold generateStep at 1, rawProjection at 1.
    destruct (radonKernel Math_cos Math_sin (kernelOutput self) inputVolume
                (angleOf i (numProjections self)) (volumeSize self))
      as [image|]; [|reflexivity].
    rewrite IH.
    unfold rawProjection. cbn [set_projections volumeSize numProjections
                                 kernelOutput projections].
    destruct (traverse _ indices) as [raw|]; [|reflexivity].
    rewrite <- app_assoc. reflexivity.
Qed.

(** [generateProjections] is the Normalizer over the raw projections. *)
Lemma generateProjections_raw (self : CALProjector) (volume : VoxelVolume) :
  generateProjections Math_cos Math_sin self volume
  = (raw <- rawProjections Math_cos Math_sin self volume ;;
     let self' := normalizeProjections (set_projections self raw) in
     Some (self', projections self')).
Proof.
  unfold generateProjections. rewrite for_each_generate.
  unfold rawProjections, inputOf, rawProjection.
  cbn [set_projections volumeSize numProjections kernelOutput projections].
  destruct (traverse _ (seq 0 (numProjections self))) as [raw|];
    reflexivity.
Qed.

End PipelineFacts.

Section StepCount.

Import NumFacts.
Local Open Scope Q_scope.

Variable n : nat.
Local Abbreviation N := (sideQ n).
Local Abbreviation T0 := (marchStart n).
Local Abbreviation H := (marchEnd n).

(** The marching loop ends, after fewer than [2.8 * n + 1] steps. *)
Lemma marchSteps_bound :
  exists k, marchSteps n = Some k /\
            (1 # 2) * inject_Z (Z.of_nat k) < (14 # 10) * N + (1 # 2).
Proof.
  unfold marchSteps.
  change (JS.mul (JS.of_nat n) (Fin (7 # 10))) with (Fin H).
  change (JS.mul (JS.neg (JS.of_nat n)) (Fin (7 # 10))) with (Fin T0).
  destruct (@for_num_run nat
              (fun q k => (1 # 2) * inject_Z (Z.of_nat k) == q - T0 /\
                          q < H + (1 # 2))
              (1 # 2) H (fun _ k => Some (Datatypes.S k)))
    with (fuel := marchFuel n) (q := T0) (s := O)
    as (q & k & E & (Hk & Hq) & _).
  - reflexivity.
  - intros q q' k Eq [H1 H2]. rewrite <- Eq. auto.
  - intros q k [H1 H2] Hq. eexists. split; [reflexivity|].
    rewrite Nat2Z.inj_succ. unfold Z.succ. rewrite inject_Z_plus.
    change (inject_Z 1) with 1. split; lra.
  - pose proof (N_nonneg n). rewrite T0_val, H_val.
    change (inject_Z (Z.of_nat 0)) with 0. split; lra.
  - apply marchFuel_enough.
  - exists k. split; [exact E|]. rewrite T0_val, H_val in *. lra.
Qed.

Variable volume : Input.
Hypothesis Hwf : wfInput n volume.
Variables Math_cos Math_sin : num -> num.

(** Over cells of [[0, 1]] the sum is at most half the number of steps. *)
Lemma radonPixel_le_steps theta u v r k :
  Forall (JS.within 0 1) (value volume) ->
  radonPixel Math_cos Math_sin volume theta n u v = Some (Fin r) ->
  marchSteps n = Some k ->
  r <= (1 # 2) * inject_Z (Z.of_nat k).
Proof.
  intros Hc Hr Hk. unfold radonPixel in Hr. unfold marchSteps in Hk.
  set (R := fun (acc : num) (k : nat) =>
              exists a, acc = Fin a /\ a <= (1 # 2) * inject_Z (Z.of_nat k)).
  assert (Hbody : forall t s1 s2, R s1 s2 ->
            exists s1' s2',
              marchStep volume (JS.of_nat n)
                (Math_cos (JS.mul theta (JS.div Math_PI (Fin 180))))
                (Math_sin (JS.mul theta (JS.div Math_PI (Fin 180))))
                (JS.sub (JS.of_nat u) (JS.div (JS.of_nat n) (Fin 2)))
                (JS.sub (JS.of_nat v) (JS.div (JS.of_nat n) (Fin 2)))
                (JS.div (JS.of_nat n) (Fin 2)) t s1 = Some s1' /\
              (fun (_ : num) k => Some (Datatypes.S k)) t s2 = Some s2' /\
              R s1' s2').
  { intros t s1 s2 (a & -> & Ha).
    destruct (marchStep_spec Hwf (P := JS.within 0 1)
                (fun a b d => @blend_unit a b d) Hc
                (Math_cos (JS.mul theta (JS.div Math_PI (Fin 180))))
                (Math_sin (JS.mul theta (JS.div Math_PI (Fin 180))))
                (JS.sub (JS.of_nat u) (JS.div (JS.of_nat n) (Fin 2)))
                (JS.sub (JS.of_nat v) (JS.div (JS.of_nat n) (Fin 2)))
                (JS.div (JS.of_nat n) (Fin 2)) t (Fin a))
      as (acc' & E & [-> | (c & Hcc & ->)]).
    - exists (Fin a), (Datatypes.S s2). repeat split; auto.
      exists a. split; [reflexivity|].
      rewrite Nat2Z.inj_succ. unfold Z.succ. rewrite inject_Z_plus.
      change (inject_Z 1) with 1. lra.
    - destruct c as [c| | |]; try contradiction. destruct Hcc as [Hc0 Hc1].
      eexists; exists (Datatypes.S s2). repeat split; eauto.
      cbn [JS.add JS.mul]. eexists. split; [reflexivity|].
      rewrite !Qred_correct.
      rewrite Nat2Z.inj_succ. unfold Z.succ. rewrite inject_Z_plus.
      change (inject_Z 1) with 1. lra. }
  assert (HR0 : R (Fin 0) O).
  { exists 0. split; [reflexivity|].
    change (inject_Z (Z.of_nat 0)) with 0. lra. }
  destruct (@for_num_rel _ _ R _ _ _ _ Hbody _ _ _ _ _ HR0 Hr)
    as (k' & Ek & a & Ea & Hle).
  rewrite Hk in Ek. injection Ek as <-. injection Ea as <-. exact Hle.
Qed.

End StepCount.

(** C9: over an n-by-n-by-n volume with cells in [0, 1], at every angle
    and pixel, every interpolated sample lies in [0, 1], and the raw pixel
    value is non-negative and at most half the number of march steps,
    hence at most [1.4 * n + 0.5]. *)
Theorem radon_pixel_bounded (n : nat) (volume : VoxelVolume)
    (Math_cos Math_sin : num -> num) (theta : num) (u v : nat) :
  cubic n volume ->
  Forall (JS.within 0 1) (flat2 volume) ->
  (forall x y z, inside (JS.of_nat n) x y z = true ->
     exists c, interpolate (inputOf n volume) x y z = Some c /\
               JS.within 0 1 c) /\
  exists r k,
    radonPixel Math_cos Math_sin (inputOf n volume) theta n u v
    = Some (Fin r) /\
    marchSteps n = Some k /\
    0 <= r /\
    r <= (1 # 2) * inject_Z (Z.of_nat k) /\
    (1 # 2) * inject_Z (Z.of_nat k) <= (14 # 10) * sideQ n + (1 # 2).
Proof.
  intros Hcubic Hcells.
  pose proof (cubic_input Hcubic) as Hwf.
  split.
  - intros x y z Hin.
    destruct (inside_bounds _ _ _ _ Hin)
      as (qx & qy & qz & -> & -> & -> & Hx & Hy & Hz).
    apply (interpolate_spec Hwf (P := JS.within 0 1)
             (fun a b d => @blend_unit a b d) Hcells Hx Hy Hz).
  - destruct (radonPixel_bounds Hwf Math_cos Math_sin theta u v Hcells)
      as (r & Er & Hr0 & _).
    destruct (marchSteps_bound n) as (k & Ek & Hk).
    exists r, k. repeat split; auto.
    + eapply radonPixel_le_steps; eauto.
    + apply Qlt_le_weak. exact Hk.
Qed.

Section ZeroImage.

Lemma traverse_const (A B : Type) (f : A -> option B) (c : B) (xs : list A) :
  (forall x, In x xs -> f x = Some c) ->
  traverse f xs = Some (repeat c (length xs)).
Proof.
  induction xs as [|x xs IH]; intro H; simpl; [reflexivity|].
  rewrite (H x (or_introl eq_refl)), IH; [reflexivity|].
  intros; apply H; right; assumption.
Qed.

(** A sample outside the guard leaves the sum as it is, whatever the
    volume: no cell is read. *)
Lemma marchStep_outside (volume : Input)
    (size cosTheta sinTheta uCentered vCentered center t acc : num) :
  (let '(x, y, z) :=
     samplePosition cosTheta sinTheta uCentered vCentered center t in
   inside size x y z) = false ->
  marchStep volume size cosTheta sinTheta uCentered vCentered center t acc
  = Some acc.
Proof.
  unfold marchStep.
  destruct (samplePosition cosTheta sinTheta uCentered vCentered center t)
    as [[x y] z].
  intros ->. reflexivity.
Qed.

(** A read that succeeds is a read inside the grid. *)
Lemma read_in_bounds (volume : Input) (z y x c : num) :
  read volume z y x = Some c ->
  exists k j i,
    JS.index z = Some k /\ JS.index y = Some j /\ JS.index x = Some i /\
    (k < sizeZ volume)%nat /\ (j < sizeY volume)%nat /\
    (i < sizeX volume)%nat.
Proof.
  unfold read.
  destruct (JS.index z) as [k|]; [|discriminate].
  destruct (JS.index y) as [j|]; [|discriminate].
  destruct (JS.index x) as [i|]; [|discriminate].
  destruct (k <? sizeZ volume)%nat eqn:Ek; [|discriminate].
  destruct (j <? sizeY volume)%nat eqn:Ej; [|discriminate].
  destruct (i <? sizeX volume)%nat eqn:Ei; [|discriminate].
  intros _. exists k, j, i.
  apply Nat.ltb_lt in Ek, Ej, Ei. auto 10.
Qed.

End ZeroImage.

(** C6: a ray-march sample with a coordinate outside [0, N - 1) adds
    exactly 0 to the sum and reads nothing; on an N-by-N-by-N volume every
    read of the kernel is a read inside [0, N) on each axis, so the kernel
    function returns a value at every pixel and angle; and the projection
    of an all-zero volume is all zero, at every angle. *)
Theorem outside_samples_add_nothing (n : nat) (volume : VoxelVolume)
    (Math_cos Math_sin : num -> num) (theta : num) :
  cubic n volume ->
  (forall (any : Input) cosTheta sinTheta uCentered vCentered center t acc,
     (let '(x, y, z) :=
        samplePosition cosTheta sinTheta uCentered vCentered center t in
      inside (JS.of_nat n) x y z) = false ->
     marchStep any (JS.of_nat n) cosTheta sinTheta uCentered vCentered
       center t acc = Some acc) /\
  (forall z y x c, read (inputOf n volume) z y x = Some c ->
     exists k j i,
       JS.index z = Some k /\ JS.index y = Some j /\ JS.index x = Some i /\
       (k < n)%nat /\ (j < n)%nat /\ (i < n)%nat) /\
  (forall u v, exists r,
     radonPixel Math_cos Math_sin (inputOf n volume) theta n u v = Some r) /\
  (Forall (fun c => c = Fin 0) (flat2 volume) ->
   forall out,
     radonKernel Math_cos Math_sin out (inputOf n volume) theta n
     = Some (repeat (repeat (Fin 0) out) out)).
Proof.
  intro Hcubic. pose proof (cubic_input Hcubic) as Hwf.
  repeat split.
  - intros. apply marchStep_outside. assumption.
  - intros z y x c Hr. apply (read_in_bounds _ _ _ _ Hr).
  - intros u v. apply (radonPixel_total Hwf).
  - intros Hzero out. unfold radonKernel.
    replace (repeat (repeat (Fin 0) out) out)
      with (repeat (repeat (Fin 0) out) (length (seq 0 out)))
      by (rewrite length_seq; reflexivity).
    apply traverse_const. intros v _.
    replace (repeat (Fin 0) out)
      with (repeat (Fin 0) (length (seq 0 out)))
      by (rewrite length_seq; reflexivity).
    apply traverse_const. intros u _.
    apply (radonPixel_zero Hwf). exact Hzero.
Qed.

Section GenerateFacts.

Import NumFacts.
Local Open Scope Q_scope.

(** The second pass maps every projection to itself with every pixel
    rescaled. *)
Lemma normalize_map (self : CALProjector) :
  projections (normalizeProjections self)
  = map (fun p => mkProjection (angle p)
                    (map (map (rescaleOf (projections self))) (data p)))
      (projections self).
Proof.
  unfold normalizeProjections, rescaleOf.
  destruct (scanProjections (projections self)) as [mn mx]. reflexivity.
Qed.

Lemma normalize_other_fields (self : CALProjector) :
  volumeSize (normalizeProjections self) = volumeSize self /\
  numProjections (normalizeProjections self) = numProjections self /\
  kernelOutput (normalizeProjections self) = kernelOutput self.
Proof.
  unfold normalizeProjections.
  destruct (scanProjections (projections self)) as [mn mx].
  repeat split.
Qed.

Lemma sideQ_pos (m : nat) : (0 < m)%nat -> 0 < sideQ m.
Proof.
  intro H. unfold sideQ. change 0 with (inject_Z 0).
  rewrite <- Zlt_Qlt. lia.
Qed.

Lemma sideQ_lt (i j : nat) : (i < j)%nat -> sideQ i < sideQ j.
Proof. intro H. unfold sideQ. rewrite <- Zlt_Qlt. lia. Qed.

(** The angles of the runs the page offers, evaluated in binary64. *)
Lemma angles_checked : forallb anglesChecked offeredCounts = true.
Proof. vm_compute. reflexivity. Qed.

Lemma offered_pos (m : nat) : offered m -> (0 < m)%nat.
Proof.
  unfold offered, offeredCounts. intro H. apply in_map_iff in H.
  destruct H as (k & <- & Hk). apply in_seq in Hk. lia.
Qed.

(** The value of a double from its bits. *)
Lemma decode_to_num (f : PrimFloat.float) (m e : Z) :
  Double.decode f = Some (m, e) ->
  Double.to_num f = Fin (Qred (inject_Z m * 2 ^ e)).
Proof.
  unfold Double.decode, Double.to_num.
  destruct (FloatOps.Prim2SF f) as [s|s| |s m0 e0]; try discriminate;
    intro H; injection H as <- <-; reflexivity.
Qed.

Lemma pow2_pos (s : Z) : (0 <= s)%Z -> 0 < inject_Z (2 ^ s).
Proof.
  intro Hs. change 0 with (inject_Z 0). rewrite <- Zlt_Qlt.
  apply Z.pow_pos_nonneg; lia.
Qed.

(** [m * 2^(-s)] is the quotient [m / 2^s]. *)
Lemma bits_value (m s : Z) :
  (0 <= s)%Z -> inject_Z m * 2 ^ (- s) == inject_Z m / inject_Z (2 ^ s).
Proof.
  intro Hs. rewrite Qpower_opp. unfold Qdiv.
  rewrite (Zpower_Qpower 2 s Hs). reflexivity.
Qed.

Lemma near_fraction (X N M P : Q) :
  0 < N -> 0 < P ->
  (X * 4503599627370496 + - X) * P <= N * M * 4503599627370496 ->
  N * M * 4503599627370496 <= (X * 4503599627370496 + X) * P ->
  X / N * (1 - / 4503599627370496) <= M / P /\
  M / P <= X / N * (1 + / 4503599627370496).
Proof.
  intros HN HP L U.
  setoid_replace ((X * 4503599627370496 + - X) * P)
    with (4503599627370496 * (X * P) - X * P) in L by ring.
  setoid_replace ((X * 4503599627370496 + X) * P)
    with (4503599627370496 * (X * P) + X * P) in U by ring.
  setoid_replace (N * M * 4503599627370496)
    with (4503599627370496 * (M * N)) in L by ring.
  setoid_replace (N * M * 4503599627370496)
    with (4503599627370496 * (M * N)) in U by ring.
  setoid_replace (/ 4503599627370496) with (1 # 4503599627370496)
    by reflexivity.
  split.
  - apply Qle_shift_div_l; [exact HP|].
    setoid_replace (X / N * (1 - (1 # 4503599627370496)) * P)
      with (X * P * (1 - (1 # 4503599627370496)) / N) by (field; lra).
    apply Qle_shift_div_r; [exact HN|].
    generalize dependent (X * P). generalize dependent (M * N).
    intros B A L U. lra.
  - apply Qle_shift_div_r; [exact HP|].
    setoid_replace (X / N * (1 + (1 # 4503599627370496)) * P)
      with (X * P * (1 + (1 # 4503599627370496)) / N) by (field; lra).
    apply Qle_shift_div_l; [exact HN|].
    generalize dependent (X * P). generalize dependent (M * N).
    intros B A L U. lra.
Qed.

Lemma nearBits_near (x n m s : Z) :
  (0 < n)%Z -> (0 <= s)%Z ->
  nearBits x n m s = true ->
  near (Fin (Qred (inject_Z m * 2 ^ (- s)))) (inject_Z x / inject_Z n).
Proof.
  intros Hn Hs H. unfold nearBits in H. cbv zeta in H.
  apply andb_prop in H. destruct H as [L U].
  apply Z.leb_le in L, U.
  rewrite !Z.shiftl_mul_pow2 in L, U by lia.
  rewrite Zle_Qle in L, U. unfold Z.sub in L.
  rewrite !inject_Z_mult, inject_Z_plus, inject_Z_opp, inject_Z_mult in L.
  rewrite !inject_Z_mult, inject_Z_plus, inject_Z_mult in U.
  change (inject_Z (2 ^ 52)) with 4503599627370496 in L, U.
  assert (HN : 0 < inject_Z n)
    by (change 0 with (inject_Z 0); rewrite <- Zlt_Qlt; exact Hn).
  cbn [near]. rewrite Qred_correct, (bits_value m Hs).
  unfold epsilon. change (1 # 2 ^ 52) with (/ 4503599627370496).
  apply near_fraction; [exact HN | apply pow2_pos; exact Hs | exact L
                       | exact U].
Qed.

Lemma belowBits_lt (m s m' s' : Z) :
  (0 <= s)%Z -> (0 <= s')%Z ->
  belowBits m s m' s' = true ->
  JS.ltb (Fin (Qred (inject_Z m * 2 ^ (- s))))
    (Fin (Qred (inject_Z m' * 2 ^ (- s')))) = true.
Proof.
  intros Hs Hs' H. unfold belowBits in H. apply Z.ltb_lt in H.
  rewrite !Z.shiftl_mul_pow2 in H by lia.
  rewrite Zlt_Qlt, !inject_Z_mult in H.
  pose proof (pow2_pos Hs) as Hp. pose proof (pow2_pos Hs') as Hp'.
  apply ltb_Fin. rewrite !Qred_correct, (bits_value m Hs),
    (bits_value m' Hs').
  apply Qlt_shift_div_l; [exact Hp'|].
  setoid_replace (inject_Z m / inject_Z (2 ^ s) * inject_Z (2 ^ s'))
    with (inject_Z m * inject_Z (2 ^ s') / inject_Z (2 ^ s))
    by (field; lra).
  apply Qlt_shift_div_r; [exact Hp|]. exact H.
Qed.

(** What the check of an angle says of [angleOf]. *)
Lemma angleChecked_sound (n i : nat) :
  (0 < n)%nat -> angleChecked n i = true ->
  near (angleOf i n) (sideQ i / sideQ n * 360) /\
  JS.ltb (angleOf i n) (angleOf (S i) n) = true.
Proof.
  intros Hn H. unfold angleChecked in H. unfold angleOf.
  destruct (Double.decode (Double.angle (Double.of_nat i) (Double.of_nat n)))
    as [[m e]|] eqn:D; [|discriminate].
  destruct (Double.decode
              (Double.angle (Double.of_nat (S i)) (Double.of_nat n)))
    as [[m' e']|] eqn:D'; [|discriminate].
  repeat (apply andb_prop in H; destruct H as [H ?]).
  apply Z.leb_le in H, H2.
  rewrite (decode_to_num _ D), (decode_to_num _ D').
  replace e with (- - e)%Z by lia. replace e' with (- - e')%Z by lia.
  split.
  - assert (Hnear := @nearBits_near (360 * Z.of_nat i) (Z.of_nat n) m (- e)
                       ltac:(lia) ltac:(lia) H1).
    cbn [near] in *. unfold sideQ.
    setoid_replace (inject_Z (Z.of_nat i) / inject_Z (Z.of_nat n) * 360)
      with (inject_Z (360 * Z.of_nat i) / inject_Z (Z.of_nat n));
      [exact Hnear|].
    rewrite inject_Z_mult. change (inject_Z 360) with 360. field.
    change 0 with (inject_Z 0). intro E.
    apply (proj1 (inject_Z_injective _ _)) in E. lia.
  - apply belowBits_lt; [lia | lia | exact H0].
Qed.

Lemma isZero_zero (a : num) : isZero a = true -> a = Fin 0.
Proof.
  destruct a as [[[| |] [| |]]| | |]; try discriminate. reflexivity.
Qed.

Lemma angles_of_run (m : nat) :
  offered m ->
  angleOf 0 m = Fin 0 /\
  forall i, (i < m)%nat ->
    near (angleOf i m) (sideQ i / sideQ m * 360) /\
    ((S i < m)%nat -> JS.ltb (angleOf i m) (angleOf (S i) m) = true).
Proof.
  intro Hm. pose proof angles_checked as H.
  rewrite forallb_forall in H. pose proof (offered_pos Hm) as Hpos.
  pose proof (H m Hm) as Hin. unfold anglesChecked in Hin.
  apply andb_prop in Hin. destruct Hin as [H0 Hall].
  split; [apply isZero_zero; exact H0|].
  intros i Hi. rewrite forallb_forall in Hall.
  assert (Hi' : In i (seq 0 m)) by (apply in_seq; lia).
  apply Hall in Hi'.
  destruct (@angleChecked_sound m i ltac:(lia) Hi') as [Hn Hg].
  split; [exact Hn | intros _; exact Hg].
Qed.

(** The angle of every projection is close to [i / m * 360]. *)
Lemma angleOf_near (i m : nat) :
  (i < m)%nat -> offered m ->
  near (angleOf i m) (sideQ i / sideQ m * 360).
Proof.
  intros Hi Hm. destruct (angles_of_run Hm) as [_ H]. apply H, Hi.
Qed.

Lemma angleOf_fin (i m : nat) :
  (i < m)%nat -> offered m -> exists q, angleOf i m = Fin q.
Proof.
  intros Hi Hm. pose proof (angleOf_near Hi Hm) as H.
  destruct (angleOf i m) as [q| | |]; try contradiction. eauto.
Qed.

(** The angles grow with the index, and the first is zero. *)
Lemma angleOf_lt (i j m : nat) :
  (i < j)%nat -> (j < m)%nat -> offered m ->
  JS.ltb (angleOf i m) (angleOf j m) = true.
Proof.
  intros Hij Hj Hm.
  destruct (angles_of_run Hm) as [_ H].
  induction j as [|j IH]; [lia|].
  destruct (H j ltac:(lia)) as [_ Hstep]. specialize (Hstep Hj).
  destruct (Nat.eq_dec i j) as [->|Hne]; [exact Hstep|].
  assert (Hlt : JS.ltb (angleOf i m) (angleOf j m) = true)
    by (apply IH; lia).
  destruct (@angleOf_fin i m ltac:(lia) Hm) as (a & Ea).
  destruct (@angleOf_fin j m ltac:(lia) Hm) as (b & Eb).
  destruct (@angleOf_fin (S j) m Hj Hm) as (c & Ec).
  rewrite Ea, Eb in Hlt. rewrite Eb, Ec in Hstep. rewrite Ea, Ec.
  apply ltb_Fin in Hlt. apply ltb_Fin in Hstep. apply ltb_Fin. lra.
Qed.

Lemma angleOf_first (m : nat) : offered m -> angleOf 0 m = Fin 0.
Proof. intro Hm. apply (angles_of_run Hm). Qed.

(** The four angles of a run of four projections are finite. *)
Lemma angleOf_quadrants (i : nat) :
  (i < 4)%nat -> exists q, angleOf i 4 = Fin q.
Proof.
  intro Hi. do 4 (destruct i as [|i]; [vm_compute; eauto|]). lia.
Qed.

Variables Math_cos Math_sin : num -> num.

(** Over a cubic volume every raw projection is produced: projection [i]
    is the image of the kernel at the angle of [i]. *)
Lemma rawProjections_spec (self : CALProjector) (volume : VoxelVolume) :
  cubic (volumeSize self) volume ->
  exists raw,
    rawProjections Math_cos Math_sin self volume = Some raw /\
    length raw = numProjections self /\
    forall i, (i < numProjections self)%nat ->
      exists image,
        nth_error raw i
        = Some (mkProjection (angleOf i (numProjections self)) image) /\
        radonKernel Math_cos Math_sin (kernelOutput self)
          (inputOf (volumeSize self) volume)
          (angleOf i (numProjections self)) (volumeSize self) = Some image.
Proof.
  intro Hcubic. pose proof (cubic_input Hcubic) as Hwf.
  unfold rawProjections.
  destruct (traverse_total
              (rawProjection Math_cos Math_sin self
                 (inputOf (volumeSize self) volume))
              (seq 0 (numProjections self))) as (raw & E).
  { intros i _. unfold rawProjection.
    destruct (radonKernel_image Math_cos Math_sin (kernelOutput self)
                (angleOf i (numProjections self)) Hwf) as (image & -> & _).
    eauto. }
  exists raw. split; [exact E|].
  apply traverse_Forall2 in E.
  pose proof (Forall2_length E) as Hlen. rewrite length_seq in Hlen.
  split; [auto|].
  intros i Hi.
  destruct (Forall2_nth E i (nth_error_seq0 Hi)) as (p & Ep & Er).
  unfold rawProjection in Er.
  destruct (radonKernel Math_cos Math_sin (kernelOutput self)
              (inputOf (volumeSize self) volume)
              (angleOf i (numProjections self)) (volumeSize self))
    as [image|]; [|discriminate].
  injection Er as <-. exists image. auto.
Qed.

(** The run over a cubic volume: it returns the raw projections
    normalised. *)
Lemma generateProjections_spec (self : CALProjector) (volume : VoxelVolume) :
  cubic (volumeSize self) volume ->
  exists raw,
    rawProjections Math_cos Math_sin self volume = Some raw /\
    generateProjections Math_cos Math_sin self volume
    = Some (normalizeProjections (set_projections self raw),
            map (fun p => mkProjection (angle p)
                            (map (map (rescaleOf raw)) (data p))) raw).
Proof.
  intro Hcubic.
  destruct (rawProjections_spec self Hcubic) as (raw & E & _).
  exists raw. split; [exact E|].
  rewrite generateProjections_raw, E. cbv zeta.
  rewrite normalize_map. reflexivity.
Qed.

End GenerateFacts.


(** The frame of the Normalizer on values: it maps the grid of every
    projection by one rescale of the pixel values and changes nothing
    else: the angles, the number of projections, their order and the
    other fields of the projector stay as they were. *)
Lemma normalize_frame (self : CALProjector) :
  let self' := normalizeProjections self in
  volumeSize self' = volumeSize self /\
  numProjections self' = numProjections self /\
  kernelOutput self' = kernelOutput self /\
  length (projections self') = length (projections self) /\
  map angle (projections self') = map angle (projections self) /\
  forall i p, nth_error (projections self) i = Some p ->
    exists p', nth_error (projections self') i = Some p' /\
      angle p' = angle p /\
      data p' = map (map (rescaleOf (projections self))) (data p) /\
      length (data p') = length (data p) /\
      map (@length num) (data p') = map (@length num) (data p).
Proof.
  intro self'. subst self'.
  destruct (normalize_other_fields self) as (E1 & E2 & E3).
  rewrite normalize_map.
  repeat split; auto.
  - apply length_map.
  - rewrite map_map. reflexivity.
  - intros i p Hp. eexists. split.
    + rewrite nth_error_map, Hp. reflexivity.
    + cbn [angle data]. repeat split.
      * apply length_map.
      * rewrite map_map. apply map_ext. intro row. apply length_map.
Qed.

(* ===================================================================== *)
(** ** The cube fixture *)
(* ===================================================================== *)

Lemma boxGrid_cubic (mask : list bool) :
  cubic (length mask) (boxGrid mask).
Proof.
  unfold cubic, boxGrid. split; [apply length_map|].
  apply Forall_forall. intros plane Hp.
  apply in_map_iff in Hp. destruct Hp as (bz & <- & _).
  split; [apply length_map|].
  apply Forall_forall. intros line Hl.
  apply in_map_iff in Hl. destruct Hl as (by_ & <- & _).
  apply length_map.
Qed.

Lemma boxGrid_cell (mask : list bool) (z y x : nat) (bz by_ bx : bool) :
  nth_error mask z = Some bz -> nth_error mask y = Some by_ ->
  nth_error mask x = Some bx ->
  cell (boxGrid mask) z y x
  = Some (if bx && by_ && bz then Fin 1 else Fin 0).
Proof.
  intros Hz Hy Hx. unfold cell, boxGrid.
  rewrite nth_error_map, Hz. cbn [option_map].
  rewrite nth_error_map, Hy. cbn [option_map].
  rewrite nth_error_map, Hx. reflexivity.
Qed.

(** The cube branch at resolution 64 stores inside the grid throughout
    and returns [cube64], whatever [Math.sqrt] and [Math.atan2] are. *)
Lemma createTestModel_cube64 (Math_sqrt : num -> num)
    (Math_atan2 : num -> num -> num) (self : CALProjector) :
  volumeSize self = 64%nat ->
  createTestModel Math_sqrt Math_atan2 self cube = Some cube64.
Proof.
  intro H. unfold createTestModel. rewrite H. vm_compute. reflexivity.
Qed.

Lemma cube64_cubic : cubic 64 cube64.
Proof. exact (boxGrid_cubic (map (inCube 64) (seq 0 64))). Qed.

Lemma cube64_cell (z y x : nat) :
  (z < 64)%nat -> (y < 64)%nat -> (x < 64)%nat ->
  cell cube64 z y x
  = Some (if inCube 64 x && inCube 64 y && inCube 64 z
          then Fin 1 else Fin 0).
Proof.
  intros Hz Hy Hx. unfold cube64.
  apply boxGrid_cell; rewrite nth_error_map, nth_error_seq0 by assumption;
    reflexivity.
Qed.

Lemma inCube64_iff (w : nat) : inCube 64 w = true <-> (19 <= w < 44)%nat.
Proof.
  unfold inCube.
  change (cubeStart 64) with (Fin 19). change (cubeEnd 64) with (Fin 44).
  unfold JS.of_nat, JS.of_Z.
  rewrite andb_true_iff, NumFacts.leb_Fin, NumFacts.ltb_Fin.
  change 19%Q with (inject_Z 19). change 44%Q with (inject_Z 44).
  rewrite <- Zle_Qle, <- Zlt_Qlt. lia.
Qed.

(** C5 (as amended): in the cube model at N = 64 the cell (x, y, z) is
    occupied exactly when each of x, y, z lies in
    [floor((N - 0.4 N) / 2), floor((N - 0.4 N) / 2 + 0.4 N)), that is in
    [19, 44); every other cell holds 0. *)
Theorem cube_fixture_cells (Math_sqrt : num -> num)
    (Math_atan2 : num -> num -> num) (self : CALProjector) (x y z : nat) :
  volumeSize self = 64%nat ->
  (x < 64)%nat -> (y < 64)%nat -> (z < 64)%nat ->
  exists model,
    createTestModel Math_sqrt Math_atan2 self cube = Some model /\
    cubic 64 model /\
    cubeStart 64 = Fin 19 /\ cubeEnd 64 = Fin 44 /\
    (cell model z y x = Some (Fin 1) <->
     (19 <= x < 44 /\ 19 <= y < 44 /\ 19 <= z < 44)%nat) /\
    (cell model z y x = Some (Fin 1) \/ cell model z y x = Some (Fin 0)).
Proof.
  intros Hsize Hx Hy Hz. exists cube64.
  split; [apply createTestModel_cube64; exact Hsize|].
  split; [exact cube64_cubic|].
  split; [reflexivity|]. split; [reflexivity|].
  rewrite (cube64_cell Hz Hy Hx).
  rewrite <- !inCube64_iff.
  destruct (inCube 64 x), (inCube 64 y), (inCube 64 z); simpl;
    (split; [split; [intro H; try discriminate H; auto |
                    intros (? & ? & ?); try discriminate; reflexivity]
            | auto]).
Qed.

(* ===================================================================== *)
(** ** The mesh voxelizer *)
(* ===================================================================== *)

Section StoreFacts.

Import NumFacts.

Lemma update_Forall (A : Type) (P : A -> Prop) (f : A -> option A)
    (xs : list A) :
  (forall x, P x -> exists y, f x = Some y /\ P y) ->
  Forall P xs ->
  forall i, (i < length xs)%nat ->
    exists ys, update xs i f = Some ys /\ Forall P ys /\
               length ys = length xs.
Proof.
  intros Hf. induction 1 as [|x xs Hx Hxs IH]; intros i Hi; simpl in Hi.
  - lia.
  - destruct i as [|i]; cbn [update].
    + destruct (Hf x Hx) as (y & -> & Hy). eexists. split; [reflexivity|].
      split; [constructor; assumption | reflexivity].
    + destruct (IH i) as (ys & -> & Hys & Hlen); [lia|].
      eexists. split; [reflexivity|].
      split; [constructor; assumption | simpl; congruence].
Qed.

(** A store inside a cubic grid succeeds and keeps the shape and any
    property the stored value has. *)
Lemma store_inside (P : num -> Prop) (n : nat) (grid : VoxelVolume)
    (z y x val : num) (k j i : nat) :
  cubic n grid -> cells P grid -> P val ->
  JS.index z = Some k -> JS.index y = Some j -> JS.index x = Some i ->
  (k < n)%nat -> (j < n)%nat -> (i < n)%nat ->
  exists grid', store grid z y x val = Some grid' /\
                cubic n grid' /\ cells P grid'.
Proof.
  intros [Hlen Hshape] Hcells Hval Ez Ey Ex Hk Hj Hi.
  unfold store. rewrite Ez, Ey, Ex.
  set (Line := fun line : list num => length line = n /\ Forall P line).
  set (Plane := fun plane : list (list num) =>
                  length plane = n /\ Forall Line plane).
  assert (Hgrid : Forall Plane grid).
  { unfold cells in Hcells. rewrite Forall_forall in *.
    intros plane Hp. destruct (Hshape _ Hp) as [Hpl Hlines].
    specialize (Hcells _ Hp). split; [exact Hpl|].
    rewrite Forall_forall in *. intros line Hl. split; auto. }
  destruct (@update_Forall _ Plane
              (fun plane => update plane j (fun line =>
                 update line i (fun _ => Some val))) grid) with (i := k)
    as (grid' & E & Hgrid' & Hlen'); auto; [|lia|].
  - intros plane [Hpl Hlines].
    destruct (@update_Forall _ Line
                (fun line => update line i (fun _ => Some val)) plane)
      with (i := j) as (plane' & E & Hplane' & Hlen'); auto; [|lia|].
    + intros line [Hll Hline].
      destruct (@update_Forall _ P (fun _ => Some val) line) with (i := i)
        as (line' & E & Hline' & Hlen'); auto; [eauto|lia|].
      exists line'. split; [exact E|]. split; [congruence|assumption].
    + exists plane'. split; [exact E|]. split; [congruence|assumption].
  - exists grid'. split; [exact E|].
    split; [split; [congruence|]|].
    + eapply Forall_impl; [|exact Hgrid']. intros plane [Hpl Hlines].
      split; [exact Hpl|]. eapply Forall_impl; [|exact Hlines].
      intros line [Hll _]. exact Hll.
    + unfold cells. eapply Forall_impl; [|exact Hgrid'].
      intros plane [_ Hlines]. eapply Forall_impl; [|exact Hlines].
      intros line [_ Hline]. exact Hline.
Qed.

Lemma zeros_cubic (n : nat) : cubic n (zeros n).
Proof.
  unfold cubic, zeros. split; [apply repeat_length|].
  apply Forall_forall. intros plane Hp. apply repeat_spec in Hp. subst.
  split; [apply repeat_length|].
  apply Forall_forall. intros line Hl. apply repeat_spec in Hl. subst.
  apply repeat_length.
Qed.

Lemma zeros_cells (P : num -> Prop) (n : nat) : P (Fin 0) -> cells P (zeros n).
Proof.
  intro H0. unfold cells, zeros.
  apply Forall_forall. intros plane Hp. apply repeat_spec in Hp. subst.
  apply Forall_forall. intros line Hl. apply repeat_spec in Hl. subst.
  apply Forall_forall. intros c Hc. apply repeat_spec in Hc. subst. exact H0.
Qed.

(** A floored coordinate that passes the range test is an index of the
    grid. *)
Lemma floor_guard (e : num) (n : nat) :
  JS.geb (JS.floor e) (Fin 0) = true ->
  JS.ltb (JS.floor e) (JS.of_nat n) = true ->
  exists k, JS.index (JS.floor e) = Some k /\ (k < n)%nat.
Proof.
  destruct e as [q| | |]; simpl; try discriminate.
  intros H0 H1. unfold JS.of_Z in *.
  apply (leb_Fin 0 (inject_Z (Qfloor q))) in H0.
  apply (ltb_Fin (inject_Z (Qfloor q)) (inject_Z (Z.of_nat n))) in H1.
  change 0%Q with (inject_Z 0) in H0.
  rewrite <- Zle_Qle in H0. rewrite <- Zlt_Qlt in H1.
  exists (Z.to_nat (Qfloor q)). split; [|lia].
  apply index_int; [reflexivity | exact H0].
Qed.

End StoreFacts.

Section MeshFacts.

(** One vertex: the grid keeps its shape and its cells stay 0 or 1. *)
Lemma plotVertex_keeps (n : nat) (min size : list num) (scale : num)
    (voxels : VoxelVolume) (vertex : list num) :
  cubic n voxels -> cells binary voxels ->
  exists voxels',
    plotVertex n min size scale voxels vertex = Some voxels' /\
    cubic n voxels' /\ cells binary voxels'.
Proof.
  intros Hc Hb. unfold plotVertex.
  destruct (_ && _) eqn:G; [|eauto].
  repeat (apply andb_prop in G; destruct G as [G ?]).
  unfold gridCoord in *.
  destruct (floor_guard _ _ G H3) as (i & Ei & Hi).
  destruct (floor_guard _ _ H2 H1) as (j & Ej & Hj).
  destruct (floor_guard _ _ H0 H) as (k & Ek & Hk).
  eapply store_inside with (P := binary); eauto.
  right; reflexivity.
Qed.

Lemma for_each_keeps (S A : Type) (Inv : S -> Prop)
    (body : S -> A -> option S) (xs : list A) :
  (forall s x, Inv s -> exists s', body s x = Some s' /\ Inv s') ->
  forall s, Inv s -> exists s', for_each body xs s = Some s' /\ Inv s'.
Proof.
  intro Hbody. induction xs as [|x xs IH]; intros s Hs; cbn [for_each].
  - eauto.
  - destruct (Hbody s x Hs) as (s' & -> & Hs'). apply IH. exact Hs'.
Qed.

Lemma for_each_fixed (S A : Type) (body : S -> A -> option S)
    (xs : list A) (s : S) :
  (forall x, In x xs -> body s x = Some s) -> for_each body xs s = Some s.
Proof.
  induction xs as [|x xs IH]; intro H; cbn [for_each]; [reflexivity|].
  rewrite (H x (or_introl eq_refl)). apply IH.
  intros; apply H; right; assumption.
Qed.

End MeshFacts.

(** C10: the mesh voxelizer returns a grid for every mesh, also one with
    no vertex or a degenerate bounding box: gridSize cubed cells, each 0 or
    1; a vertex whose floored grid coordinate is outside [0, gridSize) on
    an axis leaves the grid as it is, and every store lands inside the
    grid. *)
Theorem meshToVoxels_total (mesh : Mesh) (gridSize : nat) :
  (exists voxels,
     meshToVoxels mesh gridSize = Some voxels /\
     cubic gridSize voxels /\ cells binary voxels) /\
  (forall min size scale voxels vertex,
     let x := gridCoord gridSize min size scale vertex 0 in
     let y := gridCoord gridSize min size scale vertex 1 in
     let z := gridCoord gridSize min size scale vertex 2 in
     (JS.geb x (Fin 0) && JS.ltb x (JS.of_nat gridSize) &&
      JS.geb y (Fin 0) && JS.ltb y (JS.of_nat gridSize) &&
      JS.geb z (Fin 0) && JS.ltb z (JS.of_nat gridSize)) = false ->
     plotVertex gridSize min size scale voxels vertex = Some voxels) /\
  (forall min size scale voxels vertex,
     cubic gridSize voxels ->
     exists voxels',
       plotVertex gridSize min size scale voxels vertex = Some voxels' /\
       cubic gridSize voxels').
Proof.
  split; [|split].
  - unfold meshToVoxels.
    destruct (boundingBox (vertices mesh)) as [min max].
    apply for_each_keeps
      with (Inv := fun g => cubic gridSize g /\ cells binary g).
    + intros g vertex [Hc Hb].
      destruct (plotVertex_keeps min (extent min max)
                  (meshScale gridSize (extent min max)) vertex Hc Hb)
        as (g' & E & Hc' & Hb').
      eauto.
    + split; [apply zeros_cubic | apply zeros_cells; left; reflexivity].
  - intros min size scale voxels vertex x y z G. unfold plotVertex.
    fold x y z. rewrite G. reflexivity.
  - intros min size scale voxels vertex Hc. unfold plotVertex.
    destruct (_ && _) eqn:G; [|eauto].
    repeat (apply andb_prop in G; destruct G as [G ?]).
    unfold gridCoord in *.
    destruct (floor_guard _ _ G H3) as (i & Ei & Hi).
    destruct (floor_guard _ _ H2 H1) as (j & Ej & Hj).
    destruct (floor_guard _ _ H0 H) as (k & Ek & Hk).
    assert (Hany : cells (fun _ => True) voxels).
    { unfold cells. apply Forall_forall. intros; apply Forall_forall.
      intros; apply Forall_forall. auto. }
    destruct (@store_inside (fun _ => True) gridSize voxels _ _ _ (Fin 1)
                k j i Hc Hany I Ek Ej Ei Hk Hj Hi) as (g' & E' & Hc' & _).
    eauto.
Qed.

(** C4 (as amended): on a mesh with no vertex, or with zero bounding-box
    extent on every axis, the mesh voxelizer raises no error: it returns
    the all-zero grid. *)
Theorem meshToVoxels_degenerate (mesh : Mesh) (gridSize : nat) :
  vertices mesh = [] \/ meshExtent mesh = [Fin 0; Fin 0; Fin 0] ->
  meshToVoxels mesh gridSize = Some (zeros gridSize).
Proof.
  intros [Hnil | Hext]; unfold meshToVoxels.
  - rewrite Hnil. reflexivity.
  - unfold meshExtent in Hext.
    destruct (boundingBox (vertices mesh)) as [min max]. rewrite Hext.
    apply for_each_fixed. intros vertex _.
    unfold plotVertex, gridCoord, meshScale.
    change (JS.max_list [Fin 0; Fin 0; Fin 0]) with (Fin 0).
    cbn [at_ nth].
    assert (E : JS.mul (Fin 0)
                  (JS.div (JS.mul (JS.of_nat gridSize) (Fin (8 # 10))) (Fin 0))
                = JS.NaN).
    { unfold JS.of_nat, JS.of_Z. cbn [JS.mul JS.div].
      change (Qeq_bool 0 0) with true. cbv iota.
      destruct (JS.Qsgn _); reflexivity. }
    rewrite E.
    assert (F : forall a, JS.floor
                  (JS.add a (JS.div (JS.sub (JS.of_nat gridSize) JS.NaN)
                               (Fin 2))) = JS.NaN).
    { intro a. destruct a; reflexivity. }
    rewrite !F. reflexivity.
Qed.

(* ===================================================================== *)
(** ** Rays through a volume: the last row, and a bright segment *)
(* ===================================================================== *)

Section StepFacts.

Import NumFacts.
Local Open Scope Q_scope.

Variable n : nat.
Variable volume : Input.
Hypothesis Hwf : wfInput n volume.
Hypothesis Hcells : Forall (JS.within 0 1) (value volume).
Local Abbreviation N := (sideQ n).

(** A turn of the loop never lowers a finite sum. *)
Lemma marchStep_grows cosTheta sinTheta uCentered vCentered center t a :
  exists a',
    marchStep volume (JS.of_nat n) cosTheta sinTheta uCentered vCentered
      center t (Fin a) = Some (Fin a') /\ a <= a'.
Proof.
  destruct (marchStep_spec Hwf (P := JS.within 0 1)
              (fun a b d => @blend_unit a b d) Hcells
              cosTheta sinTheta uCentered vCentered center t (Fin a))
    as (acc' & E & [-> | (c & Hc & ->)]).
  - exists a. split; [exact E | lra].
  - destruct c as [c| | |]; try contradiction. destruct Hc as [Hc0 Hc1].
    cbn [JS.add JS.mul] in E. eexists. split; [exact E|].
    rewrite !Qred_correct. lra.
Qed.

Lemma blend_one (a b : num) (d : Q) :
  a = Fin 1 -> b = Fin 1 -> 0 <= d < 1 ->
  JS.add (JS.mul a (JS.sub (Fin 1) (Fin (Qred d))))
         (JS.mul b (Fin (Qred d))) = Fin 1.
Proof.
  intros -> -> _. cbn [JS.add JS.mul JS.sub]. f_equal.
  change 1 with (Qred 1) at 4. apply Qred_eq.
  rewrite !Qred_correct. ring.
Qed.

(** A sample whose eight cells hold 1 adds one half. *)
Lemma marchStep_full cosTheta sinTheta uCentered vCentered center t
    (qx qy qz a : Q) :
  samplePosition cosTheta sinTheta uCentered vCentered center t
  = (Fin qx, Fin qy, Fin qz) ->
  0 <= qx < N - 1 -> 0 <= qy < N - 1 -> 0 <= qz < N - 1 ->
  (forall dk dj di c,
     (dk = 0 \/ dk = 1)%Z -> (dj = 0 \/ dj = 1)%Z -> (di = 0 \/ di = 1)%Z ->
     flatCell volume (Z.to_nat (Qfloor qz + dk)) (Z.to_nat (Qfloor qy + dj))
       (Z.to_nat (Qfloor qx + di)) = Some c -> c = Fin 1) ->
  exists a',
    marchStep volume (JS.of_nat n) cosTheta sinTheta uCentered vCentered
      center t (Fin a) = Some (Fin a') /\ a' == a + (1 # 2).
Proof.
  intros Epos Hx Hy Hz Hone. unfold marchStep. rewrite Epos.
  assert (Hin : inside (JS.of_nat n) (Fin qx) (Fin qy) (Fin qz) = true).
  { unfold inside, JS.of_nat, JS.of_Z. cbn [JS.sub]. unfold JS.geb.
    fold N.
    rewrite !(proj2 (leb_Fin 0 _)) by tauto.
    rewrite !(proj2 (ltb_Fin _ _)) by (rewrite Qred_correct; tauto).
    reflexivity. }
  rewrite Hin.
  destruct (@interpolate_region n volume Hwf (fun c => c = Fin 1)
              (fun a b d => @blend_one a b d) qx qy qz Hx Hy Hz Hone)
    as (c & -> & ->).
  cbn [JS.add JS.mul]. eexists. split; [reflexivity|].
  rewrite !Qred_correct. ring.
Qed.

End StepFacts.

Section RayFacts.

Import NumFacts.
Local Open Scope Q_scope.

Variable n : nat.
Variables Math_cos Math_sin : num -> num.
Local Abbreviation N := (sideQ n).
Local Abbreviation T0 := (marchStart n).
Local Abbreviation H := (marchEnd n).

(** The marching loop of a pixel under an invariant of the parameter and
    the sum that every turn keeps. *)
Lemma radonPixel_steps (volume : Input) (theta : num) (u v : nat)
    (Inv : Q -> num -> Prop) :
  (forall q q' acc, q == q' -> Inv q acc -> Inv q' acc) ->
  Inv T0 (Fin 0) ->
  (forall q acc, Inv q acc -> q < H ->
     exists acc',
       marchStep volume (JS.of_nat n)
         (Math_cos (JS.mul theta (JS.div Math_PI (Fin 180))))
         (Math_sin (JS.mul theta (JS.div Math_PI (Fin 180))))
         (JS.sub (JS.of_nat u) (JS.div (JS.of_nat n) (Fin 2)))
         (JS.sub (JS.of_nat v) (JS.div (JS.of_nat n) (Fin 2)))
         (JS.div (JS.of_nat n) (Fin 2)) (Fin q) acc = Some acc' /\
       Inv (q + (1 # 2)) acc') ->
  exists q r,
    radonPixel Math_cos Math_sin volume theta n u v = Some r /\
    Inv q r /\ H <= q.
Proof.
  intros Hresp Hinit Hstep. unfold radonPixel.
  change (JS.mul (JS.of_nat n) (Fin (7 # 10))) with (Fin H).
  change (JS.mul (JS.neg (JS.of_nat n)) (Fin (7 # 10))) with (Fin T0).
  apply for_num_run with (P := Inv); try assumption.
  - reflexivity.
  - apply marchFuel_enough.
Qed.

Lemma half_side : JS.div (JS.of_nat n) (Fin 2) = Fin (Qred (N / 2)).
Proof. reflexivity. Qed.

(** The last row of every image is zero: its samples have [y = n - 1],
    which the guard excludes. *)
Lemma radonPixel_last_row (volume : Input) (theta : num) (u : nat) :
  (0 < n)%nat ->
  radonPixel Math_cos Math_sin volume theta n u (n - 1) = Some (Fin 0).
Proof.
  intro Hn.
  destruct (@radonPixel_steps volume theta u (n - 1)
              (fun _ acc => acc = Fin 0))
    as (q & r & E & -> & _); auto.
  intros q acc -> _. exists (Fin 0). split; [|reflexivity].
  apply marchStep_outside. unfold samplePosition.
  rewrite half_side. unfold inside.
  set (y := Qred (Qred (inject_Z (Z.of_nat (n - 1)) - Qred (N / 2))
                  + Qred (N / 2))).
  change (JS.add (JS.sub (JS.of_nat (n - 1)) (Fin (Qred (N / 2))))
            (Fin (Qred (N / 2)))) with (Fin y).
  assert (Hy : JS.ltb (Fin y) (JS.sub (JS.of_nat n) (Fin 1)) = false).
  { unfold JS.of_nat, JS.of_Z. cbn [JS.sub]. apply ltb_Fin_false.
    unfold y. rewrite !Qred_correct. fold N.
    replace (Z.of_nat (n - 1)) with (Z.of_nat n + -1)%Z by lia.
    rewrite inject_Z_plus. fold N.
    change (inject_Z (-1)) with (-1). lra. }
  rewrite Hy. rewrite andb_false_r. reflexivity.
Qed.

Variable volume : Input.
Hypothesis Hwf : wfInput n volume.
Hypothesis Hcells : Forall (JS.within 0 1) (value volume).

(** A ray that crosses cells of 1 for all parameters of [[tlo, thi]]
    gathers at least [thi - tlo - 0.5]. *)
Lemma radonPixel_segment (theta : num) (u v : nat) (tlo thi : Q) :
  T0 <= tlo -> thi <= H ->
  (forall q a, tlo <= q <= thi ->
     exists a',
       marchStep volume (JS.of_nat n)
         (Math_cos (JS.mul theta (JS.div Math_PI (Fin 180))))
         (Math_sin (JS.mul theta (JS.div Math_PI (Fin 180))))
         (JS.sub (JS.of_nat u) (JS.div (JS.of_nat n) (Fin 2)))
         (JS.sub (JS.of_nat v) (JS.div (JS.of_nat n) (Fin 2)))
         (JS.div (JS.of_nat n) (Fin 2)) (Fin q) (Fin a) = Some (Fin a') /\
       a' == a + (1 # 2)) ->
  exists r,
    radonPixel Math_cos Math_sin volume theta n u v = Some (Fin r) /\
    thi - tlo - (1 # 2) <= r.
Proof.
  intros Htlo Hthi Hfull.
  destruct (@radonPixel_steps volume theta u v
              (fun q acc => exists a, acc = Fin a /\ 0 <= a /\
                 (q <= thi -> q - tlo - (1 # 2) <= a) /\
                 (thi <= q -> thi - tlo - (1 # 2) <= a)))
    as (q & r & E & (a & -> & Ha0 & Ha1 & Ha2) & Hq).
  - intros q q' acc Eq (a & -> & ? & ? & ?). exists a. rewrite <- Eq. auto.
  - exists 0. split; [reflexivity|]. repeat split; intros; lra.
  - intros q acc (a & -> & Ha0 & Ha1 & Ha2) Hq.
    destruct (Qlt_le_dec q tlo) as [Hlow|Hlow];
      [|destruct (Qlt_le_dec thi q) as [Hhigh|Hhigh]].
    + destruct (marchStep_grows Hwf Hcells
                  (Math_cos (JS.mul theta (JS.div Math_PI (Fin 180))))
                  (Math_sin (JS.mul theta (JS.div Math_PI (Fin 180))))
                  (JS.sub (JS.of_nat u) (JS.div (JS.of_nat n) (Fin 2)))
                  (JS.sub (JS.of_nat v) (JS.div (JS.of_nat n) (Fin 2)))
                  (JS.div (JS.of_nat n) (Fin 2)) (Fin q) a)
        as (a' & -> & Hle).
      eexists. split; [reflexivity|]. exists a'.
      repeat split; intros; lra.
    + destruct (marchStep_grows Hwf Hcells
                  (Math_cos (JS.mul theta (JS.div Math_PI (Fin 180))))
                  (Math_sin (JS.mul theta (JS.div Math_PI (Fin 180))))
                  (JS.sub (JS.of_nat u) (JS.div (JS.of_nat n) (Fin 2)))
                  (JS.sub (JS.of_nat v) (JS.div (JS.of_nat n) (Fin 2)))
                  (JS.div (JS.of_nat n) (Fin 2)) (Fin q) a)
        as (a' & -> & Hle).
      eexists. split; [reflexivity|]. exists a'.
      repeat split; intros; lra.
    + destruct (Hfull q a (conj Hlow Hhigh)) as (a' & -> & Ea).
      eexists. split; [reflexivity|]. exists a'.
      repeat split; intros; lra.
  - exists a. split; [exact E|]. apply Ha2. lra.
Qed.

End RayFacts.

(* ===================================================================== *)
(** ** Pixels of a run *)
(* ===================================================================== *)

Section PixelPlumbing.

Lemma nth_error_concat_const (A : Type) (m : nat) (ls : list (list A)) :
  Forall (fun l => length l = m) ls ->
  forall k i, (i < m)%nat ->
    nth_error (concat ls) (k * m + i)
    = (l <- nth_error ls k ;; nth_error l i).
Proof.
  induction 1 as [|l ls Hl Hls IH]; intros k i Hi.
  - simpl. destruct (k * m + i)%nat, k; reflexivity.
  - destruct k as [|k]; cbn [concat nth_error].
    + rewrite Nat.mul_0_l, Nat.add_0_l.
      apply nth_error_app1. lia.
    + rewrite nth_error_app2 by (rewrite Hl; lia).
      replace (Datatypes.S k * m + i - length l)%nat with (k * m + i)%nat
        by (rewrite Hl; lia).
      apply IH. exact Hi.
Qed.

(** The flat array of a cubic grid holds the cell [(k, j, i)] at its flat
    index. *)
Lemma flat2_cell (n : nat) (volume : VoxelVolume) (k j i : nat) :
  cubic n volume -> (j < n)%nat -> (i < n)%nat ->
  flatCell (inputOf n volume) k j i = cell volume k j i.
Proof.
  intros [Hlen Hall] Hj Hi. unfold flatCell, inputOf, cell, flat2.
  cbn [value sizeX sizeY].
  replace (k * n * n + j * n + i)%nat with ((k * n + j) * n + i)%nat by lia.
  rewrite (@nth_error_concat_const _ n (concat volume)) by
    first [ assumption
          | apply Forall_concat_intro;
            eapply Forall_impl; [|exact Hall]; intros l [_ H]; exact H ].
  rewrite (@nth_error_concat_const _ n volume) by
    first [ assumption
          | eapply Forall_impl; [|exact Hall]; intros l [H _]; exact H ].
  destruct (nth_error volume k) as [plane|]; reflexivity.
Qed.

Lemma pixel_In (ps : list Projection) (i v u : nat) (x : num) :
  pixel ps i v u = Some x -> In x (pixels ps).
Proof.
  unfold pixel, pixels. intro H.
  destruct (nth_error ps i) as [p|] eqn:Ep; [|discriminate].
  destruct (nth_error (data p) v) as [row|] eqn:Er; [|discriminate].
  apply in_concat. exists (concat (data p)). split.
  - apply in_map_iff. exists p. split; [reflexivity|].
    eapply nth_error_In; eauto.
  - apply in_concat. exists row. split; eapply nth_error_In; eauto.
Qed.

Lemma In_pixel (ps : list Projection) (x : num) :
  In x (pixels ps) -> exists i v u, pixel ps i v u = Some x.
Proof.
  unfold pixels, pixel. intro H.
  apply in_concat in H. destruct H as (l & Hl & Hx).
  apply in_map_iff in Hl. destruct Hl as (p & <- & Hp).
  apply in_concat in Hx. destruct Hx as (row & Hrow & Hx).
  apply In_nth_error in Hp, Hrow, Hx.
  destruct Hp as (i & Hp), Hrow as (v & Hrow), Hx as (u & Hx).
  exists i, v, u. rewrite Hp, Hrow. exact Hx.
Qed.

Lemma pixel_map (f : num -> num) (ps : list Projection) (i v u : nat) :
  pixel (map (fun p => mkProjection (angle p) (map (map f) (data p))) ps)
    i v u
  = option_map f (pixel ps i v u).
Proof.
  unfold pixel. rewrite nth_error_map.
  destruct (nth_error ps i) as [p|]; [|reflexivity].
  cbn [option_map data]. rewrite nth_error_map.
  destruct (nth_error (data p) v) as [row|]; [|reflexivity].
  cbn [option_map]. apply nth_error_map.
Qed.

End PixelPlumbing.

Section RunFacts.

Import NumFacts.
Local Open Scope Q_scope.

Variables Math_cos Math_sin : num -> num.
Variable self : CALProjector.
Variable volume : VoxelVolume.
Local Abbreviation n := (volumeSize self).
Local Abbreviation M := (numProjections self).

Hypothesis Hcubic : cubic n volume.
Hypothesis Hunit : Forall (JS.within 0 1) (flat2 volume).
Hypothesis Hout : kernelOutput self = n.
Hypothesis Hn : (0 < n)%nat.
Hypothesis HM : (0 < M)%nat.

(** The raw projections of a run over cells of [[0, 1]]: every pixel is
    the value of the kernel function, the global minimum is 0 (the last
    row of every image is 0) and the global maximum is below
    [1.4 * n + 0.5]. *)
Lemma run_raw :
  exists raw a b,
    rawProjections Math_cos Math_sin self volume = Some raw /\
    length raw = M /\
    scanProjections raw = (Fin a, Fin b) /\
    a == 0 /\ 0 <= b /\ b < (14 # 10) * sideQ n + (1 # 2) /\
    (forall i, (i < M)%nat ->
       exists p, nth_error raw i = Some p /\ angle p = angleOf i M /\
                 square n (data p)) /\
    (forall i v u, (i < M)%nat -> (v < n)%nat -> (u < n)%nat ->
       exists r, pixel raw i v u = Some (Fin r) /\
         radonPixel Math_cos Math_sin (inputOf n volume) (angleOf i M) n u v
         = Some (Fin r) /\
         0 <= r /\ r <= b) /\
    Forall JS.finite (pixels raw) /\ pixels raw <> [].
Proof.
  pose proof (cubic_input Hcubic) as Hwf.
  destruct (rawProjections_spec Math_cos Math_sin self Hcubic)
    as (raw & Eraw & Hlen & Hnth).
  (* every pixel in range is a value of the kernel function *)
  assert (Hpix : forall i v u, (i < M)%nat -> (v < n)%nat -> (u < n)%nat ->
            exists r, pixel raw i v u = Some (Fin r) /\
              radonPixel Math_cos Math_sin (inputOf n volume) (angleOf i M)
                n u v = Some (Fin r) /\
              0 <= r /\ r < (14 # 10) * sideQ n + (1 # 2)).
  { intros i v u Hi Hv Hu.
    destruct (Hnth i Hi) as (image & Ei & Ek).
    destruct (radonKernel_image Math_cos Math_sin (kernelOutput self)
                (angleOf i M) Hwf) as (image' & Ek' & _ & Himg).
    rewrite Ek in Ek'. injection Ek' as <-.
    rewrite Hout in Himg.
    destruct (Himg u v Hu Hv) as (row & Erow & r0 & Er0 & Epx).
    destruct (radonPixel_bounds Hwf Math_cos Math_sin (angleOf i M) u v Hunit)
      as (r & Er & Hr0 & Hr1).
    rewrite Er in Epx. injection Epx as <-.
    exists r. unfold pixel. rewrite Ei. cbn [data]. rewrite Erow.
    auto. }
  (* the shape of the images *)
  assert (Hshape : forall i, (i < M)%nat ->
            exists p, nth_error raw i = Some p /\ angle p = angleOf i M /\
                      square n (data p)).
  { intros i Hi. destruct (Hnth i Hi) as (image & Ei & Ek).
    destruct (radonKernel_image Math_cos Math_sin (kernelOutput self)
                (angleOf i M) Hwf) as (image' & Ek' & Hsq & _).
    rewrite Ek in Ek'. injection Ek' as <-. rewrite Hout in Hsq.
    eexists. split; [exact Ei|]. split; [reflexivity | exact Hsq]. }
  (* every pixel there is lies in range *)
  assert (Hrange : forall i v u x, pixel raw i v u = Some x ->
            (i < M)%nat /\ (v < n)%nat /\ (u < n)%nat).
  { intros i v u x Hx. unfold pixel in Hx.
    destruct (nth_error raw i) as [p|] eqn:Ep; [|discriminate].
    assert (Hi : (i < M)%nat)
      by (rewrite <- Hlen; apply nth_error_Some; congruence).
    destruct (Hshape i Hi) as (p' & Ep' & _ & Hlen' & Hrows).
    rewrite Ep in Ep'. injection Ep' as <-.
    destruct (nth_error (data p) v) as [row|] eqn:Er; [|discriminate].
    assert (Hv : (v < n)%nat)
      by (rewrite <- Hlen'; apply nth_error_Some; congruence).
    rewrite Forall_forall in Hrows.
    pose proof (Hrows row (nth_error_In _ _ Er)) as Hrow.
    assert (Hu : (u < n)%nat)
      by (rewrite <- Hrow; apply nth_error_Some; congruence).
    auto. }
  assert (Hall : forall x, In x (pixels raw) ->
            exists r, x = Fin r /\ 0 <= r /\
                      r < (14 # 10) * sideQ n + (1 # 2)).
  { intros x Hx. destruct (In_pixel _ _ Hx) as (i & v & u & Ex).
    destruct (Hrange _ _ _ _ Ex) as (Hi & Hv & Hu).
    destruct (Hpix i v u Hi Hv Hu) as (r & Er & _ & H0 & H1).
    rewrite Er in Ex. injection Ex as <-. eauto. }
  assert (Hfin : Forall JS.finite (pixels raw)).
  { apply Forall_forall. intros x Hx.
    destruct (Hall x Hx) as (r & -> & _). exact I. }
  (* the zero of the last row *)
  assert (Hzero : In (Fin 0) (pixels raw)).
  { destruct (Hpix 0 (n - 1) 0)%nat as (r & Er & Ek & _); try lia.
    rewrite (radonPixel_last_row Math_cos Math_sin (inputOf n volume)
               (angleOf 0 M) 0 Hn) in Ek.
    injection Ek as <-. apply (pixel_In _ _ _ _ Er). }
  assert (Hne : pixels raw <> []) by (intro E; rewrite E in Hzero; exact Hzero).
  destruct (normalize_fin (set_projections self raw) Hfin Hne)
    as (a & b & Es & Ia & Ib & Hbounds & _).
  cbn [projections set_projections] in Es, Ia, Ib, Hbounds.
  rewrite Forall_forall in Hbounds.
  exists raw, a, b.
  destruct (Hall _ Ia) as (a' & Ea & Ha0 & _). injection Ea as <-.
  destruct (Hall _ Ib) as (b' & Eb & Hb0 & Hb1). injection Eb as <-.
  destruct (Hbounds _ Hzero) as (z & Ez & Hz0 & _). injection Ez as <-.
  split; [exact Eraw|]. split; [exact Hlen|]. split; [exact Es|].
  split; [lra|]. split; [lra|]. split; [lra|]. split; [exact Hshape|].
  split; [|split; assumption].
  intros i v u Hi Hv Hu.
  destruct (Hpix i v u Hi Hv Hu) as (r & Er & Ek & H0 & _).
  exists r. repeat split; auto.
  destruct (Hbounds _ (pixel_In _ _ _ _ Er)) as (r' & Er' & _ & Hle).
  injection Er' as <-. exact Hle.
Qed.

End RunFacts.

(* ===================================================================== *)
(** ** Rays through the cube fixture *)
(* ===================================================================== *)

Section CubeRays.

Import NumFacts.
Local Open Scope Q_scope.

Variables Math_cos Math_sin : num -> num.

(** The position of a sample for finite arguments. *)
Lemma samplePosition_Fin (cq sq uc vc ce q : Q) :
  exists X Y Z,
    samplePosition (Fin cq) (Fin sq) (Fin uc) (Fin vc) (Fin ce) (Fin q)
    = (Fin X, Fin Y, Fin Z) /\
    X == uc * cq - q * sq + ce /\ Y == vc + ce /\
    Z == uc * sq + q * cq + ce.
Proof.
  unfold samplePosition. cbn [JS.add JS.sub JS.mul].
  eexists. eexists. eexists. split; [reflexivity|].
  rewrite !Qred_correct. repeat split; reflexivity.
Qed.

Lemma cube64_input : wfInput 64 (inputOf 64 cube64).
Proof. apply cubic_input. exact cube64_cubic. Qed.

Lemma cube64_flat (k j i : nat) :
  (k < 64)%nat -> (j < 64)%nat -> (i < 64)%nat ->
  flatCell (inputOf 64 cube64) k j i
  = Some (if inCube 64 i && inCube 64 j && inCube 64 k
          then Fin 1 else Fin 0).
Proof.
  intros Hk Hj Hi. rewrite (flat2_cell k cube64_cubic Hj Hi).
  apply cube64_cell; assumption.
Qed.

Lemma cube64_unit : Forall (JS.within 0 1) (flat2 cube64).
Proof.
  unfold flat2, cube64, boxGrid.
  apply Forall_concat_intro, Forall_concat_intro.
  apply Forall_forall. intros plane Hp.
  apply in_map_iff in Hp. destruct Hp as (bz & <- & _).
  apply Forall_forall. intros line Hl.
  apply in_map_iff in Hl. destruct Hl as (by_ & <- & _).
  apply Forall_forall. intros c Hc.
  apply in_map_iff in Hc. destruct Hc as (bx & <- & _).
  destruct (bx && by_ && bz); simpl; lra.
Qed.

Lemma floor_between (x : Q) (lo hi : Z) :
  inject_Z lo <= x -> x < inject_Z hi -> (lo <= Qfloor x < hi)%Z.
Proof.
  intros H0 H1. split.
  - rewrite <- (Qfloor_Z lo). apply Qfloor_resp_le. exact H0.
  - rewrite Zlt_Qlt. pose proof (Qfloor_le x). lra.
Qed.

(** A ray of the cube fixture that stays inside the cube for the
    parameters of [[-10, 10]] gathers at least 19.5. *)
Lemma cube_ray_bright (theta : num) (u v : nat) (cq sq : Q) :
  Math_cos (JS.mul theta (JS.div Math_PI (Fin 180))) = Fin cq ->
  Math_sin (JS.mul theta (JS.div Math_PI (Fin 180))) = Fin sq ->
  (19 <= v < 43)%nat ->
  (forall q, -10 <= q <= 10 ->
     19 <= (sideQ u - 32) * cq - q * sq + 32 < 43 /\
     19 <= (sideQ u - 32) * sq + q * cq + 32 < 43) ->
  exists r,
    radonPixel Math_cos Math_sin (inputOf 64 cube64) theta 64 u v
    = Some (Fin r) /\
    39 # 2 <= r.
Proof.
  intros Ec Es Hv Hpos.
  destruct (@radonPixel_segment 64 Math_cos Math_sin (inputOf 64 cube64)
              cube64_input cube64_unit theta u v (-10) 10)
    as (r & Er & Hr).
  - rewrite T0_val. change (sideQ 64) with 64. lra.
  - rewrite H_val. change (sideQ 64) with 64. lra.
  - intros q a Hq. rewrite Ec, Es.
    unfold JS.of_nat, JS.of_Z. cbn [JS.div JS.sub].
    change (Qeq_bool 2 0) with false. cbv iota.
    destruct (samplePosition_Fin cq sq
                (Qred (inject_Z (Z.of_nat u) - Qred (inject_Z (Z.of_nat 64) / 2)))
                (Qred (inject_Z (Z.of_nat v) - Qred (inject_Z (Z.of_nat 64) / 2)))
                (Qred (inject_Z (Z.of_nat 64) / 2)) q)
      as (px & py & pz & Epos & EX & EY & EZ).
    rewrite !Qred_correct in EX, EY, EZ.
    change (inject_Z (Z.of_nat 64)) with 64 in EX, EY, EZ.
    fold (sideQ u) in EX, EZ.
    assert (E32 : 64 / 2 == 32) by reflexivity.
    rewrite E32 in EX, EY, EZ.
    destruct (Hpos q Hq) as [HX HZ].
    assert (HY : 19 <= py < 43).
    { rewrite EY.
      assert (19 <= inject_Z (Z.of_nat v) < 43).
      { change 19 with (inject_Z 19). change 43 with (inject_Z 43).
        rewrite <- Zle_Qle, <- Zlt_Qlt. lia. }
      lra. }
    assert (HX' : 19 <= px < 43) by (rewrite EX; lra).
    assert (HZ' : 19 <= pz < 43) by (rewrite EZ; lra).
    apply (marchStep_full cube64_input a Epos);
      try (change (sideQ 64) with 64; lra).
    intros dk dj di c Hdk Hdj Hdi Hc.
    destruct (@floor_between px 19 43) as [? ?]; try tauto.
    destruct (@floor_between py 19 43) as [? ?]; try tauto.
    destruct (@floor_between pz 19 43) as [? ?]; try tauto.
    rewrite cube64_flat in Hc by lia.
    rewrite !(proj2 (inCube64_iff _)) in Hc by lia.
    injection Hc as <-. reflexivity.
  - exists r. split; [exact Er | lra].
Qed.

(** A ray of the cube fixture whose samples all have [x >= 44] gathers
    nothing: the cells it reads are outside the cube. *)
Lemma cube_ray_dark (theta : num) (u v : nat) (cq sq : Q) :
  Math_cos (JS.mul theta (JS.div Math_PI (Fin 180))) = Fin cq ->
  Math_sin (JS.mul theta (JS.div Math_PI (Fin 180))) = Fin sq ->
  (forall q, 44 <= (sideQ u - 32) * cq - q * sq + 32) ->
  radonPixel Math_cos Math_sin (inputOf 64 cube64) theta 64 u v
  = Some (Fin 0).
Proof.
  intros Ec Es Hpos.
  destruct (@radonPixel_steps 64 Math_cos Math_sin (inputOf 64 cube64)
              theta u v (fun _ acc => acc = Fin 0))
    as (q & r & E & -> & _); auto.
  intros q acc -> _. rewrite Ec, Es.
  unfold JS.of_nat, JS.of_Z. cbn [JS.div JS.sub].
  change (Qeq_bool 2 0) with false. cbv iota.
  destruct (samplePosition_Fin cq sq
              (Qred (inject_Z (Z.of_nat u) - Qred (inject_Z (Z.of_nat 64) / 2)))
              (Qred (inject_Z (Z.of_nat v) - Qred (inject_Z (Z.of_nat 64) / 2)))
              (Qred (inject_Z (Z.of_nat 64) / 2)) q)
    as (px & py & pz & Epos & EX & _ & _).
  rewrite !Qred_correct in EX.
  change (inject_Z (Z.of_nat 64)) with 64 in EX.
  fold (sideQ u) in EX.
  assert (E32 : 64 / 2 == 32) by reflexivity.
  rewrite E32 in EX.
  unfold marchStep. rewrite Epos.
  destruct (inside _ (Fin px) (Fin py) (Fin pz)) eqn:Hin; [|eauto].
  destruct (inside_bounds 64 _ _ _ Hin)
    as (qx & qy & qz & Ex & Ey & Ez & Hx & Hy & Hz).
  injection Ex as <-. injection Ey as <-. injection Ez as <-.
  change (inject_Z (Z.of_nat 64)) with 64 in Hx, Hy, Hz.
  destruct (@interpolate_region 64 (inputOf 64 cube64) cube64_input
              (fun c => c = Fin 0) (fun a b d => @blend_zero a b d)
              px py pz Hx Hy Hz) as (c & -> & ->).
  - intros dk dj di c Hdk Hdj Hdi Hc.
    pose proof (Hpos q) as HX. rewrite <- EX in HX.
    destruct (@floor_between px 44 63) as [? ?];
      [change (inject_Z 44) with 44; lra
      |change (inject_Z 63) with 63; lra|].
    destruct (@floor_between py 0 63) as [? ?];
      [change (inject_Z 0) with 0; lra
      |change (inject_Z 63) with 63; lra|].
    destruct (@floor_between pz 0 63) as [? ?];
      [change (inject_Z 0) with 0; lra
      |change (inject_Z 63) with 63; lra|].
    rewrite cube64_flat in Hc by lia.
    destruct (inCube 64 (Z.to_nat (Qfloor px + di))) eqn:Ei.
    + apply inCube64_iff in Ei. lia.
    + injection Hc as <-. reflexivity.
  - exists (Fin 0). split; reflexivity.
Qed.

End CubeRays.

(* ===================================================================== *)
(** ** The run, normalised *)
(* ===================================================================== *)

Section NormalizedRun.

Import NumFacts.
Local Open Scope Q_scope.

(** Every pixel lands in [[0, 255]]. *)
Lemma normalize_range (self : CALProjector) :
  Forall JS.finite (pixels (projections self)) ->
  pixels (projections self) <> [] ->
  Forall (JS.within 0 255) (pixels (projections (normalizeProjections self))).
Proof.
  intros Hf Hne.
  destruct (normalize_fin self Hf Hne) as (a & b & _ & Ia & Ib & Hall & ->).
  rewrite Forall_forall in Hall.
  apply Forall_forall. intros x Hx.
  apply in_map_iff in Hx. destruct Hx as (y & <- & Hy).
  destruct (Hall _ Hy) as (q & -> & H0 & H1).
  destruct (Qlt_le_dec a b) as [Hlt | Hle].
  - rewrite (range_pos Hlt).
    apply rescale_range; rewrite ?Qred_correct; lra.
  - assert (Eab : a == b) by lra.
    rewrite (range_zero Eab).
    rewrite rescale_low; [simpl; lra | discriminate | lra].
Qed.

(** A pixel worth at least one 255th of the range is rescaled to 1 or
    more. *)
Lemma rescale_pos (a r v : Q) :
  0 < r -> r <= (v - a) * 255 ->
  exists z, rescale (Fin a) (Fin r) (Fin v) = Fin (inject_Z z) /\ (1 <= z)%Z.
Proof.
  intros Hr Hv. rewrite rescale_Fin by lra.
  eexists. split; [reflexivity|].
  change 1%Z with (Qfloor (1 + (1 # 2))). apply Qfloor_resp_le.
  assert (1 <= (v - a) / r * 255).
  { unfold Qdiv.
    setoid_replace ((v - a) * / r * 255) with ((v - a) * 255 / r) by (field; lra).
    apply Qle_shift_div_l; lra. }
  apply Qplus_le_compat; [assumption | apply Qle_refl].
Qed.

Variables Math_cos Math_sin : num -> num.
Variable self : CALProjector.
Variable volume : VoxelVolume.
Local Abbreviation n := (volumeSize self).
Local Abbreviation M := (numProjections self).

Hypothesis Hcubic : cubic n volume.
Hypothesis Hunit : Forall (JS.within 0 1) (flat2 volume).
Hypothesis Hout : kernelOutput self = n.
Hypothesis Hn : (0 < n)%nat.
Hypothesis HM : (0 < M)%nat.

(** The outcome of a run over cells of [[0, 1]]: [M] projections with
    their angles, n-by-n images with pixels in [[0, 255]], each pixel the
    rescaled value of the kernel function, for a global minimum 0 and a
    global maximum [b]. *)
Lemma run_normalized :
  exists self' ps a b,
    generateProjections Math_cos Math_sin self volume = Some (self', ps) /\
    length ps = M /\
    a == 0 /\ 0 <= b /\ b < (14 # 10) * sideQ n + (1 # 2) /\
    (forall i, (i < M)%nat ->
       exists p, nth_error ps i = Some p /\ angle p = angleOf i M /\
                 square n (data p)) /\
    (forall i v u, (i < M)%nat -> (v < n)%nat -> (u < n)%nat ->
       exists r,
         radonPixel Math_cos Math_sin (inputOf n volume) (angleOf i M) n u v
         = Some (Fin r) /\
         0 <= r /\ r <= b /\
         pixel ps i v u
         = Some (rescale (Fin a) (JS.or_else (Fin (Qred (b - a))) (Fin 1))
                   (Fin r))) /\
    Forall (JS.within 0 255) (pixels ps).
Proof.
  destruct (run_raw Math_cos Math_sin self Hcubic Hunit Hout Hn HM)
    as (raw & a & b & Eraw & Hlen & Es & Ha & Hb0 & Hb1 & Hshape & Hpix
        & Hfin & Hne).
  destruct (generateProjections_spec Math_cos Math_sin self Hcubic)
    as (raw' & Eraw' & Egen).
  rewrite Eraw in Eraw'. injection Eraw' as <-.
  assert (Eres : rescaleOf raw
                 = rescale (Fin a)
                     (JS.or_else (Fin (Qred (b - a))) (Fin 1))).
  { unfold rescaleOf. rewrite Es. reflexivity. }
  eexists. eexists. exists a, b. split; [exact Egen|].
  split; [rewrite length_map; exact Hlen|].
  split; [exact Ha|]. split; [exact Hb0|]. split; [exact Hb1|].
  split; [|split].
  - intros i Hi. destruct (Hshape i Hi) as (p & Ep & Ea & Hlen' & Hrows).
    eexists. split; [rewrite nth_error_map, Ep; reflexivity|].
    cbn [angle data]. split; [exact Ea|].
    split; [rewrite length_map; exact Hlen'|].
    apply Forall_forall. intros row Hrow.
    apply in_map_iff in Hrow. destruct Hrow as (row0 & <- & Hrow0).
    rewrite length_map. rewrite Forall_forall in Hrows. auto.
  - intros i v u Hi Hv Hu.
    destruct (Hpix i v u Hi Hv Hu) as (r & Er & Ek & H0 & H1).
    exists r. repeat split; auto.
    rewrite pixel_map, Er, Eres. reflexivity.
  - pose proof (normalize_range (set_projections self raw) Hfin Hne) as Hr.
    rewrite normalize_map in Hr.
    cbn [projections set_projections] in Hr. exact Hr.
Qed.

End NormalizedRun.

(* ===================================================================== *)
(** ** The end-to-end scenario: cube, N = 64, M = 4 *)
(* ===================================================================== *)

Section CubeScenario.

Import NumFacts.
Local Open Scope Q_scope.

Lemma pixels_rows (ps : list Projection) (p : Projection) (row : list num)
    (x : num) :
  In p ps -> In row (data p) -> In x row -> In x (pixels ps).
Proof.
  intros Hp Hrow Hx. unfold pixels.
  apply in_concat. exists (concat (data p)). split.
  - apply in_map_iff. exists p. auto.
  - apply in_concat. exists row. auto.
Qed.

Lemma pixel_rows (ps : list Projection) (p : Projection) (i v u : nat)
    (x : num) :
  nth_error ps i = Some p -> pixel ps i v u = Some x ->
  exists row, nth_error (data p) v = Some row /\ nth_error row u = Some x.
Proof.
  intros Hp Hx. unfold pixel in Hx. rewrite Hp in Hx.
  destruct (nth_error (data p) v) as [row|]; [|discriminate].
  exists row. auto.
Qed.

Variables Math_cos Math_sin : num -> num.
Hypothesis Hcos : bounded_trig Math_cos.
Hypothesis Hsin : bounded_trig Math_sin.

(** The ray of the centre pixel crosses the cube at every angle. *)
Lemma cube_centre_bright (theta : Q) :
  exists r,
    radonPixel Math_cos Math_sin (inputOf 64 cube64) (Fin theta) 64 32 32
    = Some (Fin r) /\
    39 # 2 <= r.
Proof.
  assert (Hfin : JS.finite (JS.mul (Fin theta) (JS.div Math_PI (Fin 180))))
    by exact I.
  pose proof (Hcos _ Hfin) as Hc. pose proof (Hsin _ Hfin) as Hs.
  destruct (Math_cos (JS.mul (Fin theta) (JS.div Math_PI (Fin 180))))
    as [cq| | |] eqn:Ec; try contradiction.
  destruct (Math_sin (JS.mul (Fin theta) (JS.div Math_PI (Fin 180))))
    as [sq| | |] eqn:Es; try contradiction.
  simpl in Hc, Hs.
  apply cube_ray_bright with (cq := cq) (sq := sq); auto; [lia|].
  intros q Hq. change (sideQ 32) with 32. split; split; nra.
Qed.

End CubeScenario.

(** C1 (as amended): in the scenario model = cube, N = 64, M = 4, for any
    cosine and sine with values in [-1, 1], the run returns exactly 4
    projections at the angles 0, 90, 180, 270, each a 64-by-64 grid with
    every value in [0, 255] and a pixel above 0. *)
Theorem cube_scenario (Math_cos Math_sin Math_sqrt : num -> num)
    (Math_atan2 : num -> num -> num) :
  bounded_trig Math_cos -> bounded_trig Math_sin ->
  exists model self' ps,
    createTestModel Math_sqrt Math_atan2 (newCALProjector 64 4) cube
    = Some model /\
    generateProjections Math_cos Math_sin (newCALProjector 64 4) model
    = Some (self', ps) /\
    map angle ps = [Fin 0; Fin 90; Fin 180; Fin 270] /\
    Forall (fun p => square 64 (data p) /\
                     Forall (Forall (JS.within 0 255)) (data p) /\
                     lit p) ps.
Proof.
  intros Hcos Hsin. exists cube64.
  destruct (@run_normalized Math_cos Math_sin (newCALProjector 64 4) cube64
              cube64_cubic cube64_unit eq_refl)
    as (self' & ps & a & b & Egen & Hlen & Ha & Hb0 & Hb1 & Hshape & Hpix
        & Hrange); [simpl; lia | simpl; lia |].
  cbn [volumeSize numProjections newCALProjector] in *.
  change (sideQ 64) with 64%Q in Hb1.
  exists self', ps.
  split; [apply createTestModel_cube64; reflexivity|].
  split; [exact Egen|].
  split.
  - destruct ps as [|p0 [|p1 [|p2 [|p3 [|p4 ps]]]]]; try discriminate Hlen.
    destruct (Hshape 0%nat) as (q0 & E0 & A0 & _); [lia|].
    destruct (Hshape 1%nat) as (q1 & E1 & A1 & _); [lia|].
    destruct (Hshape 2%nat) as (q2 & E2 & A2 & _); [lia|].
    destruct (Hshape 3%nat) as (q3 & E3 & A3 & _); [lia|].
    cbn [nth_error] in E0, E1, E2, E3.
    injection E0 as <-. injection E1 as <-.
    injection E2 as <-. injection E3 as <-.
    cbn [map]. rewrite A0, A1, A2, A3. reflexivity.
  - apply Forall_forall. intros p Hp.
    destruct (In_nth_error _ _ Hp) as (i & Ei).
    assert (Hi : (i < 4)%nat)
      by (rewrite <- Hlen; apply nth_error_Some; congruence).
    destruct (Hshape i Hi) as (p' & Ei' & Ea & Hsq).
    rewrite Ei in Ei'. injection Ei' as <-.
    split; [exact Hsq|]. split.
    + apply Forall_forall. intros row Hrow.
      apply Forall_forall. intros x Hx.
      rewrite Forall_forall in Hrange. apply Hrange.
      apply (pixels_rows ps p row x Hp Hrow Hx).
    + destruct (Hpix i 32%nat 32%nat Hi) as (r & Er & Hr0 & Hr1 & Epx);
        try lia.
      destruct (angleOf_quadrants Hi) as (qa & Eqa).
      rewrite Eqa in Er.
      destruct (cube_centre_bright Hcos Hsin qa) as (r' & Er' & Hbright).
      rewrite Er in Er'. injection Er' as <-.
      rewrite range_pos in Epx by lra.
      destruct (@rescale_pos a (Qred (b - a)) r) as (z & Ez & Hz);
        [rewrite Qred_correct; lra | rewrite Qred_correct; lra |].
      rewrite Ez in Epx.
      destruct (pixel_rows ps i 32 32 Ei Epx) as (row & Erow & Ex).
      exists 32%nat, 32%nat, row, (inject_Z z).
      repeat split; auto.
      change 0%Q with (inject_Z 0). rewrite <- Zlt_Qlt. lia.
Qed.

(** C1, the claim as stated fails: with the exact cosine and sine of the
    quadrant angles, the projections at 0 and at 180 degrees of the cube
    scenario differ.  The pixel [data[32][19]] is above 0 at 0 degrees (the
    ray runs along the face x = 19 of the cube) and 0 at 180 degrees (the
    ray runs along x = 45, outside the cube, which fills the cells 19 to
    43 while the rotation is about 32). *)
Lemma cube_scenario_views_differ :
  exists self' ps p0 p2 r,
    createTestModel (fun a => a) (fun _ _ => JS.NaN) (newCALProjector 64 4)
      cube = Some cube64 /\
    generateProjections quadrant_cos quadrant_sin (newCALProjector 64 4)
      cube64 = Some (self', ps) /\
    nth_error ps 0 = Some p0 /\ angle p0 = Fin 0 /\
    nth_error ps 2 = Some p2 /\ angle p2 = Fin 180 /\
    pixel ps 0 32 19 = Some (Fin r) /\ (0 < r)%Q /\
    pixel ps 2 32 19 = Some (Fin 0) /\
    data p0 <> data p2.
Proof.
  destruct (@run_normalized quadrant_cos quadrant_sin (newCALProjector 64 4)
              cube64 cube64_cubic cube64_unit eq_refl)
    as (self' & ps & a & b & Egen & Hlen & Ha & Hb0 & Hb1 & Hshape & Hpix
        & Hrange); [simpl; lia | simpl; lia |].
  cbn [volumeSize numProjections newCALProjector] in *.
  change (sideQ 64) with 64%Q in Hb1.
  destruct (Hshape 0%nat) as (p0 & E0 & A0 & _); [lia|].
  destruct (Hshape 2%nat) as (p2 & E2 & A2 & _); [lia|].
  destruct (Hpix 0%nat 32%nat 19%nat) as (r0 & Er0 & _ & Hr0 & Epx0);
    try lia.
  destruct (Hpix 2%nat 32%nat 19%nat) as (r2 & Er2 & _ & _ & Epx2);
    try lia.
  (* the bright ray at 0 degrees *)
  destruct (@cube_ray_bright quadrant_cos quadrant_sin (angleOf 0 4) 19 32
              1 0) as (r0' & Er0' & Hbright);
    [reflexivity | reflexivity | lia | | ].
  { intros q Hq. change (sideQ 19) with 19%Q. split; split; lra. }
  rewrite Er0 in Er0'. injection Er0' as <-.
  (* the dark ray at 180 degrees *)
  rewrite (@cube_ray_dark quadrant_cos quadrant_sin (angleOf 2 4) 19 32
             (-1) 0) in Er2;
    [| reflexivity | reflexivity
     | intro q; change (sideQ 19) with 19%Q; lra].
  injection Er2 as <-.
  rewrite range_pos in Epx0, Epx2 by lra.
  destruct (@rescale_pos a (Qred (b - a)) r0) as (z & Ez & Hz);
    [rewrite Qred_correct; lra | rewrite Qred_correct; lra |].
  rewrite Ez in Epx0.
  rewrite rescale_low in Epx2;
    [| rewrite Qred_correct; lra | symmetry; exact Ha].
  exists self', ps, p0, p2, (inject_Z z).
  split; [apply createTestModel_cube64; reflexivity|].
  split; [exact Egen|].
  split; [exact E0|]. split; [exact A0|].
  split; [exact E2|]. split; [exact A2|].
  split; [exact Epx0|].
  split; [change 0%Q with (inject_Z 0); rewrite <- Zlt_Qlt; lia|].
  split; [exact Epx2|].
  intro Heq.
  destruct (pixel_rows ps 0 32 19 E0 Epx0) as (row0 & Erow0 & Ex0).
  destruct (pixel_rows ps 2 32 19 E2 Epx2) as (row2 & Erow2 & Ex2).
  rewrite Heq, Erow2 in Erow0. injection Erow0 as <-.
  rewrite Ex2 in Ex0. injection Ex0 as Hz0. lia.
Qed.

(** C2, the claim as stated fails: with the range [max(max - min, 1)] the
    pixels 0 and 1/2 of a one-projection set are rescaled to 0 and 128; the
    Normalizer rescales them to 0 and 255, its range being
    [(max - min) || 1 = 1/2]. *)
Lemma normalizer_range_is_not_max :
  let self :=
    mkCALProjector 2 1 [mkProjection (Fin 0) [[Fin 0; Fin (1 # 2)]]] 2 in
  pixels (projections (normalizeProjections self)) = [Fin 0; Fin 255] /\
  pixels (normalizer rangeMax (projections self)) = [Fin 0; Fin 128] /\
  projections (normalizeProjections self)
  <> normalizer rangeMax (projections self).
Proof.
  cbv zeta. split; [vm_compute; reflexivity|].
  split; [vm_compute; reflexivity|].
  intro H. apply (f_equal pixels) in H. vm_compute in H. discriminate H.
Qed.

(** C4, the claim as stated fails: on the mesh with no vertex and on a
    mesh of one vertex the voxelizer signals nothing and returns the
    all-zero grid; on the one-vertex mesh the scale it divides out is
    [51.2 / 0 = Infinity]. *)
Lemma meshToVoxels_returns_empty_grid :
  meshToVoxels (mkMesh [] []) 64 = Some (zeros 64) /\
  meshToVoxels (mkMesh [[Fin 1; Fin 2; Fin 3]] [[Fin 0; Fin 0; Fin 0]]) 64
  = Some (zeros 64) /\
  meshExtent (mkMesh [[Fin 1; Fin 2; Fin 3]] [[Fin 0; Fin 0; Fin 0]])
  = [Fin 0; Fin 0; Fin 0] /\
  meshScale 64 [Fin 0; Fin 0; Fin 0] = JS.PInf.
Proof.
  split; [reflexivity|]. split; [vm_compute; reflexivity|].
  split; reflexivity.
Qed.

(** C5, the claim as stated fails: 44 lies in the interval
    [round((N - 0.4 N) / 2), round((N - 0.4 N) / 2) + 0.4 N) = [19, 44.6)
    of the specification, and the cell (44, 44, 44) of the cube model at
    N = 64 is not occupied. *)
Lemma cube_fixture_boundary :
  fixtureLow 64 = Fin 19 /\ fixtureHigh 64 = Fin (223 # 5) /\
  inFixture 64 44 = true /\
  createTestModel (fun a => a) (fun _ _ => JS.NaN) (newCALProjector 64 4)
    cube = Some cube64 /\
  cell cube64 44 44 44 = Some (Fin 0).
Proof.
  split; [reflexivity|]. split; [reflexivity|]. split; [reflexivity|].
  split; [apply createTestModel_cube64; reflexivity|].
  rewrite cube64_cell by lia. reflexivity.
Qed.

(* ===================================================================== *)
(** ** The Normalizer on objects *)
(* ===================================================================== *)

Section StoreFacts2.

Import Store.
Local Open Scope nat_scope.

Lemma update_nth (A : Type) (f : A -> option A) (xs : list A) :
  forall i ys, update xs i f = Some ys ->
    length ys = length xs /\
    (forall j, j <> i -> nth_error ys j = nth_error xs j) /\
    exists x y, nth_error xs i = Some x /\ f x = Some y /\
                nth_error ys i = Some y.
Proof.
  induction xs as [|x xs IH]; intros i ys H; [destruct i; discriminate|].
  destruct i as [|i]; cbn [update] in H.
  - destruct (f x) as [y|] eqn:E; [|discriminate]. injection H as <-.
    split; [reflexivity|]. split.
    + intros [|j] Hj; [congruence | reflexivity].
    + exists x, y. auto.
  - destruct (update xs i f) as [ys'|] eqn:E; [|discriminate].
    injection H as <-. destruct (IH i ys' E) as (Hlen & Hother & Hat).
    split; [simpl; congruence|]. split.
    + intros [|j] Hj; [reflexivity|]. simpl. apply Hother. congruence.
    + exact Hat.
Qed.

Lemma update_defined (A : Type) (f : A -> option A) (xs : list A) (i : nat)
    (x y : A) :
  nth_error xs i = Some x -> f x = Some y ->
  exists ys, update xs i f = Some ys.
Proof.
  revert i. induction xs as [|x0 xs IH]; intros i Hx Hy;
    [destruct i; discriminate|].
  destruct i as [|i]; cbn [update nth_error] in *.
  - injection Hx as ->. rewrite Hy. eauto.
  - destruct (IH i Hx Hy) as (ys & ->). eauto.
Qed.

(** The first pass on references is the first pass on the objects they
    show. *)
Lemma scanRefs_view (heap : Heap) (refs : list Ref) :
  forall ps acc, view heap refs = Some ps ->
    for_each (fun acc r =>
                proj <- deref heap r ;;
                Some (fold_left
                        (fun acc row => fold_left scanValue row acc)
                        (data proj) acc)) refs acc
    = Some (fold_left (fun acc proj =>
              fold_left (fun acc row => fold_left scanValue row acc)
                (data proj) acc) ps acc).
Proof.
  unfold view. induction refs as [|r refs IH]; intros ps acc H;
    cbn [traverse for_each] in *.
  - injection H as <-. reflexivity.
  - destruct (deref heap r) as [p|]; [|discriminate].
    destruct (traverse (deref heap) refs) as [ps'|] eqn:E; [|discriminate].
    injection H as <-. cbn [fold_left]. apply IH. reflexivity.
Qed.

(** The second pass over distinct references rewrites each object they
    point to once, and no other. *)
Lemma rescaleRefs_spec (mn range : num) (refs : list Ref) :
  forall heap, NoDup refs -> (forall r, In r refs -> r < length heap) ->
    exists heap',
      rescaleRefs mn range heap refs = Some heap' /\
      length heap' = length heap /\
      (forall r, ~ In r refs -> nth_error heap' r = nth_error heap r) /\
      (forall r, In r refs ->
         exists p, nth_error heap r = Some p /\
           nth_error heap' r
           = Some (mkProjection (angle p)
                     (map (map (rescale mn range)) (data p)))).
Proof.
  unfold rescaleRefs.
  induction refs as [|r refs IH]; intros heap Hnd Hvalid; cbn [for_each].
  - exists heap. repeat split; auto. intros r [].
  - inversion Hnd as [|? ? Hnotin Hnd']; subst.
    assert (Hr : r < length heap) by (apply Hvalid; left; reflexivity).
    destruct (nth_error heap r) as [p|] eqn:Ep;
      [|apply nth_error_None in Ep; lia].
    destruct (@update_defined _
                (fun proj => Some (mkProjection (angle proj)
                   (map (fun row => map (rescale mn range) row)
                      (data proj)))) heap r p _ Ep eq_refl) as (h1 & E1).
    rewrite E1.
    destruct (update_nth _ _ _ E1) as (Hlen1 & Hother1 & x & y & Ex & Ey & Eat).
    rewrite Ep in Ex. injection Ex as <-. injection Ey as <-.
    destruct (IH h1 Hnd') as (heap' & E' & Hlen' & Hout' & Hin').
    { intros r' Hr'. rewrite Hlen1. apply Hvalid. right. exact Hr'. }
    exists heap'. split; [exact E'|]. split; [congruence|]. split.
    + intros r' Hr'. rewrite Hout' by (intro; apply Hr'; right; assumption).
      apply Hother1. intro; subst. apply Hr'. left. reflexivity.
    + intros r' [<- | Hr'].
      * exists p. split; [exact Ep|].
        rewrite Hout' by exact Hnotin. exact Eat.
      * destruct (Hin' r' Hr') as (p' & Ep' & Eq').
        rewrite Hother1 in Ep' by (intro; subst; contradiction).
        exists p'. auto.
Qed.

Lemma view_defined (heap : Heap) (refs : list Ref) :
  (forall r, In r refs -> r < length heap) ->
  exists ps, view heap refs = Some ps.
Proof.
  intro H. apply traverse_total. intros r Hr.
  destruct (nth_error heap r) as [p|] eqn:E; [eauto|].
  apply nth_error_None in E. specialize (H r Hr). lia.
Qed.

Lemma view_map (heap heap' : Heap) (refs : list Ref) (g : Projection -> Projection) :
  forall ps, view heap refs = Some ps ->
    (forall r, In r refs ->
       exists p, nth_error heap r = Some p /\ nth_error heap' r = Some (g p)) ->
    view heap' refs = Some (map g ps).
Proof.
  unfold view, deref. induction refs as [|r refs IH]; intros ps Hv Hg;
    cbn [traverse] in *.
  - injection Hv as <-. reflexivity.
  - destruct (Hg r (or_introl eq_refl)) as (p & Ep & Ep').
    rewrite Ep in Hv. rewrite Ep'.
    match type of Hv with
    | context [traverse ?f refs] =>
        destruct (traverse f refs) as [ps'|] eqn:E; [|discriminate]
    end.
    injection Hv as <-.
    rewrite (IH ps' eq_refl) by (intros; apply Hg; right; assumption).
    reflexivity.
Qed.

(** A pushed object is new: the references stay distinct and allocated. *)
Lemma push_fresh (heap : Heap) (refs : list Ref) (p : Projection) :
  NoDup refs -> (forall r, In r refs -> r < length heap) ->
  let (heap', refs') := push heap refs p in
  NoDup refs' /\ (forall r, In r refs' -> r < length heap') /\
  (forall r, r < length heap -> nth_error heap' r = nth_error heap r).
Proof.
  intros Hnd Hvalid. unfold push, alloc. split; [|split].
  - apply NoDup_app; [exact Hnd | repeat constructor; intros [] |].
    intros r Hr [<- | []]. specialize (Hvalid _ Hr). lia.
  - intros r Hr. rewrite length_app. simpl.
    apply in_app_or in Hr. destruct Hr as [Hr | [<- | []]];
      [specialize (Hvalid _ Hr)|]; lia.
  - intros r Hr. apply nth_error_app1. exact Hr.
Qed.

End StoreFacts2.

(** C8: the Normalizer rewrites in place, once, the grid of each
    Projection object of the set, and changes nothing else: the array of
    references (the number of projections and their order) is the one it
    was given, every object keeps its angle, every other object of the
    store is untouched, and the set it leaves is the value-level
    Normalizer of the set it found: each grid mapped once by the one
    rescale of the set.  The references are distinct, as those of pushed
    objects are. *)
Theorem normalize_in_place (heap : Store.Heap) (refs : list Store.Ref)
    (self : CALProjector) :
  NoDup refs -> (forall r, In r refs -> (r < length heap)%nat) ->
  Store.view heap refs = Some (projections self) ->
  exists heap',
    Store.normalizeProjections heap refs = Some heap' /\
    length heap' = length heap /\
    (forall r, ~ In r refs -> nth_error heap' r = nth_error heap r) /\
    (forall r, In r refs ->
       exists p p', nth_error heap r = Some p /\
         nth_error heap' r = Some p' /\ angle p' = angle p /\
         data p' = map (map (rescaleOf (projections self))) (data p)) /\
    Store.view heap' refs = Some (projections (normalizeProjections self)) /\
    map angle (projections (normalizeProjections self))
    = map angle (projections self) /\
    length (projections (normalizeProjections self))
    = length (projections self).
Proof.
  intros Hnd Hvalid Hview.
  unfold Store.normalizeProjections, Store.scanRefs.
  rewrite (scanRefs_view heap refs _ Hview).
  fold (scanProjections (projections self)).
  destruct (scanProjections (projections self)) as [mn mx] eqn:Es.
  destruct (@rescaleRefs_spec mn (JS.or_else (JS.sub mx mn) (Fin 1)) refs
              heap Hnd Hvalid)
    as (heap' & E & Hlen & Hout & Hin).
  assert (Ef : rescaleOf (projections self)
               = rescale mn (JS.or_else (JS.sub mx mn) (Fin 1))).
  { unfold rescaleOf. rewrite Es. reflexivity. }
  exists heap'. split; [exact E|]. split; [exact Hlen|].
  split; [exact Hout|]. split; [|split; [|split]].
  - intros r Hr. destruct (Hin r Hr) as (p & Ep & Ep').
    exists p. eexists. split; [exact Ep|]. split; [exact Ep'|].
    cbn [angle data]. rewrite Ef. auto.
  - rewrite normalize_map, Ef.
    apply (@view_map heap heap' refs
             (fun p => mkProjection (angle p)
                (map (map (rescale mn (JS.or_else (JS.sub mx mn) (Fin 1))))
                   (data p))) _ Hview Hin).
  - rewrite normalize_map, map_map. reflexivity.
  - rewrite normalize_map. apply length_map.
Qed.

(** The references must be distinct: an object listed twice is rescaled
    twice. *)
Example aliased_object_rescaled_twice :
  let p := mkProjection (Fin 0) [[Fin 0; Fin (1 # 2)]] in
  option_map (map data) (Store.normalizeProjections [p] [0; 0]%nat)
  = Some [[[Fin 0; Fin 130050]]] /\
  option_map (map data) (Store.normalizeProjections [p] [0]%nat)
  = Some [[[Fin 0; Fin 255]]].
Proof. split; vm_compute; reflexivity. Qed.

(* ===================================================================== *)
(** ** The statements at concrete inputs *)
(* ===================================================================== *)

Lemma quadrant_bounded (table : list (num * num)) :
  Forall (fun e => JS.within (-1) 1 (snd e)) table ->
  bounded_trig (quadrant table).
Proof.
  intros Htab [q| | |] Hfin; try contradiction. unfold quadrant.
  destruct (find _ table) as [e|] eqn:E.
  - apply find_some in E. destruct E as [Hin _].
    rewrite Forall_forall in Htab. apply Htab. exact Hin.
  - simpl. split; discriminate.
Qed.

Lemma quadrant_cos_bounded : bounded_trig quadrant_cos.
Proof.
  apply quadrant_bounded. repeat constructor; simpl; discriminate.
Qed.

Lemma quadrant_sin_bounded : bounded_trig quadrant_sin.
Proof.
  apply quadrant_bounded. repeat constructor; simpl; discriminate.
Qed.

Lemma cube_scenario_witness :
  bounded_trig quadrant_cos /\ bounded_trig quadrant_sin /\
  exists model self' ps,
    createTestModel (fun a => a) (fun _ _ => JS.NaN) (newCALProjector 64 4)
      cube = Some model /\
    generateProjections quadrant_cos quadrant_sin (newCALProjector 64 4)
      model = Some (self', ps) /\
    map angle ps = [Fin 0; Fin 90; Fin 180; Fin 270] /\
    Forall (fun p => square 64 (data p) /\
                     Forall (Forall (JS.within 0 255)) (data p) /\
                     lit p) ps.
Proof.
  split; [exact quadrant_cos_bounded|].
  split; [exact quadrant_sin_bounded|].
  exact (cube_scenario (fun a => a) (fun _ _ => JS.NaN)
           quadrant_cos_bounded quadrant_sin_bounded).
Defined.

Lemma normalizer_refines_or_range_witness :
  Forall (fun v => v <> JS.NaN)
    (pixels (projections (mkCALProjector 2 2 twoViews 2))) /\
  projections (normalizeProjections (mkCALProjector 2 2 twoViews 2))
  = normalizer rangeOr twoViews.
Proof.
  assert (H : Forall (fun v => v <> JS.NaN)
                (pixels (projections (mkCALProjector 2 2 twoViews 2))))
    by (repeat constructor; discriminate).
  split; [exact H|].
  exact (normalizer_refines_or_range (mkCALProjector 2 2 twoViews 2) H).
Defined.

Lemma normalize_extremes_witness :
  Forall JS.finite (pixels twoViews) /\ pixels twoViews <> [] /\
  ((exists v w, In v (pixels twoViews) /\ In w (pixels twoViews) /\
                ~ same v w) ->
   In (Fin 0)
     (pixels (projections
                (normalizeProjections (mkCALProjector 2 2 twoViews 2)))) /\
   In (Fin 255)
     (pixels (projections
                (normalizeProjections (mkCALProjector 2 2 twoViews 2)))) /\
   Forall (JS.within 0 255)
     (pixels (projections
                (normalizeProjections (mkCALProjector 2 2 twoViews 2))))) /\
  ((forall v w, In v (pixels twoViews) -> In w (pixels twoViews) ->
                same v w) ->
   Forall (fun v => v = Fin 0)
     (pixels (projections
                (normalizeProjections (mkCALProjector 2 2 twoViews 2))))).
Proof.
  assert (Hf : Forall JS.finite
                 (pixels (projections (mkCALProjector 2 2 twoViews 2))))
    by (repeat constructor).
  assert (Hne : pixels (projections (mkCALProjector 2 2 twoViews 2)) <> [])
    by discriminate.
  split; [exact Hf|]. split; [exact Hne|].
  exact (normalize_extremes (mkCALProjector 2 2 twoViews 2) Hf Hne).
Defined.

Lemma meshToVoxels_degenerate_witness :
  (vertices pointMesh = [] \/ meshExtent pointMesh = [Fin 0; Fin 0; Fin 0]) /\
  meshToVoxels pointMesh 8 = Some (zeros 8).
Proof.
  assert (H : vertices pointMesh = [] \/
              meshExtent pointMesh = [Fin 0; Fin 0; Fin 0])
    by (right; reflexivity).
  split; [exact H|].
  exact (meshToVoxels_degenerate pointMesh 8 H).
Defined.

Lemma cube_fixture_cells_witness :
  volumeSize (newCALProjector 64 4) = 64%nat /\
  (43 < 64)%nat /\ (19 < 64)%nat /\ (30 < 64)%nat /\
  exists model,
    createTestModel (fun a => a) (fun _ _ => JS.NaN) (newCALProjector 64 4)
      cube = Some model /\
    cubic 64 model /\
    cubeStart 64 = Fin 19 /\ cubeEnd 64 = Fin 44 /\
    (cell model 30 19 43 = Some (Fin 1) <->
     (19 <= 43 < 44 /\ 19 <= 19 < 44 /\ 19 <= 30 < 44)%nat) /\
    (cell model 30 19 43 = Some (Fin 1) \/ cell model 30 19 43 = Some (Fin 0)).
Proof.
  split; [reflexivity|]. split; [lia|]. split; [lia|]. split; [lia|].
  apply (cube_fixture_cells (fun a => a) (fun _ _ => JS.NaN)
           (newCALProjector 64 4) (x := 43) (y := 19) (z := 30));
    [reflexivity | lia | lia | lia].
Defined.

Lemma block4_cubic : cubic 4 block4.
Proof. exact (boxGrid_cubic [false; true; true; false]). Qed.

Lemma block4_unit : Forall (JS.within 0 1) (flat2 block4).
Proof. vm_compute. repeat constructor; discriminate. Qed.

Lemma outside_samples_add_nothing_witness :
  cubic 4 block4 /\
  (forall (any : Input) cosTheta sinTheta uCentered vCentered center t acc,
     (let '(x, y, z) :=
        samplePosition cosTheta sinTheta uCentered vCentered center t in
      inside (JS.of_nat 4) x y z) = false ->
     marchStep any (JS.of_nat 4) cosTheta sinTheta uCentered vCentered
       center t acc = Some acc) /\
  (forall z y x c, read (inputOf 4 block4) z y x = Some c ->
     exists k j i,
       JS.index z = Some k /\ JS.index y = Some j /\ JS.index x = Some i /\
       (k < 4)%nat /\ (j < 4)%nat /\ (i < 4)%nat) /\
  (forall u v, exists r,
     radonPixel quadrant_cos quadrant_sin (inputOf 4 block4) (Fin 90) 4 u v
     = Some r) /\
  (Forall (fun c => c = Fin 0) (flat2 block4) ->
   forall out,
     radonKernel quadrant_cos quadrant_sin out (inputOf 4 block4) (Fin 90) 4
     = Some (repeat (repeat (Fin 0) out) out)).
Proof.
  split; [exact block4_cubic|].
  exact (outside_samples_add_nothing quadrant_cos quadrant_sin (Fin 90)
           block4_cubic).
Defined.



Lemma normalize_in_place_witness :
  NoDup [1; 0]%nat /\
  (forall r, In r [1; 0]%nat -> (r < length (rev twoViews))%nat) /\
  Store.view (rev twoViews) [1; 0]%nat
  = Some (projections (mkCALProjector 2 2 twoViews 2)) /\
  exists heap',
    Store.normalizeProjections (rev twoViews) [1; 0]%nat = Some heap' /\
    length heap' = length (rev twoViews) /\
    (forall r, ~ In r [1; 0]%nat ->
       nth_error heap' r = nth_error (rev twoViews) r) /\
    (forall r, In r [1; 0]%nat ->
       exists p p', nth_error (rev twoViews) r = Some p /\
         nth_error heap' r = Some p' /\ angle p' = angle p /\
         data p' = map (map (rescaleOf twoViews)) (data p)) /\
    Store.view heap' [1; 0]%nat
    = Some (projections
              (normalizeProjections (mkCALProjector 2 2 twoViews 2))) /\
    map angle (projections
                 (normalizeProjections (mkCALProjector 2 2 twoViews 2)))
    = map angle twoViews /\
    length (projections
              (normalizeProjections (mkCALProjector 2 2 twoViews 2)))
    = length twoViews.
Proof.
  assert (Hnd : NoDup [1; 0]%nat).
  { repeat constructor; simpl; intuition discriminate. }
  assert (Hvalid : forall r, In r [1; 0]%nat ->
                             (r < length (rev twoViews))%nat).
  { intros r [<- | [<- | []]]; simpl; lia. }
  split; [exact Hnd|]. split; [exact Hvalid|]. split; [reflexivity|].
  exact (normalize_in_place (rev twoViews)
           (mkCALProjector 2 2 twoViews 2) Hnd Hvalid eq_refl).
Defined.

Lemma radon_pixel_bounded_witness :
  cubic 4 block4 /\ Forall (JS.within 0 1) (flat2 block4) /\
  (forall x y z, inside (JS.of_nat 4) x y z = true ->
     exists c, interpolate (inputOf 4 block4) x y z = Some c /\
               JS.within 0 1 c) /\
  exists r k,
    radonPixel quadrant_cos quadrant_sin (inputOf 4 block4) (Fin 90) 4 1 2
    = Some (Fin r) /\
    marchSteps 4 = Some k /\
    (0 <= r)%Q /\
    (r <= (1 # 2) * inject_Z (Z.of_nat k))%Q /\
    ((1 # 2) * inject_Z (Z.of_nat k) <= (14 # 10) * sideQ 4 + (1 # 2))%Q.
Proof.
  split; [exact block4_cubic|]. split; [exact block4_unit|].
  exact (radon_pixel_bounded quadrant_cos quadrant_sin (Fin 90) 1 2
           block4_cubic block4_unit).
Defined.

(** The small inputs run: the block is seen from the side, and the two
    views are normalised. *)
Example block4_pixel :
  radonPixel quadrant_cos quadrant_sin (inputOf 4 block4) (Fin 90) 4 1 2
  = Some (Fin 2) /\ marchSteps 4 = Some 12%nat.
Proof. split; vm_compute; reflexivity. Qed.

Example twoViews_normalized :
  map data (projections (normalizeProjections (mkCALProjector 2 2 twoViews 2)))
  = [[[Fin 0; Fin 43]; [Fin 255; Fin 85]];
     [[Fin 170; Fin 0]; [Fin 213; Fin 85]]].
Proof. vm_compute. reflexivity. Qed.

(* ===================================================================== *)
(** ** The constants in binary64 *)
(* ===================================================================== *)

Section Binary64Facts.

Import Floats.
Local Open Scope float_scope.

(** In doubles the cube of the 64-grid starts at 19.2 and ends at 44.8 up
    to rounding: the loops run over the cells 19 to 43, as in the rational
    model. *)
Example binary64_cube_bounds :
  let (start, end_) := Binary64.cubeBounds 64 in
  Binary64.floors_to start 19 = true /\ Binary64.floors_to end_ 44 = true.
Proof. split; vm_compute; reflexivity. Qed.

(** In doubles the march over a 64-grid takes the 180 steps of the
    rational model. *)
Example binary64_march_count :
  Binary64.marchCount 200 64 = Some 180%nat /\
  marchSteps 64%nat = Some 180%nat.
Proof. split; vm_compute; reflexivity. Qed.

(** In doubles the pixel 0.5 of the set {0, 0.5} is scaled to 255 by the
    range 0.5 and to 127.5 by the range 1; the quadrant angles are exact;
    and a zero extent gives the scale [51.2 / 0 = Infinity], whose
    product with 0 is [NaN]. *)
Example binary64_constants :
  Binary64.scaled 0 0.5 0.5 = 255 /\
  Binary64.scaled 0 1 0.5 = 127.5 /\
  (1 / 4 * 360 = 90 /\ 2 / 4 * 360 = 180 /\ 3 / 4 * 360 = 270) /\
  64 * 0x1.999999999999ap-1 / 0 = infinity /\
  is_nan (0 * (64 * 0x1.999999999999ap-1 / 0)) = true.
Proof. repeat split; vm_compute; reflexivity. Qed.

End Binary64Facts.

(* ===================================================================== *)
(** ** parseBinary: the running offset against direct access *)
(* ===================================================================== *)

Section BinaryFacts.

Local Open Scope nat_scope.

Variable buffer : ArrayBuffer.

Lemma bytesAt_spec (offset len : nat) :
  0 < len ->
  DataView.bytesAt buffer offset len =
  if offset + len <=? length buffer
  then Some (firstn len (skipn offset buffer)) else None.
Proof.
  intro Hlen. unfold DataView.bytesAt.
  rewrite length_firstn, length_skipn.
  destruct (Nat.leb_spec (offset + len) (length buffer));
    destruct (Nat.eqb_spec (Nat.min len (length buffer - offset)) len);
    first [reflexivity | exfalso; lia].
Qed.

Lemma getFloat32_spec (offset : nat) :
  DataView.getFloat32 buffer offset =
  if offset + 4 <=? length buffer
  then Some (DataView.float32
               (DataView.littleEndian (firstn 4 (skipn offset buffer))))
  else None.
Proof.
  unfold DataView.getFloat32, DataView.getUint32.
  rewrite bytesAt_spec by lia.
  destruct (offset + 4 <=? length buffer); reflexivity.
Qed.

(** Three coordinates are read exactly when twelve bytes are there. *)
Lemma vertexAt_defined (offset : nat) :
  offset + 12 <= length buffer ->
  exists v, vertexAt buffer offset = Some v /\ length v = 3.
Proof.
  intro H. unfold vertexAt. rewrite !getFloat32_spec.
  destruct (Nat.leb_spec (offset + 4) (length buffer)); [|lia].
  destruct (Nat.leb_spec (offset + 4 + 4) (length buffer)); [|lia].
  destruct (Nat.leb_spec (offset + 8 + 4) (length buffer)); [|lia].
  eexists. split; reflexivity.
Qed.

Lemma vertexAt_short (offset : nat) :
  length buffer < offset + 12 -> vertexAt buffer offset = None.
Proof.
  intro H. unfold vertexAt. rewrite !getFloat32_spec.
  destruct (Nat.leb_spec (offset + 8 + 4) (length buffer)); [lia|].
  destruct (offset + 4 <=? length buffer); [|reflexivity].
  destruct (offset + 4 + 4 <=? length buffer); reflexivity.
Qed.

Lemma vertexAt_length (offset : nat) (v : list num) :
  vertexAt buffer offset = Some v -> length v = 3.
Proof.
  unfold vertexAt.
  destruct (DataView.getFloat32 buffer offset); [|discriminate].
  destruct (DataView.getFloat32 buffer (offset + 4)); [|discriminate].
  destruct (DataView.getFloat32 buffer (offset + 8)); [|discriminate].
  intros [= <-]. reflexivity.
Qed.

Lemma binaryVertex_spec vertices triangle offset j :
  binaryVertex buffer (vertices, triangle, offset) j =
  match vertexAt buffer offset with
  | Some v =>
      Some (vertices ++ [v], triangle ++ [JS.of_nat (length vertices)],
            offset + 12)
  | None => None
  end.
Proof.
  unfold binaryVertex, vertexAt.
  destruct (DataView.getFloat32 buffer offset); [|reflexivity].
  destruct (DataView.getFloat32 buffer (offset + 4)); [|reflexivity].
  destruct (DataView.getFloat32 buffer (offset + 8)); [|reflexivity].
  rewrite length_app. cbn [length].
  replace (length vertices + 1 - 1) with (length vertices) by lia.
  reflexivity.
Qed.

Lemma binaryTriangle_spec vertices triangles offset i :
  binaryTriangle buffer (vertices, triangles, offset) i =
  match vertexAt buffer (offset + 12), vertexAt buffer (offset + 24),
        vertexAt buffer (offset + 36) with
  | Some a, Some b, Some c =>
      Some (vertices ++ [a; b; c],
            triangles ++ [[JS.of_nat (length vertices);
                           JS.of_nat (length vertices + 1);
                           JS.of_nat (length vertices + 2)]],
            offset + 50)
  | _, _, _ => None
  end.
Proof.
  unfold binaryTriangle. cbn [seq for_each].
  rewrite binaryVertex_spec.
  destruct (vertexAt buffer (offset + 12)) as [a|]; [|reflexivity].
  rewrite binaryVertex_spec.
  replace (offset + 12 + 12) with (offset + 24) by lia.
  destruct (vertexAt buffer (offset + 24)) as [b|]; [|reflexivity].
  rewrite binaryVertex_spec.
  replace (offset + 24 + 12) with (offset + 36) by lia.
  destruct (vertexAt buffer (offset + 36)) as [c|]; [|reflexivity].
  rewrite !length_app. cbn [length app].
  rewrite <- !app_assoc. cbn [app].
  replace (offset + 36 + 12 + 2) with (offset + 50) by lia.
  replace (length vertices + 1 + 1) with (length vertices + 2) by lia.
  reflexivity.
Qed.

Lemma coordOffset_vertex (i j : nat) :
  j < 3 -> coordOffset (3 * i + j) 0 = 84 + 50 * i + 12 + 12 * j.
Proof.
  intro Hj. unfold coordOffset.
  replace ((3 * i + j) / 3) with i
    by (apply Nat.div_unique with j; lia).
  replace ((3 * i + j) mod 3) with j
    by (apply Nat.mod_unique with i; lia).
  lia.
Qed.

(** The loop from triangle [i] on, for [n] triangles. *)
Lemma binaryLoop (n : nat) :
  forall i vertices triangles,
    length vertices = 3 * i ->
    for_each (binaryTriangle buffer) (seq i n)
      (vertices, triangles, 84 + 50 * i) =
    match traverse (fun k => vertexAt buffer (coordOffset k 0))
            (seq (3 * i) (3 * n)) with
    | Some vs =>
        Some (vertices ++ vs, triangles ++ map triangleOf (seq i n),
              84 + 50 * (i + n))
    | None => None
    end.
Proof.
  induction n as [|n IH]; intros i vertices triangles Hlen.
  - cbn. rewrite !app_nil_r. do 3 f_equal. lia.
  - replace (3 * S n) with (S (S (S (3 * n)))) by lia.
    cbn [seq for_each traverse].
    rewrite binaryTriangle_spec.
    pose proof (coordOffset_vertex i (j := 0)) as E0.
    pose proof (coordOffset_vertex i (j := 1)) as E1.
    pose proof (coordOffset_vertex i (j := 2)) as E2.
    replace (3 * i + 0) with (3 * i) in E0 by lia.
    replace (3 * i + 1) with (S (3 * i)) in E1 by lia.
    replace (3 * i + 2) with (S (S (3 * i))) in E2 by lia.
    rewrite E0, E1, E2 by lia.
    replace (84 + 50 * i + 12 + 12 * 0) with (84 + 50 * i + 12) by lia.
    replace (84 + 50 * i + 12 + 12 * 1) with (84 + 50 * i + 24) by lia.
    replace (84 + 50 * i + 12 + 12 * 2) with (84 + 50 * i + 36) by lia.
    destruct (vertexAt buffer (84 + 50 * i + 12)) as [a|]; [|reflexivity].
    destruct (vertexAt buffer (84 + 50 * i + 24)) as [b|]; [|reflexivity].
    destruct (vertexAt buffer (84 + 50 * i + 36)) as [c|]; [|reflexivity].
    replace (84 + 50 * i + 50) with (84 + 50 * S i) by lia.
    rewrite IH by (rewrite length_app; cbn [length]; lia).
    replace (S (S (S (3 * i)))) with (3 * S i) by lia.
    destruct (traverse _ (seq (3 * S i) (3 * n))) as [vs|]; [|reflexivity].
    rewrite <- !app_assoc. cbn [app map].
    unfold triangleOf at 2. rewrite Hlen.
    do 3 f_equal. lia.
Qed.

End BinaryFacts.

(** The parser with its running offset computes the mesh that direct
    access gives, and fails where direct access fails. *)
Lemma parseBinary_direct (buffer : ArrayBuffer) :
  parseBinary buffer = binaryMesh buffer.
Proof.
  unfold parseBinary, binaryMesh.
  destruct (DataView.getUint32 buffer 80) as [count|]; [|reflexivity].
  pose proof (@binaryLoop buffer (N.to_nat count) 0 [] [] eq_refl) as H.
  cbn [Nat.mul Nat.add app] in H. cbn [Nat.mul Nat.add].
  rewrite H.
  destruct (traverse _ _); reflexivity.
Qed.

Section BinaryReads.

Local Open Scope nat_scope.

Lemma bytesAt_ext (b1 b2 : ArrayBuffer) (offset len : nat) :
  0 < len ->
  (offset + len <= length b1 <-> offset + len <= length b2) ->
  (forall i, i < len ->
             nth_error b1 (offset + i) = nth_error b2 (offset + i)) ->
  DataView.bytesAt b1 offset len = DataView.bytesAt b2 offset len.
Proof.
  intros Hlen Hdef Hbytes.
  rewrite !bytesAt_spec by assumption.
  destruct (Nat.leb_spec (offset + len) (length b1)) as [H1|H1];
    destruct (Nat.leb_spec (offset + len) (length b2)) as [H2|H2];
    try reflexivity; try (exfalso; lia).
  f_equal. apply nth_error_ext. intro i.
  rewrite !nth_error_firstn, !nth_error_skipn.
  destruct (Nat.ltb_spec i len); [auto | reflexivity].
Qed.

Lemma getUint32_ext (b1 b2 : ArrayBuffer) (offset : nat) :
  (offset + 4 <= length b1 <-> offset + 4 <= length b2) ->
  (forall i, i < 4 ->
             nth_error b1 (offset + i) = nth_error b2 (offset + i)) ->
  DataView.getUint32 b1 offset = DataView.getUint32 b2 offset.
Proof.
  intros Hdef Hbytes. unfold DataView.getUint32.
  rewrite (@bytesAt_ext b1 b2 offset 4) by (assumption || lia).
  reflexivity.
Qed.

Lemma vertexAt_ext (b1 b2 : ArrayBuffer) (offset : nat) :
  (forall n, offset + n <= length b1 <-> offset + n <= length b2) ->
  (forall i, i < 12 ->
             nth_error b1 (offset + i) = nth_error b2 (offset + i)) ->
  vertexAt b1 offset = vertexAt b2 offset.
Proof.
  intros Hdef Hbytes. unfold vertexAt, DataView.getFloat32.
  rewrite (@getUint32_ext b1 b2 offset);
    [| apply Hdef | intros; apply Hbytes; lia].
  rewrite (@getUint32_ext b1 b2 (offset + 4));
    [| rewrite <- !Nat.add_assoc; apply Hdef
     | intros; rewrite <- !Nat.add_assoc; apply Hbytes; lia].
  rewrite (@getUint32_ext b1 b2 (offset + 8));
    [| rewrite <- !Nat.add_assoc; apply Hdef
     | intros; rewrite <- !Nat.add_assoc; apply Hbytes; lia].
  reflexivity.
Qed.

Lemma traverse_ext (A B : Type) (f g : A -> option B) (xs : list A) :
  (forall x, In x xs -> f x = g x) -> traverse f xs = traverse g xs.
Proof.
  induction xs as [|x xs IH]; intro H; cbn [traverse]; [reflexivity|].
  rewrite (H x (or_introl eq_refl)), IH; [reflexivity|].
  intros; apply H; right; assumption.
Qed.

(** The bytes of vertex [k] are bytes the parser looks at. *)
Lemma readsByte_vertex (k i : nat) :
  i < 12 -> readsByte (coordOffset k 0 + i) = true.
Proof.
  intro Hi. unfold readsByte, coordOffset.
  pose proof (Nat.mod_upper_bound k 3 ltac:(lia)) as Hm.
  replace ((84 + 50 * (k / 3) + 12 + 12 * (k mod 3) + 4 * 0 + i - 84) mod 50)
    with (12 + 12 * (k mod 3) + i)
    by (apply Nat.mod_unique with (k / 3); lia).
  destruct (Nat.leb_spec 84 (84 + 50 * (k / 3) + 12 + 12 * (k mod 3) + 4 * 0 + i));
    [|lia].
  destruct (Nat.leb_spec 12 (12 + 12 * (k mod 3) + i)); [|lia].
  destruct (Nat.ltb_spec (12 + 12 * (k mod 3) + i) 48); [|lia].
  apply orb_true_r.
Qed.

Lemma coordOffset_bound (k count : nat) :
  k < 3 * count -> coordOffset k 0 + 12 <= 82 + 50 * count.
Proof.
  intro Hk. unfold coordOffset.
  pose proof (Nat.mod_upper_bound k 3 ltac:(lia)) as Hm.
  pose proof (Nat.div_mod_eq k 3) as Hd.
  lia.
Qed.

Lemma coordOffset_last (count : nat) :
  0 < count -> coordOffset (3 * count - 1) 0 + 12 = 82 + 50 * count.
Proof.
  intro Hc.
  replace (3 * count - 1) with (3 * (count - 1) + 2) by lia.
  rewrite coordOffset_vertex by lia. lia.
Qed.

End BinaryReads.

(** Direct access succeeds exactly on the buffers that hold the count
    and reach the last coordinate. *)
Lemma binaryMesh_defined (buffer : ArrayBuffer) :
  (exists mesh, binaryMesh buffer = Some mesh) <->
  (exists count,
     DataView.getUint32 buffer 80 = Some count /\
     (84 <= length buffer)%nat /\
     (count = 0%N \/ (82 + 50 * N.to_nat count <= length buffer)%nat)).
Proof.
  unfold binaryMesh.
  assert (H84 : forall count, DataView.getUint32 buffer 80 = Some count ->
                              (84 <= length buffer)%nat).
  { intros count. unfold DataView.getUint32.
    rewrite bytesAt_spec by lia.
    destruct (Nat.leb_spec (80 + 4) (length buffer)); [lia | discriminate]. }
  split.
  - intros (mesh & H).
    destruct (DataView.getUint32 buffer 80) as [count|] eqn:Ec;
      [|discriminate].
    exists count. split; [reflexivity|]. split; [eauto|].
    destruct (N.eq_dec count 0) as [|Hne]; [left; assumption | right].
    destruct (traverse _ _) as [vs|] eqn:Et; [|discriminate].
    apply traverse_Forall2 in Et.
    assert (Hc : (0 < N.to_nat count)%nat) by lia.
    destruct (@Forall2_nth _ _ _ _ _ Et (3 * N.to_nat count - 1)%nat
                (3 * N.to_nat count - 1)%nat) as (v & _ & Hv).
    { rewrite nth_error_seq0 by lia. reflexivity. }
    destruct (Nat.le_gt_cases (coordOffset (3 * N.to_nat count - 1) 0 + 12)
                (length buffer)) as [Hle|Hgt].
    + rewrite coordOffset_last in Hle by assumption. exact Hle.
    + rewrite (vertexAt_short _ _ Hgt) in Hv. discriminate.
  - intros (count & Ec & _ & Hlen). rewrite Ec.
    destruct (@traverse_total _ _
                (fun k => vertexAt buffer (coordOffset k 0))
                (seq 0 (3 * N.to_nat count))) as (vs & ->); [|eauto].
    intros k Hk. apply in_seq in Hk.
    destruct Hlen as [-> | Hlen]; [simpl in Hk; lia|].
    destruct (@vertexAt_defined buffer (coordOffset k 0)) as (v & -> & _);
      [|eauto].
    pose proof (@coordOffset_bound k (N.to_nat count)). lia.
Qed.

(** X1: [parseBinary] returns a mesh exactly when the triangle count can
    be read at byte 80 (the buffer has 84 bytes) and, for a count above
    zero, the buffer reaches the last coordinate of the last triangle,
    82 + 50 * count bytes: the two attribute bytes of the last triangle
    need not be there.  On every other buffer it raises. *)
Theorem parseBinary_defined (buffer : ArrayBuffer) :
  (exists mesh, parseBinary buffer = Some mesh) <->
  (exists count,
     DataView.getUint32 buffer 80 = Some count /\
     (84 <= length buffer)%nat /\
     (count = 0%N \/ (82 + 50 * N.to_nat count <= length buffer)%nat)).
Proof.
  rewrite parseBinary_direct. apply binaryMesh_defined.
Qed.

(** X2: the mesh of a binary file of [count] triangles has 3 * count
    vertices of three coordinates each, and its triangles are the
    consecutive index triples [3k, 3k+1, 3k+2] for k below [count], in
    order. *)
Theorem parseBinary_shape (buffer : ArrayBuffer) (mesh : Mesh) (count : N) :
  parseBinary buffer = Some mesh ->
  DataView.getUint32 buffer 80 = Some count ->
  length (vertices mesh) = (3 * N.to_nat count)%nat /\
  Forall (fun v => length v = 3%nat) (vertices mesh) /\
  triangles mesh = map triangleOf (seq 0 (N.to_nat count)).
Proof.
  rewrite parseBinary_direct. unfold binaryMesh. intros H Ec.
  rewrite Ec in H.
  destruct (traverse _ _) as [vs|] eqn:Et; [|discriminate].
  injection H as <-. cbn [vertices triangles].
  apply traverse_Forall2 in Et.
  split; [|split; [|reflexivity]].
  - rewrite <- (Forall2_length Et). apply length_seq.
  - clear Ec. induction Et as [|k v ks vs Hv _ IH]; constructor; auto.
    apply (vertexAt_length _ _ Hv).
Qed.

(** X3: vertex [k] of the mesh of a binary file holds the three binary32
    values stored little-endian at byte 84 + 50 * (k / 3) + 12 +
    12 * (k mod 3) and the 4 and 8 bytes after it. *)
Theorem parseBinary_vertex (buffer : ArrayBuffer) (mesh : Mesh) (k : nat) :
  parseBinary buffer = Some mesh ->
  (k < length (vertices mesh))%nat ->
  exists x y z,
    nth_error (vertices mesh) k = Some [x; y; z] /\
    DataView.getFloat32 buffer (coordOffset k 0) = Some x /\
    DataView.getFloat32 buffer (coordOffset k 1) = Some y /\
    DataView.getFloat32 buffer (coordOffset k 2) = Some z.
Proof.
  rewrite parseBinary_direct. unfold binaryMesh. intros H Hk.
  destruct (DataView.getUint32 buffer 80) as [count|]; [|discriminate].
  destruct (traverse _ _) as [vs|] eqn:Et; [|discriminate].
  injection H as <-. cbn [vertices] in *.
  apply traverse_Forall2 in Et.
  pose proof (Forall2_length Et) as Hlen. rewrite length_seq in Hlen.
  destruct (@Forall2_nth _ _ _ _ _ Et k k) as (v & Ev & Hv).
  { rewrite nth_error_seq0 by lia. reflexivity. }
  unfold vertexAt in Hv.
  replace (coordOffset k 1) with (coordOffset k 0 + 4)%nat
    by (unfold coordOffset; lia).
  replace (coordOffset k 2) with (coordOffset k 0 + 8)%nat
    by (unfold coordOffset; lia).
  destruct (DataView.getFloat32 buffer (coordOffset k 0)) as [x|];
    [|discriminate].
  destruct (DataView.getFloat32 buffer (coordOffset k 0 + 4)) as [y|];
    [|discriminate].
  destruct (DataView.getFloat32 buffer (coordOffset k 0 + 8)) as [z|];
    [|discriminate].
  injection Hv as <-. exists x, y, z. auto.
Qed.

(** X4: the parser looks at the count and at the coordinate bytes only.
    Two buffers of one length that agree on the bytes 80..83 and, in each
    50-byte record after byte 84, on the bytes 12..47 give the same
    result: the 80-byte header, the normals and the attribute bytes are
    never read. *)
Theorem parseBinary_reads (b1 b2 : ArrayBuffer) :
  length b1 = length b2 ->
  (forall offset, readsByte offset = true ->
                  nth_error b1 offset = nth_error b2 offset) ->
  parseBinary b1 = parseBinary b2.
Proof.
  intros Hlen Hbytes. rewrite !parseBinary_direct. unfold binaryMesh.
  rewrite (@getUint32_ext b1 b2 80).
  - destruct (DataView.getUint32 b2 80) as [count|]; [|reflexivity].
    rewrite (@traverse_ext _ _
               (fun k => vertexAt b1 (coordOffset k 0))
               (fun k => vertexAt b2 (coordOffset k 0))); [reflexivity|].
    intros k _. apply vertexAt_ext.
    + intro n. rewrite Hlen. reflexivity.
    + intros i Hi. apply Hbytes. apply readsByte_vertex. exact Hi.
  - rewrite Hlen. reflexivity.
  - intros i Hi. apply Hbytes.
    do 4 (destruct i as [|i]; [reflexivity|]). lia.
Qed.

(** X5: bytes after the last triangle are ignored: a buffer that parses
    still parses, to the same mesh, with anything appended. *)
Theorem parseBinary_trailing (buffer extra : ArrayBuffer) (mesh : Mesh) :
  parseBinary buffer = Some mesh ->
  parseBinary (buffer ++ extra) = Some mesh.
Proof.
  intro H.
  rewrite parseBinary_direct in *.
  destruct (proj1 (binaryMesh_defined buffer) (ex_intro _ mesh H))
    as (count & Ec & H84 & Hlen).
  unfold binaryMesh in *.
  assert (Eu : DataView.getUint32 (buffer ++ extra) 80 = Some count).
  { rewrite <- Ec. apply getUint32_ext.
    - rewrite length_app. lia.
    - intros i Hi. apply nth_error_app1. lia. }
  rewrite Eu. rewrite Ec in H.
  rewrite (@traverse_ext _ _
             (fun k => vertexAt (buffer ++ extra) (coordOffset k 0))
             (fun k => vertexAt buffer (coordOffset k 0))); [exact H|].
  intros k Hk. apply in_seq in Hk.
  destruct Hlen as [-> | Hlen]; [simpl in Hk; lia|].
  pose proof (@coordOffset_bound k (N.to_nat count) ltac:(lia)) as Hb.
  unfold vertexAt. rewrite !getFloat32_spec.
  rewrite length_app.
  assert (E : forall off, (off + 4 <= coordOffset k 0 + 12)%nat ->
            firstn 4 (skipn off (buffer ++ extra)) =
            firstn 4 (skipn off buffer)).
  { intros off Hoff. apply nth_error_ext. intro i.
    rewrite !nth_error_firstn, !nth_error_skipn.
    destruct (Nat.ltb_spec i 4); [|reflexivity].
    apply nth_error_app1. lia. }
  rewrite !E by lia.
  destruct (Nat.leb_spec (coordOffset k 0 + 4) (length buffer)); [|lia].
  destruct (Nat.leb_spec (coordOffset k 0 + 4 + 4) (length buffer)); [|lia].
  destruct (Nat.leb_spec (coordOffset k 0 + 8 + 4) (length buffer)); [|lia].
  destruct (Nat.leb_spec (coordOffset k 0 + 4)
              (length buffer + length extra)); [|lia].
  destruct (Nat.leb_spec (coordOffset k 0 + 4 + 4)
              (length buffer + length extra)); [|lia].
  destruct (Nat.leb_spec (coordOffset k 0 + 8 + 4)
              (length buffer + length extra)); [|lia].
  reflexivity.
Qed.

(** The four statements at the one-triangle file. *)
Lemma parseBinary_shape_witness :
  length (vertices oneTriangleMesh) = 3%nat /\
  Forall (fun v => length v = 3%nat) (vertices oneTriangleMesh) /\
  triangles oneTriangleMesh = map triangleOf (seq 0 (N.to_nat 1)).
Proof.
  apply (@parseBinary_shape oneTriangle oneTriangleMesh 1%N);
    vm_compute; reflexivity.
Defined.

Lemma parseBinary_vertex_witness :
  exists x y z,
    nth_error (vertices oneTriangleMesh) 1 = Some [x; y; z] /\
    DataView.getFloat32 oneTriangle (coordOffset 1 0) = Some x /\
    DataView.getFloat32 oneTriangle (coordOffset 1 1) = Some y /\
    DataView.getFloat32 oneTriangle (coordOffset 1 2) = Some z.
Proof.
  apply (@parseBinary_vertex oneTriangle oneTriangleMesh 1%nat).
  - vm_compute; reflexivity.
  - simpl; lia.
Defined.

Lemma parseBinary_reads_witness :
  parseBinary (Byte.x73 :: tl oneTriangle) = parseBinary oneTriangle.
Proof.
  apply parseBinary_reads.
  - reflexivity.
  - intros [|offset] H; [discriminate H | reflexivity].
Defined.

Lemma parseBinary_trailing_witness :
  parseBinary (oneTriangle ++ [Byte.xff; Byte.xff]) = Some oneTriangleMesh.
Proof.
  apply parseBinary_trailing. vm_compute; reflexivity.
Defined.

(* ===================================================================== *)
(** ** parseASCII *)
(* ===================================================================== *)

Section AsciiFacts.

Local Open Scope nat_scope.

Variable parseFloat : jsstring -> num.

(** What a line adds to the vertices does not depend on the triangles. *)
Lemma asciiLine_vertices vertices triangles currentTriangle line :
  fst (fst (asciiLine parseFloat (vertices, triangles, currentTriangle) line))
  = vertices ++ lineVertex parseFloat line.
Proof.
  unfold asciiLine, lineVertex.
  destruct (Str.startsWith (Str.trim line) Words.vertex);
    [|cbn; rewrite app_nil_r; reflexivity].
  destruct (4 <=? length (Str.splitSpaces (Str.trim line)));
    [|cbn; rewrite app_nil_r; reflexivity].
  cbn [andb].
  destruct (length _ =? 3); reflexivity.
Qed.

Lemma fold_vertices (lines : list jsstring) :
  forall st,
    fst (fst (fold_left (asciiLine parseFloat) lines st))
    = fst (fst st) ++ flat_map (lineVertex parseFloat) lines.
Proof.
  induction lines as [|line lines IH]; intros [[vs ts] cur];
    cbn [fold_left flat_map].
  - cbn. rewrite app_nil_r. reflexivity.
  - rewrite IH, asciiLine_vertices, <- app_assoc. reflexivity.
Qed.

Lemma parseASCII_vertices (text : jsstring) :
  vertices (parseASCII parseFloat text)
  = flat_map (lineVertex parseFloat) (Str.split 10 text).
Proof.
  unfold parseASCII.
  pose proof (fold_vertices (Str.split 10 text) ([], [], [])) as H.
  destruct (fold_left _ _ _) as [[vs ts] cur]. exact H.
Qed.

Lemma asciiLine_inv st line :
  asciiInv st -> asciiInv (asciiLine parseFloat st line).
Proof.
  destruct st as [[vs ts] cur]. intros (Hvs & q & r & Hr & Hlen & Hts & Hcur).
  unfold asciiLine.
  destruct (Str.startsWith (Str.trim line) Words.vertex);
    [|split; eauto 8].
  destruct (4 <=? length (Str.splitSpaces (Str.trim line)));
    [|split; eauto 8].
  rewrite !length_app. cbn [length].
  replace (length vs + 1 - 1) with (length vs) by lia.
  subst cur. rewrite length_map, length_seq.
  assert (Hv : Forall (fun v => length v = 3)
                 (vs ++ [[parseFloat (Str.part (Str.splitSpaces (Str.trim line)) 1);
                          parseFloat (Str.part (Str.splitSpaces (Str.trim line)) 2);
                          parseFloat (Str.part (Str.splitSpaces (Str.trim line)) 3)]])).
  { apply Forall_app. split; [assumption|]. repeat constructor. }
  destruct (Nat.eqb_spec (r + 1) 3) as [E|E].
  - split; [exact Hv|].
    exists (S q), 0. rewrite length_app. cbn [length].
    repeat split; try lia.
    + assert (r = 2) by lia. subst r ts.
      rewrite (seq_S q 0), map_app. f_equal.
      cbn [map seq app Nat.add]. unfold triangleOf. rewrite Hlen.
      replace (S (3 * q)) with (3 * q + 1) by lia.
      reflexivity.
  - split; [exact Hv|].
    exists q, (S r). rewrite length_app. cbn [length].
    repeat split; try lia; [assumption|].
    rewrite seq_S, map_app. cbn [map]. rewrite Hlen. reflexivity.
Qed.

Lemma fold_inv (lines : list jsstring) :
  forall st, asciiInv st ->
             asciiInv (fold_left (asciiLine parseFloat) lines st).
Proof.
  induction lines as [|line lines IH]; intros st H; cbn [fold_left];
    [exact H|].
  apply IH, asciiLine_inv, H.
Qed.

(** [split] at the separator between two texts. *)
Lemma splitAt_app (sep : N) (a b : jsstring) :
  forall cur,
    Str.splitAt sep cur (a ++ sep :: b)
    = Str.splitAt sep cur a ++ Str.splitAt sep [] b.
Proof.
  induction a as [|c a IH]; intro cur; cbn [app Str.splitAt].
  - rewrite N.eqb_refl. reflexivity.
  - destruct (N.eqb c sep); [cbn [app]; f_equal|]; apply IH.
Qed.

(** Space at the end of a line is trimmed away. *)
Lemma dropSpaces_snoc (s : jsstring) (w : N) :
  Str.isSpace w = true ->
  Str.dropSpaces (s ++ [w]) =
  match Str.dropSpaces s with [] => [] | l => l ++ [w] end.
Proof.
  intro Hw. induction s as [|c s IH]; cbn [app Str.dropSpaces].
  - rewrite Hw. reflexivity.
  - destruct (Str.isSpace c); [exact IH | reflexivity].
Qed.

Lemma trim_snoc (s : jsstring) (w : N) :
  Str.isSpace w = true -> Str.trim (s ++ [w]) = Str.trim s.
Proof.
  intro Hw. unfold Str.trim. rewrite dropSpaces_snoc by exact Hw.
  destruct (Str.dropSpaces s) as [|c l]; [reflexivity|].
  rewrite rev_app_distr. cbn [rev app Str.dropSpaces].
  rewrite Hw. reflexivity.
Qed.

Lemma split_crlf (text : jsstring) :
  forall cur,
    map Str.trim (Str.splitAt 10 cur (crlf text))
    = map Str.trim (Str.splitAt 10 cur text).
Proof.
  induction text as [|c text IH]; intro cur; [reflexivity|].
  unfold crlf. cbn [flat_map]. fold (crlf text).
  destruct (N.eqb_spec c 10) as [->|Hc].
  - cbn [app Str.splitAt N.eqb Pos.eqb map].
    rewrite trim_snoc by reflexivity. f_equal. apply IH.
  - cbn [app Str.splitAt].
    destruct (N.eqb_spec c 10) as [|_]; [contradiction|]. apply IH.
Qed.

(** A line enters the parser through its trimmed form only. *)
Lemma asciiLine_trim st (l1 l2 : jsstring) :
  Str.trim l1 = Str.trim l2 ->
  asciiLine parseFloat st l1 = asciiLine parseFloat st l2.
Proof.
  intro E. destruct st as [[vs ts] cur]. unfold asciiLine.
  rewrite E. reflexivity.
Qed.

Lemma fold_trim (ls1 ls2 : list jsstring) :
  map Str.trim ls1 = map Str.trim ls2 ->
  forall st, fold_left (asciiLine parseFloat) ls1 st
             = fold_left (asciiLine parseFloat) ls2 st.
Proof.
  revert ls2. induction ls1 as [|l1 ls1 IH]; intros [|l2 ls2] E st;
    try discriminate E; [reflexivity|].
  cbn [map] in E. injection E as E1 E2.
  cbn [fold_left]. rewrite (asciiLine_trim st l1 l2 E1). apply IH, E2.
Qed.

End AsciiFacts.

(** X6: in the mesh of an ASCII file every vertex has three coordinates,
    and the triangles are the consecutive index triples [3k, 3k+1, 3k+2]
    of the vertices in file order, one for every three vertex lines: the
    facet and loop lines do not group them, and one or two vertices left
    over at the end belong to no triangle. *)
Theorem parseASCII_triangles (parseFloat : jsstring -> num)
    (text : jsstring) :
  Forall (fun v => length v = 3%nat)
    (vertices (parseASCII parseFloat text)) /\
  triangles (parseASCII parseFloat text)
  = map triangleOf
      (seq 0 (length (vertices (parseASCII parseFloat text)) / 3)).
Proof.
  unfold parseASCII.
  pose proof (@fold_inv parseFloat (Str.split 10 text) ([], [], [])) as H.
  destruct (fold_left _ _ _) as [[vs ts] cur]. cbn [vertices triangles].
  destruct H as (Hvs & q & r & Hr & Hlen & Hts & _).
  { split; [constructor|]. exists 0%nat, 0%nat. repeat split; lia. }
  split; [exact Hvs|].
  replace (length vs / 3)%nat with q
    by (apply Nat.div_unique with r; lia).
  exact Hts.
Qed.

(** X7: the vertices of two texts joined by a line feed are the vertices
    of the first followed by those of the second. *)
Theorem parseASCII_joined (parseFloat : jsstring -> num)
    (a b : jsstring) :
  vertices (parseASCII parseFloat (a ++ 10%N :: b))
  = vertices (parseASCII parseFloat a)
    ++ vertices (parseASCII parseFloat b).
Proof.
  rewrite !parseASCII_vertices. unfold Str.split.
  rewrite splitAt_app, flat_map_app. reflexivity.
Qed.

(** X8: line endings do not matter: a text whose line feeds are all
    preceded by a carriage return gives the mesh of the text without
    them. *)
Theorem parseASCII_crlf (parseFloat : jsstring -> num) (text : jsstring) :
  parseASCII parseFloat (crlf text) = parseASCII parseFloat text.
Proof.
  unfold parseASCII, Str.split.
  rewrite (@fold_trim parseFloat (Str.splitAt 10 [] (crlf text))
             (Str.splitAt 10 [] text)); [reflexivity|].
  apply split_crlf.
Qed.

(* ===================================================================== *)
(** ** The Normalizer: a second run, and the order of the pixels *)
(* ===================================================================== *)

Section RescaleFacts.

Import NumFacts.
Local Open Scope Q_scope.

Lemma map_pixels_ext (f g : num -> num) (ps : list Projection) :
  (forall v, In v (pixels ps) -> f v = g v) ->
  map (fun p => mkProjection (angle p) (map (map f) (data p))) ps
  = map (fun p => mkProjection (angle p) (map (map g) (data p))) ps.
Proof.
  intro H. apply map_ext_in. intros p Hp. f_equal.
  apply map_ext_in. intros row Hrow.
  apply map_ext_in. intros v Hv. apply H.
  unfold pixels. apply in_concat. exists (concat (data p)). split.
  - apply in_map_iff. exists p. auto.
  - apply in_concat. exists row. auto.
Qed.

Lemma pixels_mapped (f : num -> num) (ps : list Projection) :
  pixels (map (fun p => mkProjection (angle p) (map (map f) (data p))) ps)
  = map f (pixels ps).
Proof.
  unfold pixels. induction ps as [|p ps IH]; [reflexivity|].
  cbn [map concat data]. rewrite map_app, IH. f_equal.
  rewrite concat_map. reflexivity.
Qed.

(** The rescaled value of a pixel between the bounds: an integer of
    [[0, 255]]. *)
Lemma rescale_int (a r v : Q) :
  0 < r -> a <= v -> v <= a + r ->
  exists z, rescale (Fin a) (Fin r) (Fin v) = Fin (inject_Z z) /\
            (0 <= z <= 255)%Z.
Proof.
  intros Hr H0 H1.
  pose proof (rescale_range Hr H0 H1) as Hw.
  rewrite rescale_Fin in * by lra.
  eexists. split; [reflexivity|].
  unfold JS.of_Z, JS.within in Hw.
  rewrite !Zle_Qle. exact Hw.
Qed.

(** With the bounds 0 and 255 the rescale keeps an integer. *)
Lemma rescale_fixed (r : Q) (z : Z) :
  r == 255 ->
  rescale (Fin 0) (Fin r) (Fin (inject_Z z)) = Fin (inject_Z z).
Proof.
  intro Hr. rewrite rescale_Fin by lra.
  rewrite (floor_unique (z := z)); [reflexivity| |];
    rewrite Hr;
    setoid_replace ((inject_Z z - 0) / 255 * 255) with (inject_Z z)
      by field; lra.
Qed.

Lemma rescale_mono (a r v w : Q) :
  0 < r -> v <= w ->
  exists x y,
    rescale (Fin a) (Fin r) (Fin v) = Fin (inject_Z x) /\
    rescale (Fin a) (Fin r) (Fin w) = Fin (inject_Z y) /\
    (x <= y)%Z.
Proof.
  intros Hr Hvw. rewrite !rescale_Fin by lra.
  eexists. eexists. split; [reflexivity|]. split; [reflexivity|].
  apply Qfloor_resp_le.
  apply Qplus_le_compat; [|apply Qle_refl].
  apply Qmult_le_compat_r; [|lra].
  apply Qmult_le_compat_r; [lra|].
  apply Qlt_le_weak, Qinv_lt_0_compat, Hr.
Qed.

(** The range the second pass divides by is above zero. *)
Lemma range_cases (a b : Q) :
  a <= b ->
  exists r, JS.or_else (Fin (Qred (b - a))) (Fin 1) = Fin r /\ 0 < r /\
            (a < b -> r == b - a) /\ (a == b -> r = 1).
Proof.
  intro Hab. destruct (Qlt_le_dec a b) as [Hlt|Hle].
  - rewrite (range_pos Hlt). eexists. split; [reflexivity|].
    split; [rewrite Qred_correct; lra|].
    split; [intros _; apply Qred_correct | intro; lra].
  - assert (E : a == b) by lra. rewrite (range_zero E).
    eexists. split; [reflexivity|]. repeat split; try lra.
Qed.

End RescaleFacts.

Section SecondRun.

Import NumFacts.
Local Open Scope Q_scope.

Variable self : CALProjector.
Hypothesis Hfin : Forall JS.finite (pixels (projections self)).

(** After the Normalizer every pixel is an integer of [[0, 255]]; when
    the raw pixels are not all equal 0 and 255 are among them, and when
    they are all equal every pixel is 0. *)
Lemma normalized_pixels :
  pixels (projections self) <> [] ->
  Forall (fun v => exists z, v = Fin (inject_Z z) /\ (0 <= z <= 255)%Z)
    (pixels (projections (normalizeProjections self))) /\
  ((In (Fin 0) (pixels (projections (normalizeProjections self))) /\
    In (Fin 255) (pixels (projections (normalizeProjections self)))) \/
   Forall (fun v => v = Fin 0)
     (pixels (projections (normalizeProjections self)))).
Proof.
  intro Hne.
  destruct (normalize_fin self Hfin Hne) as (a & b & _ & Ia & Ib & Hall & ->).
  rewrite Forall_forall in Hall.
  assert (Hab : a <= b) by (destruct (Hall _ Ia) as (q & [= <-] & ?); lra).
  destruct (range_cases Hab) as (r & -> & Hr & Hlt & Heq).
  destruct (Qlt_le_dec a b) as [Hlt'|Hle'].
  - specialize (Hlt Hlt'). split.
    + apply Forall_forall. intros x Hx.
      apply in_map_iff in Hx. destruct Hx as (y & <- & Hy).
      destruct (Hall _ Hy) as (q & -> & H0 & H1).
      apply rescale_int; lra.
    + left. split.
      * apply in_map_iff. exists (Fin a). split; [|exact Ia].
        apply rescale_low; lra.
      * apply in_map_iff. exists (Fin b). split; [|exact Ib].
        apply rescale_high; lra.
  - assert (E : a == b) by lra. rewrite (Heq E).
    assert (Hz : forall x, In x (map (rescale (Fin a) (Fin 1))
                                   (pixels (projections self))) ->
                           x = Fin 0).
    { intros x Hx. apply in_map_iff in Hx. destruct Hx as (y & <- & Hy).
      destruct (Hall _ Hy) as (q & -> & H0 & H1).
      apply rescale_low; lra. }
    split.
    + apply Forall_forall. intros x Hx. exists 0%Z.
      split; [apply Hz, Hx | lia].
    + right. apply Forall_forall. exact Hz.
Qed.

(** The rescale of a second run leaves the pixels of the first alone. *)
Lemma second_rescale (v : num) :
  In v (pixels (projections (normalizeProjections self))) ->
  rescaleOf (projections (normalizeProjections self)) v = v.
Proof.
  intro Hv.
  assert (Hne : pixels (projections self) <> []).
  { intro E. rewrite pixels_normalize in Hv.
    destruct (scanProjections (projections self)).
    rewrite E in Hv. exact Hv. }
  destruct (normalized_pixels Hne) as (Hint & Hcase).
  rewrite Forall_forall in Hint.
  set (self' := normalizeProjections self) in *.
  assert (Hfin' : Forall JS.finite (pixels (projections self'))).
  { apply Forall_forall. intros x Hx.
    destruct (Hint x Hx) as (z & -> & _). exact I. }
  assert (Hne' : pixels (projections self') <> [])
    by (intro E; rewrite E in Hv; exact Hv).
  destruct (normalize_fin self' Hfin' Hne')
    as (a & b & Es & Ia & Ib & Hall & _).
  rewrite Forall_forall in Hall.
  unfold rescaleOf. rewrite Es.
  destruct (Hint _ Ia) as (za & Ea & Hza).
  destruct (Hint _ Ib) as (zb & Eb & Hzb).
  injection Ea as ->. injection Eb as ->.
  destruct (Hint _ Hv) as (z & -> & Hz).
  cbn [JS.sub].
  destruct Hcase as [[I0 I255] | Hzero].
  - destruct (Hall _ I0) as (q0 & [= <-] & L0 & _).
    destruct (Hall _ I255) as (q1 & [= <-] & _ & U1).
    assert (za = 0%Z).
    { change 0 with (inject_Z 0) in L0. rewrite <- Zle_Qle in L0. lia. }
    assert (zb = 255%Z).
    { change 255 with (inject_Z 255) in U1. rewrite <- Zle_Qle in U1. lia. }
    subst za zb.
    change (inject_Z 0) with 0. change (inject_Z 255) with 255.
    rewrite range_pos by lra.
    apply rescale_fixed. rewrite Qred_correct. lra.
  - rewrite Forall_forall in Hzero.
    pose proof (Hzero _ Ia) as Ea. pose proof (Hzero _ Ib) as Eb.
    pose proof (Hzero _ Hv) as Ev.
    injection Ea as Ea. injection Eb as Eb. injection Ev as Ev.
    rewrite Ea, Eb, Ev.
    rewrite range_zero by lra.
    apply rescale_low; [discriminate | lra].
Qed.

End SecondRun.

(** X9: the Normalizer is idempotent on finite pixels: a second run over
    its own result changes no pixel (the first leaves integers that span
    0 to 255, or all 0, and those are fixed points of the rescale). *)
Theorem normalize_idempotent (self : CALProjector) :
  Forall JS.finite (pixels (projections self)) ->
  normalizeProjections (normalizeProjections self)
  = normalizeProjections self.
Proof.
  intro Hfin.
  assert (E : forall s, normalizeProjections s
              = set_projections s
                  (map (fun p => mkProjection (angle p)
                          (map (map (rescaleOf (projections s))) (data p)))
                     (projections s))).
  { intro s. unfold normalizeProjections, rescaleOf.
    destruct (scanProjections (projections s)); reflexivity. }
  rewrite (E (normalizeProjections self)).
  rewrite (@map_pixels_ext
             (rescaleOf (projections (normalizeProjections self)))
             (fun v => v)).
  - replace (map (fun p => mkProjection (angle p)
                    (map (map (fun v => v)) (data p)))
               (projections (normalizeProjections self)))
      with (projections (normalizeProjections self)).
    + destruct (normalizeProjections self); reflexivity.
    + rewrite <- (map_id (projections (normalizeProjections self))) at 1.
      apply map_ext. intros [ang dat]. cbn [angle data]. f_equal.
      rewrite <- (map_id dat) at 1. apply map_ext. intro row.
      symmetry. apply map_id.
  - intros v Hv. apply (@second_rescale self Hfin v Hv).
Qed.

(** X10: the Normalizer keeps the order of the pixel values: of two raw
    pixels anywhere in the set, the one that is not larger is not larger
    after the rescale either. *)
Theorem normalize_monotone (self : CALProjector)
    (i v u i' v' u' : nat) (x y : num) :
  Forall JS.finite (pixels (projections self)) ->
  pixel (projections self) i v u = Some x ->
  pixel (projections self) i' v' u' = Some y ->
  JS.leb x y = true ->
  exists x' y',
    pixel (projections (normalizeProjections self)) i v u = Some x' /\
    pixel (projections (normalizeProjections self)) i' v' u' = Some y' /\
    JS.leb x' y' = true.
Proof.
  intros Hfin Hx Hy Hle.
  assert (Hne : pixels (projections self) <> []).
  { intro E. apply pixel_In in Hx. rewrite E in Hx. exact Hx. }
  destruct (normalize_fin self Hfin Hne) as (a & b & Es & Ia & Ib & Hall & _).
  rewrite Forall_forall in Hall.
  rewrite normalize_map, !pixel_map, Hx, Hy. cbn [option_map].
  unfold rescaleOf. rewrite Es. cbn [JS.sub].
  destruct (Hall _ (pixel_In _ _ _ _ Hx)) as (p & -> & _).
  destruct (Hall _ (pixel_In _ _ _ _ Hy)) as (q & -> & _).
  assert (Hab : (a <= b)%Q)
    by (destruct (Hall _ Ia) as (q0 & [= <-] & ?); lra).
  destruct (range_cases Hab) as (r & -> & Hr & _).
  apply NumFacts.leb_Fin in Hle.
  destruct (@rescale_mono a r p q Hr Hle) as (zx & zy & -> & -> & Hz).
  eexists. eexists. split; [reflexivity|]. split; [reflexivity|].
  apply NumFacts.leb_Fin. rewrite <- Zle_Qle. exact Hz.
Qed.

(** Both statements at the set of two 2-by-2 views. *)
Lemma normalize_idempotent_witness :
  normalizeProjections
    (normalizeProjections (mkCALProjector 2 2 twoViews 2))
  = normalizeProjections (mkCALProjector 2 2 twoViews 2).
Proof.
  apply normalize_idempotent. repeat constructor.
Defined.

Lemma normalize_monotone_witness :
  exists x' y',
    pixel (projections
             (normalizeProjections (mkCALProjector 2 2 twoViews 2))) 0 0 1
    = Some x' /\
    pixel (projections
             (normalizeProjections (mkCALProjector 2 2 twoViews 2))) 1 1 0
    = Some y' /\
    JS.leb x' y' = true.
Proof.
  apply (@normalize_monotone (mkCALProjector 2 2 twoViews 2)
           0 0 1 1 1 0 (Fin (1 # 2)) (Fin (5 # 2))).
  - repeat constructor.
  - reflexivity.
  - reflexivity.
  - reflexivity.
Defined.

(* ===================================================================== *)
(** ** The kernel: its output size, its last row, its slices *)
(* ===================================================================== *)

(** X11: the image size is the [volumeSize] the projector was constructed
    with.  After the page has overwritten [volumeSize] and
    [numProjections], a run over a volume of the new size still returns
    projections of the old side: as many as the new count, each
    [n0]-by-[n0]. *)
Theorem kernel_output_fixed (Math_cos Math_sin : num -> num)
    (n0 m0 n m : nat) (volume : VoxelVolume) :
  cubic n volume ->
  exists self' ps,
    generateProjections Math_cos Math_sin
      (configure (newCALProjector n0 m0) n m) volume = Some (self', ps) /\
    length ps = m /\
    Forall (fun p => square n0 (data p)) ps /\
    kernelOutput self' = n0 /\ volumeSize self' = n.
Proof.
  intro Hcubic.
  set (self := configure (newCALProjector n0 m0) n m).
  destruct (@generateProjections_spec Math_cos Math_sin self volume Hcubic)
    as (raw & Eraw & ->).
  destruct (@rawProjections_spec Math_cos Math_sin self volume Hcubic)
    as (raw' & Eraw' & Hlen & Hraw).
  rewrite Eraw in Eraw'. injection Eraw' as <-.
  eexists. eexists. split; [reflexivity|].
  split; [rewrite length_map; exact Hlen|].
  split; [|split].
  - apply Forall_forall. intros p Hp.
    apply in_map_iff in Hp. destruct Hp as (p0 & <- & Hp0).
    apply In_nth_error in Hp0. destruct Hp0 as (i & Hi).
    assert (Hi' : (i < numProjections self)%nat)
      by (rewrite <- Hlen; apply nth_error_Some; congruence).
    destruct (Hraw i Hi') as (image & Ei & Ek).
    rewrite Hi in Ei. injection Ei as ->. cbn [data].
    destruct (@radonKernel_image Math_cos Math_sin n n0
                (inputOf n volume) (angleOf i m) (cubic_input Hcubic))
      as (image' & Ek' & (Hrows & Hcols) & _).
    cbn [kernelOutput volumeSize numProjections self configure
           newCALProjector] in Ek.
    rewrite Ek in Ek'. injection Ek' as <-.
    split; [rewrite length_map; exact Hrows|].
    apply Forall_forall. intros row Hrow.
    apply in_map_iff in Hrow. destruct Hrow as (row0 & <- & Hrow0).
    rewrite length_map. rewrite Forall_forall in Hcols. auto.
  - apply (normalize_other_fields (set_projections self raw)).
  - apply (normalize_other_fields (set_projections self raw)).
Qed.

Lemma kernel_output_fixed_witness :
  exists self' ps,
    generateProjections quadrant_cos quadrant_sin
      (configure (newCALProjector 6 9) 4 2) block4 = Some (self', ps) /\
    length ps = 2%nat /\
    Forall (fun p => square 6 (data p)) ps /\
    kernelOutput self' = 6%nat /\ volumeSize self' = 4%nat.
Proof.
  apply kernel_output_fixed. exact block4_cubic.
Defined.

(** X12: the last row of every projection is black.  For a volume of
    cells in [[0, 1]] and a projector used at the size it was built with,
    the pixels [data[n - 1][u]] of every returned projection are 0: the
    samples of that row have [y = n - 1], which the guard [y < size - 1]
    rejects, and the global minimum is 0. *)
Theorem last_row_dark (Math_cos Math_sin : num -> num) (n m : nat)
    (volume : VoxelVolume) :
  cubic n volume -> Forall (JS.within 0 1) (flat2 volume) ->
  (0 < n)%nat -> (0 < m)%nat ->
  exists self' ps,
    generateProjections Math_cos Math_sin (newCALProjector n m) volume
    = Some (self', ps) /\
    forall i u, (i < m)%nat -> (u < n)%nat ->
                pixel ps i (n - 1) u = Some (Fin 0).
Proof.
  intros Hcubic Hunit Hn Hm.
  destruct (@run_normalized Math_cos Math_sin (newCALProjector n m) volume
              Hcubic Hunit eq_refl Hn Hm)
    as (self' & ps & a & b & Egen & _ & Ha & Hb & _ & _ & Hpix & _).
  exists self', ps. split; [exact Egen|].
  intros i u Hi Hu.
  destruct (Hpix i (n - 1)%nat u Hi ltac:(cbn; lia) Hu)
    as (r & Er & _ & _ & ->).
  cbn [volumeSize numProjections newCALProjector] in Er.
  rewrite radonPixel_last_row in Er by exact Hn.
  injection Er as <-.
  assert (Hab : (a <= b)%Q) by lra.
  destruct (range_cases Hab) as (rr & -> & Hrr & _).
  f_equal. apply rescale_low; lra.
Qed.

Lemma last_row_dark_witness :
  exists self' ps,
    generateProjections quadrant_cos quadrant_sin (newCALProjector 4 2)
      block4 = Some (self', ps) /\
    forall i u, (i < 2)%nat -> (u < 4)%nat ->
                pixel ps i (4 - 1) u = Some (Fin 0).
Proof.
  apply last_row_dark.
  - exact block4_cubic.
  - exact block4_unit.
  - lia.
  - lia.
Defined.

Section SliceFacts.

Import NumFacts.
Local Open Scope Q_scope.

Lemma for_num_ext (S : Type) (step hi : num)
    (body1 body2 : num -> S -> option S) :
  (forall t s, body1 t s = body2 t s) ->
  forall fuel t s,
    for_num fuel step hi body1 t s = for_num fuel step hi body2 t s.
Proof.
  intro Hbody. induction fuel as [|fuel IH]; intros t s; cbn [for_num];
    [reflexivity|].
  destruct (JS.ltb t hi); [|reflexivity].
  rewrite Hbody. destruct (body2 t s); [apply IH | reflexivity].
Qed.

Lemma Qred_int (q : Q) (z : Z) : q == inject_Z z -> Qred q = inject_Z z.
Proof.
  intro H. rewrite (Qred_eq H). clear H q.
  pose proof (Qred_correct (inject_Z z)) as E.
  pose proof (gcd_Qred (inject_Z z)) as G.
  destruct (Qred (inject_Z z)) as [a d].
  unfold Qeq in E. cbn [Qnum Qden inject_Z] in E, G.
  assert (Ea : a = (z * Z.pos d)%Z) by lia.
  rewrite Ea, Z.mul_comm, Z.gcd_comm, Z.gcd_mul_diag_l in G by lia.
  injection G as ->. unfold inject_Z. f_equal. lia.
Qed.

Lemma mul_zero_fin (b : num) :
  JS.finite b -> JS.mul b (Fin (Qred 0)) = Fin 0.
Proof.
  destruct b as [q| | |]; cbn [JS.finite JS.mul]; intro H;
    try (exfalso; exact H).
  f_equal. apply (Qred_int (z := 0)). rewrite Qred_correct. ring.
Qed.

Lemma blend_finite (a b : num) (p q : Q) :
  JS.finite a -> JS.finite b ->
  JS.finite (JS.add (JS.mul a (Fin p)) (JS.mul b (Fin q))).
Proof.
  destruct a, b; simpl; tauto.
Qed.

Variable n : nat.
Variables vol1 vol2 : Input.
Hypothesis Hwf1 : wfInput n vol1.
Hypothesis Hwf2 : wfInput n vol2.
Hypothesis Hfin1 : Forall JS.finite (value vol1).
Hypothesis Hfin2 : Forall JS.finite (value vol2).

Variable v : nat.
Hypothesis Hslice :
  forall k i, (k < n)%nat -> (i < n)%nat ->
              flatCell vol1 k v i = flatCell vol2 k v i.

(** At a position of the slice [y = v] the interpolated values of the
    two volumes agree: the cells of the slice above are read, and
    weighted by 0. *)
Lemma interpolate_slice (qx qz : Q) :
  0 <= qx < inject_Z (Z.of_nat n) - 1 ->
  0 <= inject_Z (Z.of_nat v) < inject_Z (Z.of_nat n) - 1 ->
  0 <= qz < inject_Z (Z.of_nat n) - 1 ->
  interpolate vol1 (Fin qx) (Fin (inject_Z (Z.of_nat v))) (Fin qz)
  = interpolate vol2 (Fin qx) (Fin (inject_Z (Z.of_nat v))) (Fin qz).
Proof.
  intros Hx Hy Hz.
  destruct (@floor_index n _ Hx) as [Hx0 Hx1].
  destruct (@floor_index n _ Hy) as [Hy0 Hy1].
  destruct (@floor_index n _ Hz) as [Hz0 Hz1].
  rewrite Qfloor_Z in Hy0, Hy1.
  unfold interpolate.
  cbn [JS.floor]. rewrite Qfloor_Z. unfold JS.of_Z. cbn [JS.add JS.sub].
  set (fx := Qfloor qx) in *. set (fz := Qfloor qz) in *.
  set (fy := Z.of_nat v) in *.
  assert (Ex : inject_Z fx == inject_Z (fx + 0))
    by (rewrite Z.add_0_r; reflexivity).
  assert (Ey : inject_Z fy == inject_Z (fy + 0))
    by (rewrite Z.add_0_r; reflexivity).
  assert (Ez : inject_Z fz == inject_Z (fz + 0))
    by (rewrite Z.add_0_r; reflexivity).
  pose proof (succ_int fx) as Sx. pose proof (succ_int fy) as Sy.
  pose proof (succ_int fz) as Sz.
  rewrite Forall_forall in Hfin1, Hfin2.
  replace (Qred (inject_Z fy - inject_Z fy)) with (Qred 0)
    by (apply Qred_eq; ring).
  destruct (@read_inside n vol1 Hwf1 _ _ _ _ _ _ Ez Ey Ex) as (a000 & -> & A000); try lia.
  destruct (@read_inside n vol1 Hwf1 _ _ _ _ _ _ Ez Ey Sx) as (a100 & -> & A100); try lia.
  destruct (@read_inside n vol1 Hwf1 _ _ _ _ _ _ Ez Sy Ex) as (a010 & -> & A010); try lia.
  destruct (@read_inside n vol1 Hwf1 _ _ _ _ _ _ Ez Sy Sx) as (a110 & -> & A110); try lia.
  destruct (@read_inside n vol1 Hwf1 _ _ _ _ _ _ Sz Ey Ex) as (a001 & -> & A001); try lia.
  destruct (@read_inside n vol1 Hwf1 _ _ _ _ _ _ Sz Ey Sx) as (a101 & -> & A101); try lia.
  destruct (@read_inside n vol1 Hwf1 _ _ _ _ _ _ Sz Sy Ex) as (a011 & -> & A011); try lia.
  destruct (@read_inside n vol1 Hwf1 _ _ _ _ _ _ Sz Sy Sx) as (a111 & -> & A111); try lia.
  destruct (@read_inside n vol2 Hwf2 _ _ _ _ _ _ Ez Ey Ex) as (b000 & -> & B000); try lia.
  destruct (@read_inside n vol2 Hwf2 _ _ _ _ _ _ Ez Ey Sx) as (b100 & -> & B100); try lia.
  destruct (@read_inside n vol2 Hwf2 _ _ _ _ _ _ Ez Sy Ex) as (b010 & -> & B010); try lia.
  destruct (@read_inside n vol2 Hwf2 _ _ _ _ _ _ Ez Sy Sx) as (b110 & -> & B110); try lia.
  destruct (@read_inside n vol2 Hwf2 _ _ _ _ _ _ Sz Ey Ex) as (b001 & -> & B001); try lia.
  destruct (@read_inside n vol2 Hwf2 _ _ _ _ _ _ Sz Ey Sx) as (b101 & -> & B101); try lia.
  destruct (@read_inside n vol2 Hwf2 _ _ _ _ _ _ Sz Sy Ex) as (b011 & -> & B011); try lia.
  destruct (@read_inside n vol2 Hwf2 _ _ _ _ _ _ Sz Sy Sx) as (b111 & -> & B111); try lia.
  replace (Z.to_nat (fy + 0)) with v in * by lia.
  rewrite Hslice in A000, A100, A001, A101 by lia.
  rewrite B000 in A000. rewrite B100 in A100.
  rewrite B001 in A001. rewrite B101 in A101.
  injection A000 as <-. injection A100 as <-.
  injection A001 as <-. injection A101 as <-.
  apply flatCell_In in A010, A110, A011, A111, B010, B110, B011, B111.
  apply Hfin1 in A010, A110, A011, A111.
  apply Hfin2 in B010, B110, B011, B111.
  rewrite !mul_zero_fin by (apply blend_finite; assumption).
  reflexivity.
Qed.

(** The row coordinate of thread [(u, v)] is [v], whatever the angle. *)
Lemma row_coordinate :
  JS.add (JS.sub (JS.of_nat v) (JS.div (JS.of_nat n) (Fin 2)))
    (JS.div (JS.of_nat n) (Fin 2))
  = Fin (inject_Z (Z.of_nat v)).
Proof.
  rewrite (half_side n). unfold JS.of_nat, JS.of_Z. cbn [JS.sub JS.add].
  f_equal. apply Qred_int. rewrite Qred_correct. ring.
Qed.

Lemma marchStep_slice (cosTheta sinTheta uCentered t acc : num) :
  marchStep vol1 (JS.of_nat n) cosTheta sinTheta uCentered
    (JS.sub (JS.of_nat v) (JS.div (JS.of_nat n) (Fin 2)))
    (JS.div (JS.of_nat n) (Fin 2)) t acc
  = marchStep vol2 (JS.of_nat n) cosTheta sinTheta uCentered
      (JS.sub (JS.of_nat v) (JS.div (JS.of_nat n) (Fin 2)))
      (JS.div (JS.of_nat n) (Fin 2)) t acc.
Proof.
  unfold marchStep, samplePosition. rewrite row_coordinate.
  destruct (inside _ _ _ _) eqn:E; [|reflexivity].
  destruct (@inside_bounds n _ _ _ E)
    as (qx & qy & qz & Ex & Ey & Ez & Hx & Hy & Hz).
  injection Ey as <-. rewrite Ex, Ez.
  rewrite (interpolate_slice Hx Hy Hz). reflexivity.
Qed.

End SliceFacts.

(** X13: a row of a projection depends on one slice of the volume only.
    Two volumes of finite cells that agree on the cells [volume[z][v][x]]
    give the same raw pixel at every thread [(u, v)] of row [v], for
    every angle: the slice above is read, with weight 0. *)
Theorem row_reads_one_slice (Math_cos Math_sin : num -> num) (n : nat)
    (volume1 volume2 : VoxelVolume) (theta : num) (u v : nat) :
  cubic n volume1 -> cubic n volume2 ->
  Forall JS.finite (flat2 volume1) -> Forall JS.finite (flat2 volume2) ->
  (forall z x, (z < n)%nat -> (x < n)%nat ->
               cell volume1 z v x = cell volume2 z v x) ->
  radonPixel Math_cos Math_sin (inputOf n volume1) theta n u v
  = radonPixel Math_cos Math_sin (inputOf n volume2) theta n u v.
Proof.
  intros Hc1 Hc2 Hf1 Hf2 Hslice.
  unfold radonPixel. apply for_num_ext. intros t acc.
  destruct (Nat.lt_ge_cases v n) as [Hv|Hv].
  - apply marchStep_slice with (n := n); try apply cubic_input; auto.
    intros k i Hk Hi. rewrite !flat2_cell by assumption. auto.
  - unfold marchStep, samplePosition.
    rewrite (@row_coordinate n v).
    destruct (inside _ _ _ _) eqn:E; [|reflexivity].
    destruct (@inside_bounds n _ _ _ E)
      as (qx & qy & qz & _ & Ey & _ & _ & Hy & _).
    injection Ey as <-. exfalso.
    assert (inject_Z (Z.of_nat n) <= inject_Z (Z.of_nat v))%Q
      by (rewrite <- Zle_Qle; lia).
    lra.
Qed.

Lemma row_reads_one_slice_witness :
  radonPixel quadrant_cos quadrant_sin (inputOf 4 block4) (Fin 90) 4 1 1
  = radonPixel quadrant_cos quadrant_sin (inputOf 4 block4capped) (Fin 90)
      4 1 1.
Proof.
  apply row_reads_one_slice.
  - exact block4_cubic.
  - vm_compute. repeat constructor.
  - vm_compute. repeat constructor.
  - vm_compute. repeat constructor.
  - intros z x Hz Hx.
    do 4 (destruct z as [|z];
          [do 4 (destruct x as [|x]; [reflexivity|]); lia|]).
    lia.
Defined.

(* ===================================================================== *)
(** ** createTestModel at every size *)
(* ===================================================================== *)

Section IndexLoops.

Import NumFacts.
Local Open Scope Z_scope.

Lemma of_nat_to_nat (z : Z) : 0 <= z -> JS.of_nat (Z.to_nat z) = Fin (inject_Z z).
Proof. intro H. unfold JS.of_nat, JS.of_Z. rewrite Z2Nat.id by exact H. reflexivity. Qed.

Lemma index_of_nat (k : nat) : JS.index (JS.of_nat k) = Some k.
Proof.
  unfold JS.of_nat, JS.of_Z.
  rewrite (index_int (q := inject_Z (Z.of_nat k)) (z := Z.of_nat k));
    [rewrite Nat2Z.id; reflexivity | reflexivity | lia].
Qed.

(** A counting loop from [lo] to [hi] is a [forEach] over the integers
    between, when the fuel covers them. *)
Lemma for_num_seq (S : Type) (hi : Z) (body : num -> S -> option S)
    (fuel : nat) :
  forall lo s,
    0 <= lo -> (Z.to_nat (hi - lo) < fuel)%nat ->
    for_num fuel (Fin 1) (Fin (inject_Z hi)) body (Fin (inject_Z lo)) s
    = for_each (fun s k => body (JS.of_nat k) s)
        (seq (Z.to_nat lo) (Z.to_nat (hi - lo))) s.
Proof.
  induction fuel as [|fuel IH]; intros lo s Hlo Hfuel; [lia|].
  cbn [for_num].
  destruct (JS.ltb (Fin (inject_Z lo)) (Fin (inject_Z hi))) eqn:E.
  - apply ltb_Fin in E. rewrite <- Zlt_Qlt in E.
    replace (Z.to_nat (hi - lo)) with (Datatypes.S (Z.to_nat (hi - (lo + 1))))
      by lia.
    cbn [seq for_each]. rewrite of_nat_to_nat by exact Hlo.
    destruct (body (Fin (inject_Z lo)) s) as [s'|]; [|reflexivity].
    cbn [JS.add].
    rewrite (Qred_int (z := lo + 1))
      by (rewrite inject_Z_plus; reflexivity).
    rewrite IH by lia.
    replace (Z.to_nat (lo + 1)) with (Datatypes.S (Z.to_nat lo)) by lia.
    reflexivity.
  - apply ltb_Fin_false in E. rewrite <- Zle_Qle in E.
    replace (Z.to_nat (hi - lo)) with O by lia. reflexivity.
Qed.

Lemma for_index_seq (n : nat) (lo hi : Z)
    (body : num -> VoxelVolume -> option VoxelVolume) (model : VoxelVolume) :
  0 <= lo -> hi <= Z.of_nat n ->
  for_index n (Fin (inject_Z lo)) (Fin (inject_Z hi)) body model
  = for_each (fun m k => body (JS.of_nat k) m)
      (seq (Z.to_nat lo) (Z.to_nat (hi - lo))) model.
Proof.
  intros Hlo Hhi. unfold for_index. apply for_num_seq; lia.
Qed.

End IndexLoops.

Section PaintFacts.

Local Open Scope nat_scope.

Variable n : nat.

(** A store at an index of a cubic grid changes that cell and no
    other. *)
Lemma store_cell (grid : VoxelVolume) (k j i : nat) (val : num) :
  cubic n grid -> k < n -> j < n -> i < n ->
  exists grid',
    store grid (JS.of_nat k) (JS.of_nat j) (JS.of_nat i) val = Some grid' /\
    cubic n grid' /\
    forall z y x,
      cell grid' z y x
      = if (z =? k) && (y =? j) && (x =? i) then Some val
        else cell grid z y x.
Proof.
  intros Hcubic Hk Hj Hi.
  destruct (@store_inside (fun _ => True) n grid (JS.of_nat k) (JS.of_nat j)
              (JS.of_nat i) val k j i Hcubic)
    as (grid' & E & Hcubic' & _);
    try apply index_of_nat; auto.
  { apply Forall_forall. intros plane _. apply Forall_forall. intros line _.
    apply Forall_forall. auto. }
  exists grid'. split; [exact E|]. split; [exact Hcubic'|].
  unfold store in E. rewrite !index_of_nat in E.
  destruct (update_nth _ _ _ E) as (_ & Hplanes & plane & plane' & Ep & E' & Ep').
  destruct (update_nth _ _ _ E') as (_ & Hlines & line & line' & El & E'' & El').
  destruct (update_nth _ _ _ E'') as (_ & Hcells & c & c' & Ec & Ev & Ec').
  injection Ev as <-.
  intros z y x. unfold cell.
  destruct (Nat.eqb_spec z k) as [->|Hz]; cbn [andb];
    [|rewrite Hplanes by exact Hz; reflexivity].
  rewrite Ep, Ep'.
  destruct (Nat.eqb_spec y j) as [->|Hy]; cbn [andb];
    [|rewrite Hlines by exact Hy; reflexivity].
  rewrite El, El'.
  destruct (Nat.eqb_spec x i) as [->|Hx];
    [exact Ec' | apply Hcells; exact Hx].
Qed.

Lemma for_each_painted (A : Type) (test : nat -> nat -> nat -> bool)
    (region : A -> nat -> nat -> nat -> bool)
    (body : VoxelVolume -> A -> option VoxelVolume) (xs : list A) :
  (forall a grid, In a xs -> cubic n grid ->
     exists grid', body grid a = Some grid' /\
                   painted n (region a) test grid grid') ->
  forall grid, cubic n grid ->
    exists grid', for_each body xs grid = Some grid' /\
      painted n (fun z y x => existsb (fun a => region a z y x) xs) test
        grid grid'.
Proof.
  induction xs as [|a xs IH]; intros Hbody grid Hcubic; cbn [for_each].
  - exists grid. split; [reflexivity|]. split; [exact Hcubic|].
    reflexivity.
  - destruct (Hbody a grid (or_introl eq_refl) Hcubic)
      as (grid1 & -> & Hc1 & H1).
    destruct (IH (fun a' g Ha' => Hbody a' g (or_intror Ha')) grid1 Hc1)
      as (grid2 & -> & Hc2 & H2).
    exists grid2. split; [reflexivity|]. split; [exact Hc2|].
    intros z y x. rewrite H2, H1. cbn [existsb].
    destruct (region a z y x), (existsb _ xs), (test z y x); reflexivity.
Qed.

Lemma existsb_seq (lo len k : nat) :
  existsb (fun a => k =? a) (seq lo len) = (lo <=? k) && (k <? lo + len).
Proof.
  revert lo. induction len as [|len IH]; intro lo; cbn [seq existsb].
  - destruct (Nat.leb_spec lo k), (Nat.ltb_spec k (lo + 0));
      try reflexivity; lia.
  - rewrite IH.
    destruct (Nat.eqb_spec k lo), (Nat.leb_spec lo k),
      (Nat.leb_spec (Datatypes.S lo) k), (Nat.ltb_spec k (lo + Datatypes.S len)),
      (Nat.ltb_spec k (Datatypes.S lo + len)); try reflexivity; lia.
Qed.

End PaintFacts.

Section BoxFacts.

Local Open Scope nat_scope.

Variable n : nat.

Lemma painted_ext (r1 r2 t1 t2 : nat -> nat -> nat -> bool)
    (grid grid' : VoxelVolume) :
  (forall z y x, r1 z y x && t1 z y x = r2 z y x && t2 z y x) ->
  painted n r1 t1 grid grid' -> painted n r2 t2 grid grid'.
Proof.
  intros H [Hc Hcell]. split; [exact Hc|].
  intros z y x. rewrite Hcell, H. reflexivity.
Qed.

Lemma existsb_and_l (A : Type) (c : bool) (f : A -> bool) (xs : list A) :
  existsb (fun a => c && f a) xs = c && existsb f xs.
Proof.
  induction xs as [|a xs IH]; cbn [existsb];
    [destruct c; reflexivity|].
  rewrite IH. destruct c, (f a); reflexivity.
Qed.

Lemma existsb_and_r (A : Type) (c : bool) (f : A -> bool) (xs : list A) :
  existsb (fun a => f a && c) xs = existsb f xs && c.
Proof.
  induction xs as [|a xs IH]; cbn [existsb]; [reflexivity|].
  rewrite IH. destruct c, (f a), (existsb f xs); reflexivity.
Qed.

Lemma inRange_seq (lo hi : Z) (k : nat) :
  (0 <= lo)%Z ->
  existsb (fun a => k =? a) (seq (Z.to_nat lo) (Z.to_nat (hi - lo)))
  = inRange lo hi k.
Proof.
  intro Hlo. rewrite existsb_seq. unfold inRange.
  destruct (Nat.leb_spec (Z.to_nat lo) k), (Z.leb_spec lo (Z.of_nat k)),
    (Nat.ltb_spec k (Z.to_nat lo + Z.to_nat (hi - lo))),
    (Z.ltb_spec (Z.of_nat k) hi); try reflexivity; lia.
Qed.

Lemma in_seq_range (lo hi : Z) (k : nat) :
  (0 <= lo)%Z -> (hi <= Z.of_nat n)%Z ->
  In k (seq (Z.to_nat lo) (Z.to_nat (hi - lo))) -> k < n.
Proof. intros Hlo Hhi Hk. apply in_seq in Hk. lia. Qed.

Variable test : num -> num -> num -> bool.
Variables zlo zhi ylo yhi xlo xhi : Z.
Hypothesis Hz : (0 <= zlo /\ zhi <= Z.of_nat n)%Z.
Hypothesis Hy : (0 <= ylo /\ yhi <= Z.of_nat n)%Z.
Hypothesis Hx : (0 <= xlo /\ xhi <= Z.of_nat n)%Z.

(** Three nested counting loops around a guarded store of 1: the stores
    stay inside the grid, and the grid they leave holds 1 on the cells
    of the box that pass the test. *)
Lemma paint_box (grid : VoxelVolume) :
  cubic n grid ->
  exists grid',
    for_index n (Fin (inject_Z zlo)) (Fin (inject_Z zhi)) (fun z =>
      for_index n (Fin (inject_Z ylo)) (Fin (inject_Z yhi)) (fun y =>
        for_index n (Fin (inject_Z xlo)) (Fin (inject_Z xhi))
          (fun x model =>
             if test z y x then store model z y x (Fin 1)
             else Some model))) grid = Some grid' /\
    painted n (inBox zlo zhi ylo yhi xlo xhi)
      (fun z y x => test (JS.of_nat z) (JS.of_nat y) (JS.of_nat x))
      grid grid'.
Proof.
  intro Hcubic. destruct Hz as [Hz0 Hz1], Hy as [Hy0 Hy1], Hx as [Hx0 Hx1].
  rewrite for_index_seq by assumption.
  destruct (@for_each_painted n nat
              (fun z y x => test (JS.of_nat z) (JS.of_nat y) (JS.of_nat x))
              (fun kz z y x =>
                 (z =? kz) && (inRange ylo yhi y && inRange xlo xhi x))
              (fun m kz =>
                 for_index n (Fin (inject_Z ylo)) (Fin (inject_Z yhi))
                   (fun y =>
                      for_index n (Fin (inject_Z xlo)) (Fin (inject_Z xhi))
                        (fun x model =>
                           if test (JS.of_nat kz) y x
                           then store model (JS.of_nat kz) y x (Fin 1)
                           else Some model)) m)
              (seq (Z.to_nat zlo) (Z.to_nat (zhi - zlo))))
    with (grid := grid) as (grid' & E & Hp); [|exact Hcubic|].
  - intros kz g Hkz Hg. apply (@in_seq_range zlo zhi kz Hz0 Hz1) in Hkz.
    rewrite for_index_seq by assumption.
    destruct (@for_each_painted n nat
                (fun z y x => test (JS.of_nat z) (JS.of_nat y) (JS.of_nat x))
                (fun ky z y x =>
                   (z =? kz) && ((y =? ky) && inRange xlo xhi x))
                (fun m ky =>
                   for_index n (Fin (inject_Z xlo)) (Fin (inject_Z xhi))
                     (fun x model =>
                        if test (JS.of_nat kz) (JS.of_nat ky) x
                        then store model (JS.of_nat kz) (JS.of_nat ky) x
                               (Fin 1)
                        else Some model) m)
                (seq (Z.to_nat ylo) (Z.to_nat (yhi - ylo))))
      with (grid := g) as (g' & E & Hp); [|exact Hg|].
    + intros ky g1 Hky Hg1. apply (@in_seq_range ylo yhi ky Hy0 Hy1) in Hky.
      rewrite for_index_seq by assumption.
      destruct (@for_each_painted n nat
                  (fun z y x =>
                     test (JS.of_nat z) (JS.of_nat y) (JS.of_nat x))
                  (fun kx z y x => (z =? kz) && ((y =? ky) && (x =? kx)))
                  (fun m kx =>
                     if test (JS.of_nat kz) (JS.of_nat ky) (JS.of_nat kx)
                     then store m (JS.of_nat kz) (JS.of_nat ky)
                            (JS.of_nat kx) (Fin 1)
                     else Some m)
                  (seq (Z.to_nat xlo) (Z.to_nat (xhi - xlo))))
        with (grid := g1) as (g2 & E & Hp); [|exact Hg1|].
      * intros kx g2 Hkx Hg2. apply (@in_seq_range xlo xhi kx Hx0 Hx1) in Hkx.
        destruct (test (JS.of_nat kz) (JS.of_nat ky) (JS.of_nat kx)) eqn:Et.
        -- destruct (@store_cell n g2 kz ky kx (Fin 1) Hg2 Hkz Hky Hkx)
             as (g3 & -> & Hg3 & Hcell).
           exists g3. split; [reflexivity|]. split; [exact Hg3|].
           intros z y x. rewrite Hcell.
           destruct (Nat.eqb_spec z kz) as [->|]; [|reflexivity].
           destruct (Nat.eqb_spec y ky) as [->|]; [|reflexivity].
           destruct (Nat.eqb_spec x kx) as [->|]; [|reflexivity].
           cbn [andb]. rewrite Et. reflexivity.
        -- exists g2. split; [reflexivity|]. split; [exact Hg2|].
           intros z y x.
           destruct (Nat.eqb_spec z kz) as [->|]; [|reflexivity].
           destruct (Nat.eqb_spec y ky) as [->|]; [|reflexivity].
           destruct (Nat.eqb_spec x kx) as [->|]; [|reflexivity].
           cbn [andb]. rewrite Et. reflexivity.
      * exists g2. split; [exact E|].
        eapply painted_ext; [|exact Hp]. intros z y x. cbv beta.
        rewrite !existsb_and_l, inRange_seq by assumption. reflexivity.
    + exists g'. split; [exact E|].
      eapply painted_ext; [|exact Hp]. intros z y x. cbv beta.
      rewrite existsb_and_l, existsb_and_r, inRange_seq by assumption.
      reflexivity.
  - exists grid'. split; [exact E|].
    eapply painted_ext; [|exact Hp]. intros z y x. cbv beta.
    rewrite existsb_and_r, inRange_seq by assumption. reflexivity.
Qed.

End BoxFacts.

Section ModelLoops.

Import NumFacts.

Variable Math_sqrt : num -> num.
Variable Math_atan2 : num -> num -> num.
Variable n : nat.

Lemma sphereModel_loops (model : VoxelVolume) :
  sphereModel Math_sqrt n model
  = for_index n (Fin (inject_Z 0)) (Fin (inject_Z (Z.of_nat n))) (fun z =>
      for_index n (Fin (inject_Z 0)) (Fin (inject_Z (Z.of_nat n))) (fun y =>
        for_index n (Fin (inject_Z 0)) (Fin (inject_Z (Z.of_nat n)))
          (fun x model =>
             if sphereTest Math_sqrt n z y x then store model z y x (Fin 1)
             else Some model))) model.
Proof. reflexivity. Qed.

Lemma gearModel_loops (model : VoxelVolume) :
  gearModel Math_sqrt Math_atan2 n model
  = for_index n (Fin (inject_Z (gearLow n))) (Fin (inject_Z (gearHigh n)))
      (fun z =>
      for_index n (Fin (inject_Z 0)) (Fin (inject_Z (Z.of_nat n))) (fun y =>
        for_index n (Fin (inject_Z 0)) (Fin (inject_Z (Z.of_nat n)))
          (fun x model =>
             if gearTest Math_sqrt Math_atan2 n z y x
             then store model z y x (Fin 1)
             else Some model))) model.
Proof. reflexivity. Qed.

Lemma cubeStart_int : cubeStart n = Fin (inject_Z (cubeLow n)).
Proof.
  unfold cubeLow, cubeStart, JS.of_nat, JS.of_Z.
  cbn [JS.mul JS.sub floorZ].
  change (JS.div (Fin ?p) (Fin 2)) with (Fin (Qred (p / 2))).
  cbn [JS.floor]. unfold JS.of_Z, floorZ. rewrite Qfloor_Z. reflexivity.
Qed.

Lemma cubeEnd_int : cubeEnd n = Fin (inject_Z (cubeHigh n)).
Proof.
  unfold cubeHigh, cubeEnd, JS.of_nat, JS.of_Z.
  cbn [JS.mul JS.sub floorZ].
  change (JS.div (Fin ?p) (Fin 2)) with (Fin (Qred (p / 2))).
  cbn [JS.add JS.floor]. unfold JS.of_Z, floorZ. rewrite Qfloor_Z.
  reflexivity.
Qed.

Lemma cubeModel_loops (model : VoxelVolume) :
  cubeModel n model
  = for_index n (Fin (inject_Z (cubeLow n))) (Fin (inject_Z (cubeHigh n)))
      (fun z =>
      for_index n (Fin (inject_Z (cubeLow n))) (Fin (inject_Z (cubeHigh n)))
        (fun y =>
        for_index n (Fin (inject_Z (cubeLow n)))
          (Fin (inject_Z (cubeHigh n)))
          (fun x model =>
             if (fun _ _ _ : num => true) z y x
             then store model z y x (Fin 1)
             else Some model))) model.
Proof.
  rewrite <- cubeStart_int, <- cubeEnd_int. reflexivity.
Qed.

End ModelLoops.

Section ModelBounds.

Local Open Scope Q_scope.

Variable n : nat.
Local Abbreviation N := (inject_Z (Z.of_nat n)).

Lemma Qfloor_frac (q : Q) (a : Z) (p : positive) :
  q == inject_Z a / inject_Z (Z.pos p) -> Qfloor q = (a / Z.pos p)%Z.
Proof.
  intro H. rewrite <- Qmake_Qdiv in H.
  rewrite (Qfloor_comp _ _ H). reflexivity.
Qed.

(** The bounds of the cube and of the gear, as integer quotients. *)
Lemma cubeLow_val : cubeLow n = (3 * Z.of_nat n / 10)%Z.
Proof.
  unfold cubeLow, cubeStart, JS.of_nat, JS.of_Z.
  cbn [JS.mul JS.sub].
  change (JS.div (Fin ?p) (Fin 2)) with (Fin (Qred (p / 2))).
  cbn [JS.floor]. unfold JS.of_Z, floorZ. rewrite Qfloor_Z.
  apply Qfloor_frac. rewrite !Qred_correct, ?inject_Z_mult. field.
Qed.

Lemma cubeHigh_val : cubeHigh n = (7 * Z.of_nat n / 10)%Z.
Proof.
  unfold cubeHigh, cubeEnd, JS.of_nat, JS.of_Z.
  cbn [JS.mul JS.sub].
  change (JS.div (Fin ?p) (Fin 2)) with (Fin (Qred (p / 2))).
  cbn [JS.add JS.floor]. unfold JS.of_Z, floorZ. rewrite Qfloor_Z.
  apply Qfloor_frac. rewrite !Qred_correct, ?inject_Z_mult. field.
Qed.

Lemma gearLow_val : gearLow n = (Z.of_nat n / 5)%Z.
Proof.
  unfold gearLow, JS.of_nat, JS.of_Z.
  cbn [JS.mul JS.sub].
  change (JS.div (Fin ?p) (Fin 2)) with (Fin (Qred (p / 2))).
  unfold floorZ.
  apply Qfloor_frac. rewrite !Qred_correct, ?inject_Z_mult. field.
Qed.

Lemma gearHigh_val : gearHigh n = (4 * Z.of_nat n / 5)%Z.
Proof.
  unfold gearHigh, JS.of_nat, JS.of_Z.
  cbn [JS.mul JS.sub].
  change (JS.div (Fin ?p) (Fin 2)) with (Fin (Qred (p / 2))).
  cbn [JS.add]. unfold floorZ.
  apply Qfloor_frac. rewrite !Qred_correct, ?inject_Z_mult. field.
Qed.

Lemma quotient_bounds (a b : Z) :
  (0 <= a <= b)%Z -> (0 < b)%Z ->
  (0 <= a * Z.of_nat n / b /\ a * Z.of_nat n / b <= Z.of_nat n)%Z.
Proof.
  intros Ha Hb. split.
  - apply Z.div_pos; nia.
  - apply Z.div_le_upper_bound; nia.
Qed.

End ModelBounds.

Section ModelCells.

Local Open Scope nat_scope.

Lemma cells_of_cell (P : num -> Prop) (n : nat) (grid : VoxelVolume) :
  (forall z y x c, cell grid z y x = Some c -> P c) -> cells P grid.
Proof.
  intro H. unfold cells.
  apply Forall_forall. intros plane Hp.
  apply Forall_forall. intros line Hl.
  apply Forall_forall. intros c Hc.
  apply In_nth_error in Hp, Hl, Hc.
  destruct Hp as (z & Hz), Hl as (y & Hy), Hc as (x & Hx).
  apply (H z y x). unfold cell. rewrite Hz, Hy. exact Hx.
Qed.

Lemma zeros_cell (n z y x : nat) (c : num) :
  cell (zeros n) z y x = Some c -> c = Fin 0.
Proof.
  unfold cell, zeros. intro H.
  destruct (nth_error _ z) as [plane|] eqn:Ez; [|discriminate].
  apply nth_error_In, repeat_spec in Ez. subst plane.
  destruct (nth_error _ y) as [line|] eqn:Ey; [|discriminate].
  apply nth_error_In, repeat_spec in Ey. subst line.
  apply nth_error_In, repeat_spec in H. exact H.
Qed.

Lemma cell_zeros (n z y x : nat) :
  z < n -> y < n -> x < n -> cell (zeros n) z y x = Some (Fin 0).
Proof.
  intros Hz Hy Hx. unfold cell, zeros.
  rewrite !nth_error_repeat by assumption. reflexivity.
Qed.

(** A grid painted on the empty grid holds 0 and 1 only. *)
Lemma painted_binary (n : nat) (region test : nat -> nat -> nat -> bool)
    (grid : VoxelVolume) :
  painted n region test (zeros n) grid -> cells binary grid.
Proof.
  intros [_ H]. apply cells_of_cell with (n := n).
  intros z y x c. rewrite H.
  destruct (region z y x && test z y x).
  - intros [= <-]. right. reflexivity.
  - intro Hc. left. apply (zeros_cell _ _ _ _ Hc).
Qed.

Variable Math_sqrt : num -> num.
Variable Math_atan2 : num -> num -> num.
Variable n : nat.

Lemma sphere_painted :
  exists model,
    sphereModel Math_sqrt n (zeros n) = Some model /\
    painted n (inBox 0 (Z.of_nat n) 0 (Z.of_nat n) 0 (Z.of_nat n))
      (fun z y x =>
         sphereTest Math_sqrt n (JS.of_nat z) (JS.of_nat y) (JS.of_nat x))
      (zeros n) model.
Proof.
  rewrite sphereModel_loops.
  apply paint_box; try lia. apply zeros_cubic.
Qed.

Lemma gear_painted :
  exists model,
    gearModel Math_sqrt Math_atan2 n (zeros n) = Some model /\
    painted n
      (inBox (gearLow n) (gearHigh n) 0 (Z.of_nat n) 0 (Z.of_nat n))
      (fun z y x =>
         gearTest Math_sqrt Math_atan2 n (JS.of_nat z) (JS.of_nat y)
           (JS.of_nat x))
      (zeros n) model.
Proof.
  rewrite gearModel_loops.
  pose proof (@quotient_bounds n 1 5 ltac:(lia) ltac:(lia)) as H1.
  pose proof (@quotient_bounds n 4 5 ltac:(lia) ltac:(lia)) as H4.
  rewrite Z.mul_1_l in H1.
  apply paint_box; try lia; [|apply zeros_cubic].
  rewrite gearLow_val, gearHigh_val. lia.
Qed.

Lemma cube_painted :
  exists model,
    cubeModel n (zeros n) = Some model /\
    painted n
      (inBox (cubeLow n) (cubeHigh n) (cubeLow n) (cubeHigh n)
         (cubeLow n) (cubeHigh n))
      (fun _ _ _ => true) (zeros n) model.
Proof.
  rewrite cubeModel_loops.
  pose proof (@quotient_bounds n 3 10 ltac:(lia) ltac:(lia)) as H3.
  pose proof (@quotient_bounds n 7 10 ltac:(lia) ltac:(lia)) as H7.
  apply paint_box with (test := fun _ _ _ : num => true);
    try apply zeros_cubic; rewrite cubeLow_val, cubeHigh_val; lia.
Qed.

End ModelCells.

(** X14: [createTestModel] never stores outside its grid: for every
    size, every model type and whatever [Math.sqrt] and [Math.atan2]
    return, it returns a grid of size-cubed cells that holds 0 and 1
    only. *)
Theorem createTestModel_total (Math_sqrt : num -> num)
    (Math_atan2 : num -> num -> num) (self : CALProjector)
    (modelType : ModelType) :
  exists model,
    createTestModel Math_sqrt Math_atan2 self modelType = Some model /\
    cubic (volumeSize self) model /\ cells binary model.
Proof.
  unfold createTestModel. destruct modelType.
  - destruct (gear_painted Math_sqrt Math_atan2 (volumeSize self))
      as (model & -> & Hp).
    exists model. split; [reflexivity|].
    split; [apply Hp | apply (painted_binary Hp)].
  - destruct (cube_painted (volumeSize self)) as (model & -> & Hp).
    exists model. split; [reflexivity|].
    split; [apply Hp | apply (painted_binary Hp)].
  - destruct (sphere_painted Math_sqrt (volumeSize self))
      as (model & -> & Hp).
    exists model. split; [reflexivity|].
    split; [apply Hp | apply (painted_binary Hp)].
  - exists (zeros (volumeSize self)). split; [reflexivity|].
    split; [apply zeros_cubic | apply zeros_cells; left; reflexivity].
Qed.

Section SpanFacts.

Local Open Scope nat_scope.

Variable n : nat.

Lemma inRange_full (k : nat) : k < n -> inRange 0 (Z.of_nat n) k = true.
Proof.
  intro H. unfold inRange.
  destruct (Z.leb_spec 0 (Z.of_nat k)), (Z.ltb_spec (Z.of_nat k) (Z.of_nat n));
    try reflexivity; lia.
Qed.

Lemma inRange_quotients (a b c d : nat) (k : nat) :
  0 < b -> 0 < d ->
  inRange (Z.of_nat a * Z.of_nat n / Z.of_nat b)
    (Z.of_nat c * Z.of_nat n / Z.of_nat d) k
  = (a * n / b <=? k) && (k <? c * n / d).
Proof.
  intros Hb Hd. unfold inRange.
  rewrite <- !Nat2Z.inj_mul, <- !Nat2Z.inj_div.
  destruct (Z.leb_spec (Z.of_nat (a * n / b)) (Z.of_nat k)),
    (Nat.leb_spec (a * n / b) k),
    (Z.ltb_spec (Z.of_nat k) (Z.of_nat (c * n / d))),
    (Nat.ltb_spec k (c * n / d)); try reflexivity; lia.
Qed.

Lemma cube_inRange (k : nat) :
  inRange (cubeLow n) (cubeHigh n) k = cubeSpan n k.
Proof.
  rewrite cubeLow_val, cubeHigh_val.
  apply (@inRange_quotients 3 10 7 10 k); lia.
Qed.

Lemma gear_inRange (k : nat) :
  inRange (gearLow n) (gearHigh n) k = gearSpan n k.
Proof.
  rewrite gearLow_val, gearHigh_val.
  rewrite <- (Z.mul_1_l (Z.of_nat n)) at 1.
  etransitivity; [apply (@inRange_quotients 1 5 4 5 k); lia|].
  unfold gearSpan. rewrite Nat.mul_1_l. reflexivity.
Qed.

End SpanFacts.

(** X15: the cube of [createTestModel] at every size [n]: the cell
    [(x, y, z)] holds 1 when each of x, y, z lies in
    [[floor(3n / 10), floor(7n / 10))], and 0 otherwise. *)
Theorem cube_cells_every_size (Math_sqrt : num -> num)
    (Math_atan2 : num -> num -> num) (self : CALProjector) :
  exists model,
    createTestModel Math_sqrt Math_atan2 self cube = Some model /\
    forall x y z,
      (x < volumeSize self)%nat -> (y < volumeSize self)%nat ->
      (z < volumeSize self)%nat ->
      cell model z y x
      = Some (if cubeSpan (volumeSize self) x &&
                 cubeSpan (volumeSize self) y &&
                 cubeSpan (volumeSize self) z
              then Fin 1 else Fin 0).
Proof.
  unfold createTestModel.
  destruct (cube_painted (volumeSize self)) as (model & -> & _ & Hcell).
  exists model. split; [reflexivity|].
  intros x y z Hx Hy Hz. rewrite Hcell. unfold inBox.
  rewrite !cube_inRange, cell_zeros by assumption.
  destruct (cubeSpan _ x), (cubeSpan _ y), (cubeSpan _ z); reflexivity.
Qed.

Section SphereFacts.

Import NumFacts.
Local Open Scope Q_scope.

Variable Math_sqrt : num -> num.
Variable n : nat.

(** The test of the sphere sees the cell through the sum of the three
    squared distances to the centre. *)
Lemma sphereTest_sum (z y x z' y' x' : nat) :
  (inject_Z (Z.of_nat x) - inject_Z (Z.of_nat n) / 2) ^ 2
  + (inject_Z (Z.of_nat y) - inject_Z (Z.of_nat n) / 2) ^ 2
  + (inject_Z (Z.of_nat z) - inject_Z (Z.of_nat n) / 2) ^ 2
  == (inject_Z (Z.of_nat x') - inject_Z (Z.of_nat n) / 2) ^ 2
     + (inject_Z (Z.of_nat y') - inject_Z (Z.of_nat n) / 2) ^ 2
     + (inject_Z (Z.of_nat z') - inject_Z (Z.of_nat n) / 2) ^ 2 ->
  sphereTest Math_sqrt n (JS.of_nat z) (JS.of_nat y) (JS.of_nat x)
  = sphereTest Math_sqrt n (JS.of_nat z') (JS.of_nat y') (JS.of_nat x').
Proof.
  intro H. unfold sphereTest, JS.pow2.
  rewrite (half_side n). unfold JS.of_nat, JS.of_Z.
  cbn [JS.sub JS.mul JS.add]. do 3 f_equal.
  apply Qred_eq. rewrite !Qred_correct.
  simpl Qpower in H. unfold sideQ. lra.
Qed.

End SphereFacts.

(** X16: the sphere of [createTestModel] is symmetric at every size and
    whatever [Math.sqrt] returns: its cells are unchanged by exchanging
    two axes, and by the reflection [x -> n - x] about the centre
    [n / 2] (for x from 1 to n - 1). *)
Theorem sphere_symmetric (Math_sqrt : num -> num)
    (Math_atan2 : num -> num -> num) (self : CALProjector) :
  exists model,
    createTestModel Math_sqrt Math_atan2 self sphere = Some model /\
    forall x y z,
      (x < volumeSize self)%nat -> (y < volumeSize self)%nat ->
      (z < volumeSize self)%nat ->
      cell model z y x = cell model x y z /\
      cell model z y x = cell model z x y /\
      ((0 < x)%nat -> cell model z y x = cell model z y (volumeSize self - x)).
Proof.
  unfold createTestModel.
  destruct (sphere_painted Math_sqrt (volumeSize self))
    as (model & -> & _ & Hcell).
  exists model. split; [reflexivity|].
  intros x y z Hx Hy Hz.
  assert (E : forall a b c, (a < volumeSize self)%nat ->
                (b < volumeSize self)%nat -> (c < volumeSize self)%nat ->
                cell model c b a
                = Some (if sphereTest Math_sqrt (volumeSize self)
                             (JS.of_nat c) (JS.of_nat b) (JS.of_nat a)
                        then Fin 1 else Fin 0)).
  { intros a b c Ha Hb Hc. rewrite Hcell. unfold inBox.
    rewrite !inRange_full, cell_zeros by assumption. cbn [andb].
    destruct (sphereTest _ _ _ _ _); reflexivity. }
  rewrite !E by assumption.
  split; [|split].
  - rewrite (@sphereTest_sum Math_sqrt (volumeSize self) z y x x y z);
      [reflexivity | ring].
  - rewrite (@sphereTest_sum Math_sqrt (volumeSize self) z y x z x y);
      [reflexivity | ring].
  - intro Hx0. rewrite E by lia.
    rewrite (@sphereTest_sum Math_sqrt (volumeSize self) z y x z y
               (volumeSize self - x)); [reflexivity|].
    rewrite (Nat2Z.inj_sub _ _ (Nat.lt_le_incl _ _ Hx)).
    unfold Z.sub. rewrite inject_Z_plus, inject_Z_opp.
    simpl Qpower. field.
Qed.

(** X17: the gear of [createTestModel] is an extrusion along z, at every
    size and whatever [Math.sqrt] and [Math.atan2] return: the slices
    with z in [[floor(n / 5), floor(4n / 5))] are all equal, and the
    slices outside that range are empty. *)
Theorem gear_extruded (Math_sqrt : num -> num)
    (Math_atan2 : num -> num -> num) (self : CALProjector) :
  exists model,
    createTestModel Math_sqrt Math_atan2 self gear = Some model /\
    forall x y z,
      (x < volumeSize self)%nat -> (y < volumeSize self)%nat ->
      (z < volumeSize self)%nat ->
      (gearSpan (volumeSize self) z = false ->
       cell model z y x = Some (Fin 0)) /\
      (forall z', (z' < volumeSize self)%nat ->
         gearSpan (volumeSize self) z = true ->
         gearSpan (volumeSize self) z' = true ->
         cell model z y x = cell model z' y x).
Proof.
  unfold createTestModel.
  destruct (gear_painted Math_sqrt Math_atan2 (volumeSize self))
    as (model & -> & _ & Hcell).
  exists model. split; [reflexivity|].
  intros x y z Hx Hy Hz. split.
  - intro Hout. rewrite Hcell. unfold inBox.
    rewrite gear_inRange, Hout, cell_zeros by assumption. reflexivity.
  - intros z' Hz' Hin Hin'. rewrite !Hcell. unfold inBox.
    rewrite !gear_inRange, Hin, Hin', !cell_zeros by assumption.
    reflexivity.
Qed.

Section GearRadii.

Import NumFacts.
Local Open Scope Q_scope.

Variable Math_sqrt : num -> num.
Variable Math_atan2 : num -> num -> num.
Variable n : nat.
Local Abbreviation N := (inject_Z (Z.of_nat n)).

(** The radius a cell is compared with is that of the tips, [n / 3], or
    that of the roots, [17 n / 60]. *)
Lemma gearTest_radius (z y x : nat) :
  exists e,
    gearTest Math_sqrt Math_atan2 n (JS.of_nat z) (JS.of_nat y) (JS.of_nat x)
    = JS.leb (gearDist Math_sqrt n y x) (Fin e) /\
    (17 # 60) * N <= e <= N / 3.
Proof.
  assert (HN : 0 <= N) by (change 0 with (inject_Z 0);
                           rewrite <- Zle_Qle; lia).
  unfold gearTest, gearDist.
  change (JS.div (JS.of_nat n) (Fin 3)) with (Fin (Qred (N / 3))).
  change (JS.div (JS.of_nat n) (Fin 6)) with (Fin (Qred (N / 6))).
  cbv zeta.
  match goal with
  | |- context [if ?c then Fin 1 else Fin (7 # 10)] => destruct c
  end; cbn [JS.sub JS.mul JS.add];
    (eexists; split; [reflexivity|]); rewrite !Qred_correct;
    revert HN; generalize (inject_Z (Z.of_nat n)); intros m Hm;
    setoid_replace (m / 6) with (m * (1 # 6)) by field;
    setoid_replace (m / 3) with (m * (1 # 3)) by field; lra.
Qed.

End GearRadii.

(** X18: the gear of [createTestModel] lies between its two circles, at
    every size and whatever [Math.sqrt] and [Math.atan2] return: in the
    slices of the gear, a cell whose [dist] is above the tip radius
    [size / 3] is empty, and a cell whose [dist] is at most the root
    radius [17 * size / 60] (inner + 0.7 * (outer - inner)) is set. *)
Theorem gear_between_circles (Math_sqrt : num -> num)
    (Math_atan2 : num -> num -> num) (self : CALProjector) :
  exists model,
    createTestModel Math_sqrt Math_atan2 self gear = Some model /\
    forall x y z,
      (x < volumeSize self)%nat -> (y < volumeSize self)%nat ->
      (z < volumeSize self)%nat ->
      gearSpan (volumeSize self) z = true ->
      (JS.gtb (gearDist Math_sqrt (volumeSize self) y x)
         (JS.div (JS.of_nat (volumeSize self)) (Fin 3)) = true ->
       cell model z y x = Some (Fin 0)) /\
      (JS.leb (gearDist Math_sqrt (volumeSize self) y x)
         (JS.mul (JS.of_nat (volumeSize self)) (Fin (17 # 60))) = true ->
       cell model z y x = Some (Fin 1)).
Proof.
  unfold createTestModel.
  destruct (gear_painted Math_sqrt Math_atan2 (volumeSize self))
    as (model & -> & _ & Hcell).
  exists model. split; [reflexivity|].
  intros x y z Hx Hy Hz Hin. rewrite Hcell. unfold inBox.
  rewrite gear_inRange, Hin, !inRange_full, cell_zeros by assumption.
  cbn [andb].
  destruct (gearTest_radius Math_sqrt Math_atan2 (volumeSize self) z y x)
    as (e & -> & He0 & He1).
  change (JS.div (JS.of_nat (volumeSize self)) (Fin 3))
    with (Fin (Qred (inject_Z (Z.of_nat (volumeSize self)) / 3))).
  unfold JS.of_nat, JS.of_Z. cbn [JS.mul].
  unfold JS.gtb.
  destruct (gearDist Math_sqrt (volumeSize self) y x) as [d| | |];
    split; intro H; try discriminate H; try reflexivity.
  - apply NumFacts.ltb_Fin in H. rewrite Qred_correct in H.
    destruct (JS.leb (Fin d) (Fin e)) eqn:E; [|reflexivity].
    apply NumFacts.leb_Fin in E. exfalso.
    apply (Qlt_irrefl d). apply Qle_lt_trans with e; [exact E|].
    apply Qle_lt_trans with (inject_Z (Z.of_nat (volumeSize self)) / 3);
      assumption.
  - apply NumFacts.leb_Fin in H. rewrite Qred_correct in H.
    rewrite (proj2 (NumFacts.leb_Fin d e)); [reflexivity|].
    apply Qle_trans with (inject_Z (Z.of_nat (volumeSize self)) * (17 # 60));
      [exact H|].
    rewrite Qmult_comm. exact He0.
Qed.

(* ===================================================================== *)
(** ** The images of the page *)
(* ===================================================================== *)

Section ImageFacts.

Local Open Scope nat_scope.

Lemma setAt_app (pre rest : list N) (b byte : N) :
  Canvas.setAt (pre ++ b :: rest) (length pre) byte = pre ++ byte :: rest.
Proof.
  induction pre as [|p pre IH]; cbn [app length Canvas.setAt];
    [reflexivity|].
  rewrite IH. reflexivity.
Qed.

(** The stores of a pixel fill the four bytes at its index. *)
Lemma putPixel_app (pre rest : list N) (b0 b1 b2 b3 : N) (value : num) :
  Canvas.putPixel (pre ++ b0 :: b1 :: b2 :: b3 :: rest) (length pre) value
  = pre ++ [Canvas.toUint8Clamp value; Canvas.toUint8Clamp value;
            Canvas.toUint8Clamp value; 255%N] ++ rest.
Proof.
  unfold Canvas.putPixel. rewrite setAt_app.
  replace (pre ++ Canvas.toUint8Clamp value :: b1 :: b2 :: b3 :: rest)
    with ((pre ++ [Canvas.toUint8Clamp value]) ++ b1 :: b2 :: b3 :: rest)
    by (rewrite <- app_assoc; reflexivity).
  replace (length pre + 1) with (length (pre ++ [Canvas.toUint8Clamp value]))
    by (rewrite length_app; reflexivity).
  rewrite setAt_app.
  replace ((pre ++ [Canvas.toUint8Clamp value])
           ++ Canvas.toUint8Clamp value :: b2 :: b3 :: rest)
    with ((pre ++ [Canvas.toUint8Clamp value; Canvas.toUint8Clamp value])
          ++ b2 :: b3 :: rest)
    by (rewrite <- !app_assoc; reflexivity).
  replace (length pre + 2)
    with (length (pre ++ [Canvas.toUint8Clamp value;
                          Canvas.toUint8Clamp value]))
    by (rewrite length_app; reflexivity).
  rewrite setAt_app.
  replace ((pre ++ [Canvas.toUint8Clamp value; Canvas.toUint8Clamp value])
           ++ Canvas.toUint8Clamp value :: b3 :: rest)
    with ((pre ++ [Canvas.toUint8Clamp value; Canvas.toUint8Clamp value;
                   Canvas.toUint8Clamp value]) ++ b3 :: rest)
    by (rewrite <- !app_assoc; reflexivity).
  replace (length pre + 3)
    with (length (pre ++ [Canvas.toUint8Clamp value;
                          Canvas.toUint8Clamp value;
                          Canvas.toUint8Clamp value]))
    by (rewrite length_app; reflexivity).
  rewrite setAt_app, <- !app_assoc. reflexivity.
Qed.

Variable w : nat.

(** A row of pixels written from left to right. *)
Lemma row_written (value : nat -> num) (y : nat) (k : nat) :
  forall x0 pre rest,
    length pre = (y * w + x0) * 4 ->
    fold_left (fun bytes x =>
                 Canvas.putPixel bytes ((y * w + x) * 4) (value x))
      (seq x0 k) (pre ++ repeat 0%N (4 * k) ++ rest)
    = pre
      ++ concat (map (fun x => [Canvas.toUint8Clamp (value x);
                                Canvas.toUint8Clamp (value x);
                                Canvas.toUint8Clamp (value x); 255%N])
                   (seq x0 k))
      ++ rest.
Proof.
  induction k as [|k IH]; intros x0 pre rest Hpre; [reflexivity|].
  replace (4 * Datatypes.S k) with (Datatypes.S (Datatypes.S (Datatypes.S
    (Datatypes.S (4 * k))))) by lia.
  cbn [seq fold_left repeat app map concat].
  rewrite <- Hpre, putPixel_app.
  replace (pre ++ [Canvas.toUint8Clamp (value x0);
                   Canvas.toUint8Clamp (value x0);
                   Canvas.toUint8Clamp (value x0); 255%N]
               ++ repeat 0%N (4 * k) ++ rest)
    with ((pre ++ [Canvas.toUint8Clamp (value x0);
                   Canvas.toUint8Clamp (value x0);
                   Canvas.toUint8Clamp (value x0); 255%N])
          ++ repeat 0%N (4 * k) ++ rest)
    by (rewrite <- app_assoc; reflexivity).
  rewrite IH by (rewrite length_app, Hpre; cbn [length]; lia).
  rewrite <- app_assoc. reflexivity.
Qed.

Lemma row_length (level : nat -> N) (x0 k : nat) :
  length (concat (map (fun x => [level x; level x; level x; 255%N])
                    (seq x0 k))) = 4 * k.
Proof.
  revert x0. induction k as [|k IH]; intro x0; [reflexivity|].
  cbn [seq map concat length app]. rewrite IH. lia.
Qed.

(** The rows written from top to bottom, by any writer of rows. *)
Lemma rows_written (writeRow : list N -> nat -> list N)
    (level : nat -> nat -> N) (k : nat) :
  (forall y pre rest, length pre = y * w * 4 ->
     writeRow (pre ++ repeat 0%N (4 * w) ++ rest) y
     = pre
       ++ concat (map (fun x => [level y x; level y x; level y x; 255%N])
                    (seq 0 w))
       ++ rest) ->
  forall y0 pre,
    length pre = y0 * w * 4 ->
    fold_left writeRow (seq y0 k) (pre ++ repeat 0%N (4 * w * k))
    = pre
      ++ concat (map (fun y =>
                   concat (map (fun x =>
                             [level y x; level y x; level y x; 255%N])
                             (seq 0 w)))
                   (seq y0 k)).
Proof.
  intro Hrow. induction k as [|k IH]; intros y0 pre Hpre.
  - rewrite Nat.mul_0_r. reflexivity.
  - replace (4 * w * Datatypes.S k) with (4 * w + 4 * w * k) by lia.
    rewrite repeat_app. cbn [seq fold_left map concat].
    rewrite Hrow by exact Hpre.
    rewrite app_assoc, IH.
    + rewrite <- app_assoc. reflexivity.
    + rewrite length_app, row_length, Hpre. lia.
Qed.

End ImageFacts.

Section DrawFacts.

Import NumFacts.
Local Open Scope Q_scope.

Variable canvasSize : nat.
Hypothesis Hcanvas : (0 < canvasSize)%nat.

Lemma Qfloor_nat_quotient (q : Q) (a b : nat) :
  (0 < b)%nat ->
  q == inject_Z (Z.of_nat a) / inject_Z (Z.of_nat b) ->
  JS.floor (Fin q) = JS.of_nat (a / b).
Proof.
  intros Hb Hq. cbn [JS.floor]. unfold JS.of_nat. f_equal.
  destruct b as [|b]; [lia|].
  rewrite Nat2Z.inj_div.
  replace (Z.of_nat (Datatypes.S b)) with (Z.pos (Pos.of_succ_nat b)) in *
    by lia.
  apply Qfloor_frac. exact Hq.
Qed.

(** The entry of the projection a canvas coordinate falls on. *)
Lemma canvas_to_projection (size k : nat) :
  JS.floor (JS.div (JS.of_nat k)
              (JS.div (JS.of_nat canvasSize) (JS.of_nat size)))
  = JS.of_nat (k * size / canvasSize).
Proof.
  assert (HC : 0 < inject_Z (Z.of_nat canvasSize)).
  { change 0 with (inject_Z 0). rewrite <- Zlt_Qlt. lia. }
  destruct size as [|size].
  - rewrite Nat.mul_0_r, Nat.Div0.div_0_l.
    unfold JS.of_nat, JS.of_Z. cbn [JS.div Z.of_nat].
    change (Qeq_bool (inject_Z 0) 0) with true. cbv iota.
    assert (Es : JS.Qsgn (inject_Z (Z.of_nat canvasSize)) = 1%Z).
    { unfold JS.Qsgn. cbn [Qnum inject_Z]. lia. }
    rewrite Es. reflexivity.
  - assert (HS : 0 < inject_Z (Z.of_nat (Datatypes.S size))).
    { change 0 with (inject_Z 0). rewrite <- Zlt_Qlt. lia. }
    unfold JS.of_nat at 1 2 3, JS.of_Z. cbn [JS.div].
    destruct (Qeq_bool (inject_Z (Z.of_nat (Datatypes.S size))) 0) eqn:E0;
      [apply Qeq_bool_iff in E0; lra|].
    destruct (Qeq_bool (Qred (inject_Z (Z.of_nat canvasSize) /
                              inject_Z (Z.of_nat (Datatypes.S size)))) 0)
      eqn:E.
    + apply Qeq_bool_iff in E. rewrite Qred_correct in E.
      exfalso. apply (Qlt_irrefl 0). rewrite <- E at 2.
      apply Qlt_shift_div_l; lra.
    + apply Qfloor_nat_quotient; [exact Hcanvas|].
      rewrite !Qred_correct, Nat2Z.inj_mul, inject_Z_mult. field. lra.
Qed.

End DrawFacts.

Section CanvasFacts.

Local Open Scope nat_scope.

Lemma lookup_of_nat (data : list (list num)) (j i : nat) :
  Canvas.lookup data (JS.of_nat j) (JS.of_nat i)
  = (line <- nth_error data j ;; nth_error line i).
Proof. unfold Canvas.lookup. rewrite !index_of_nat. reflexivity. Qed.

Lemma createImageData_pos (w : nat) :
  0 < w -> Canvas.createImageData w = Some (repeat 0%N (4 * w * w)).
Proof.
  intro H. unfold Canvas.createImageData.
  destruct (Nat.eqb_spec w 0); [lia | reflexivity].
Qed.

(** The bytes of a grey image, pixel by pixel. *)
Lemma greyImage_pixel (w : nat) (level : nat -> nat -> N) (y x c : nat) :
  y < w -> x < w -> c < 4 ->
  nth_error (greyImage w level) (4 * (y * w + x) + c)
  = Some (if c <? 3 then level y x else 255%N).
Proof.
  intros Hy Hx Hc. unfold greyImage.
  replace (4 * (y * w + x) + c) with (y * (4 * w) + (4 * x + c)) by lia.
  rewrite (@nth_error_concat_const _ (4 * w)); [| |lia].
  - rewrite nth_error_map, nth_error_seq0 by exact Hy. cbn [option_map].
    replace (4 * x + c) with (x * 4 + c) by lia.
    rewrite (@nth_error_concat_const _ 4); [| |lia].
    + rewrite nth_error_map, nth_error_seq0 by exact Hx. cbn [option_map].
      do 4 (destruct c as [|c]; [reflexivity|]). lia.
    + apply Forall_forall. intros l Hl. apply in_map_iff in Hl.
      destruct Hl as (x' & <- & _). reflexivity.
  - apply Forall_forall. intros l Hl. apply in_map_iff in Hl.
    destruct Hl as (y' & <- & _). apply row_length.
Qed.

Lemma greyImage_length (w : nat) (level : nat -> nat -> N) :
  length (greyImage w level) = 4 * w * w.
Proof.
  unfold greyImage. rewrite (@length_concat_const _ (4 * w)).
  - rewrite length_map, length_seq. lia.
  - apply Forall_forall. intros l Hl. apply in_map_iff in Hl.
    destruct Hl as (y' & <- & _). apply row_length.
Qed.

(** A loop that reads a row before it writes: it runs through when the
    rows are there, and stops at the first that is missing. *)
Lemma for_each_rows (A : Type) (data : list A) (S : Type)
    (write : A -> nat -> S -> S) (d : A) (ys : list nat) :
  forall s,
    for_each (fun s y => row <- nth_error data y ;; Some (write row y s))
      ys s
    = if forallb (fun y => y <? length data) ys
      then Some (fold_left (fun s y => write (nth y data d) y s) ys s)
      else None.
Proof.
  induction ys as [|y ys IH]; intro s; cbn [for_each forallb fold_left];
    [reflexivity|].
  destruct (Nat.ltb_spec y (length data)) as [Hy|Hy]; cbn [andb].
  - rewrite (nth_error_nth' data d Hy). apply IH.
  - rewrite (proj2 (nth_error_None data y) Hy). reflexivity.
Qed.

Lemma forallb_seq_lt (k m : nat) :
  forallb (fun y => y <? m) (seq 0 k) = (k <=? m).
Proof.
  destruct (Nat.leb_spec k m) as [H|H].
  - apply forallb_forall. intros y Hy. apply in_seq in Hy.
    apply Nat.ltb_lt. lia.
  - destruct (forallb _ _) eqn:E; [|reflexivity].
    rewrite forallb_forall in E.
    specialize (E m ltac:(apply in_seq; lia)).
    apply Nat.ltb_lt in E. lia.
Qed.

End CanvasFacts.

(** X19: on a canvas of side [canvasSize] above zero, [drawProjection]
    hands [putImageData] an opaque grey image of [canvasSize] squared
    pixels whose pixel [(x, y)] shows the entry
    [data[floor(y * size / canvasSize)][floor(x * size / canvasSize)]] of
    the projection ([size] its number of rows), clamped to a byte; an
    entry that is missing, 0 or [NaN] shows as 0.  An empty projection
    gives a black image. *)
Theorem drawProjection_image (canvasSize : nat) (projection : Projection) :
  (0 < canvasSize)%nat ->
  drawProjection canvasSize projection
  = Some (greyImage canvasSize
            (fun y x => Canvas.toUint8Clamp (shown canvasSize projection y x))).
Proof.
  intro Hc. unfold drawProjection.
  rewrite createImageData_pos by exact Hc. f_equal.
  pose proof (@rows_written canvasSize
    (fun bytes y =>
       fold_left (fun bytes x =>
         Canvas.putPixel bytes ((y * canvasSize + x) * 4)
           match
             Canvas.lookup (data projection)
               (JS.floor (JS.div (JS.of_nat y)
                  (JS.div (JS.of_nat canvasSize)
                     (JS.of_nat (length (data projection))))))
               (JS.floor (JS.div (JS.of_nat x)
                  (JS.div (JS.of_nat canvasSize)
                     (JS.of_nat (length (data projection))))))
           with
           | Some v => JS.or_else v (Fin 0)
           | None => Fin 0
           end) (seq 0 canvasSize) bytes)
    (fun y x => Canvas.toUint8Clamp (shown canvasSize projection y x))
    canvasSize) as H.
  apply (H) with (y0 := 0%nat) (pre := []); [|reflexivity].
  intros y pre rest Hpre.
  rewrite (@row_written canvasSize _ y canvasSize 0 pre rest) by lia.
  apply (f_equal (fun l => pre ++ concat l ++ rest)).
  apply map_ext. intro x.
  rewrite !canvas_to_projection by exact Hc.
  rewrite lookup_of_nat. unfold shown.
  destruct (nth_error (data projection) _) as [line|]; [|reflexivity].
  destruct (nth_error line _); reflexivity.
Qed.

Lemma drawProjection_image_witness :
  drawProjection 4 (mkProjection (Fin 0) [[Fin 0; Fin 255]; [Fin 3; Fin 9]])
  = Some (greyImage 4
            (fun y x =>
               Canvas.toUint8Clamp
                 (shown 4
                    (mkProjection (Fin 0) [[Fin 0; Fin 255]; [Fin 3; Fin 9]])
                    y x))).
Proof.
  apply drawProjection_image. lia.
Defined.

(** The image of the export, when every row is there. *)
Lemma exportImage_rows (volumeSize : nat) (proj : Projection) :
  exportImage volumeSize proj
  = if (0 <? volumeSize)%nat && (volumeSize <=? length (data proj))%nat
    then Some (greyImage volumeSize
                 (fun y x =>
                    Canvas.toUint8Clamp (nth x (nth y (data proj) []) JS.NaN)))
    else None.
Proof.
  unfold exportImage, Canvas.createImageData.
  destruct (Nat.eqb_spec volumeSize 0) as [->|Hv]; [reflexivity|].
  destruct (Nat.ltb_spec 0 volumeSize) as [Hpos|]; [|lia]. cbn [andb].
  rewrite (@for_each_rows _ (data proj) _
             (fun row y bytes =>
                fold_left (fun bytes x =>
                  Canvas.putPixel bytes ((y * volumeSize + x) * 4)
                    (nth x row JS.NaN)) (seq 0 volumeSize) bytes) []).
  rewrite forallb_seq_lt.
  destruct (volumeSize <=? length (data proj))%nat; [|reflexivity].
  f_equal.
  apply (@rows_written volumeSize
           (fun bytes y =>
              fold_left (fun bytes x =>
                Canvas.putPixel bytes ((y * volumeSize + x) * 4)
                  (nth x (nth y (data proj) []) JS.NaN))
                (seq 0 volumeSize) bytes)
           (fun y x =>
              Canvas.toUint8Clamp (nth x (nth y (data proj) []) JS.NaN))
           volumeSize) with (y0 := 0%nat) (pre := []); [|reflexivity].
  intros y pre rest Hpre.
  apply (@row_written volumeSize _ y volumeSize 0 pre rest). lia.
Qed.

(** X20: the export of a projection succeeds exactly when the page's
    [volumeSize] is above zero and the projection has at least
    [volumeSize] rows; with fewer rows [proj.data[y][x]] raises, and the
    export stops there. *)
Theorem exportImage_defined (volumeSize : nat) (proj : Projection) :
  (exists image, exportImage volumeSize proj = Some image) <->
  (0 < volumeSize <= length (data proj))%nat.
Proof.
  rewrite exportImage_rows.
  destruct (Nat.ltb_spec 0 volumeSize), (Nat.leb_spec volumeSize
                                            (length (data proj)));
    cbn [andb]; split; try lia; eauto; intros (image & Hi); discriminate Hi.
Qed.

Section ExportFacts.

Import NumFacts.
Local Open Scope Q_scope.

(** An integer of [[0, 255]] is stored as it is. *)
Lemma toUint8Clamp_int (z : Z) :
  (0 <= z <= 255)%Z -> Canvas.toUint8Clamp (Fin (inject_Z z)) = Z.to_N z.
Proof.
  intro Hz. unfold Canvas.toUint8Clamp.
  destruct (Qle_bool (inject_Z z) 0) eqn:E0.
  - apply Qle_bool_iff in E0. change 0 with (inject_Z 0) in E0.
    rewrite <- Zle_Qle in E0. replace z with 0%Z by lia. reflexivity.
  - destruct (Qle_bool 255 (inject_Z z)) eqn:E1.
    + apply Qle_bool_iff in E1. change 255 with (inject_Z 255) in E1.
      rewrite <- Zle_Qle in E1. replace z with 255%Z by lia. reflexivity.
    + rewrite Qfloor_Z.
      destruct (Qeq_bool (inject_Z z) (inject_Z z + (1 # 2))) eqn:E2;
        [apply Qeq_bool_iff in E2; lra|].
      rewrite (proj2 (Qle_bool_iff (inject_Z z) (inject_Z z + (1 # 2))))
        by lra.
      reflexivity.
Qed.

End ExportFacts.

(** X21: the export keeps the pixel values.  For a projection the
    Normalizer has returned (from finite raw values) whose grid is
    [volumeSize]-by-[volumeSize], the exported image exists, has
    4 * volumeSize * volumeSize bytes, and its pixel [(x, y)] carries the
    value [data[y][x]] itself, an integer of [[0, 255]], in its three
    colour bytes, with alpha 255: nothing is clamped or rounded. *)
Theorem export_keeps_pixels (self : CALProjector) (volumeSize i : nat)
    (p : Projection) :
  Forall JS.finite (pixels (projections self)) ->
  nth_error (projections (normalizeProjections self)) i = Some p ->
  square volumeSize (data p) -> (0 < volumeSize)%nat ->
  exists image,
    exportImage volumeSize p = Some image /\
    length image = (4 * volumeSize * volumeSize)%nat /\
    forall x y, (x < volumeSize)%nat -> (y < volumeSize)%nat ->
      exists z,
        pixel (projections (normalizeProjections self)) i y x
        = Some (Fin (inject_Z z)) /\
        (0 <= z <= 255)%Z /\
        nth_error image (4 * (y * volumeSize + x)) = Some (Z.to_N z) /\
        nth_error image (4 * (y * volumeSize + x) + 1) = Some (Z.to_N z) /\
        nth_error image (4 * (y * volumeSize + x) + 2) = Some (Z.to_N z) /\
        nth_error image (4 * (y * volumeSize + x) + 3) = Some 255%N.
Proof.
  intros Hfin Hp [Hrows Hcols] Hv.
  rewrite exportImage_rows.
  destruct (Nat.ltb_spec 0 volumeSize) as [_|]; [|lia].
  destruct (Nat.leb_spec volumeSize (length (data p))) as [_|]; [|lia].
  cbn [andb]. eexists. split; [reflexivity|].
  split; [apply greyImage_length|].
  intros x y Hx Hy.
  assert (Hrow : exists row, nth_error (data p) y = Some row /\
                             exists v, nth_error row x = Some v).
  { destruct (nth_error (data p) y) as [row|] eqn:Er;
      [|apply nth_error_None in Er; lia].
    exists row. split; [reflexivity|].
    rewrite Forall_forall in Hcols.
    pose proof (Hcols row (nth_error_In _ _ Er)) as Hlen.
    destruct (nth_error row x) as [v|] eqn:Ev;
      [eauto | apply nth_error_None in Ev; lia]. }
  destruct Hrow as (row & Er & v & Ev).
  assert (Epx : pixel (projections (normalizeProjections self)) i y x
                = Some v).
  { unfold pixel. rewrite Hp, Er. exact Ev. }
  assert (Hne : pixels (projections self) <> []).
  { intro E. pose proof (pixel_In _ _ _ _ Epx) as Hin.
    rewrite pixels_normalize in Hin.
    destruct (scanProjections (projections self)).
    rewrite E in Hin. exact Hin. }
  destruct (@normalized_pixels self Hfin Hne) as (Hint & _).
  rewrite Forall_forall in Hint.
  destruct (Hint v (pixel_In _ _ _ _ Epx)) as (z & -> & Hz).
  exists z. split; [exact Epx|]. split; [exact Hz|].
  assert (Elevel : Canvas.toUint8Clamp
                     (nth x (nth y (data p) []) JS.NaN) = Z.to_N z).
  { rewrite (nth_error_nth _ _ _ Er), (nth_error_nth _ _ _ Ev).
    apply toUint8Clamp_int. exact Hz. }
  replace (4 * (y * volumeSize + x))%nat
    with (4 * (y * volumeSize + x) + 0)%nat at 1 by lia.
  rewrite !greyImage_pixel by (assumption || lia).
  cbn [Nat.ltb Nat.leb]. rewrite Elevel. auto.
Qed.

Lemma export_keeps_pixels_witness :
  exists image,
    exportImage 2
      (mkProjection (Fin 0) [[Fin 0; Fin 43]; [Fin 255; Fin 85]])
    = Some image /\
    length image = (4 * 2 * 2)%nat /\
    forall x y, (x < 2)%nat -> (y < 2)%nat ->
      exists z,
        pixel (projections
                 (normalizeProjections (mkCALProjector 2 2 twoViews 2)))
          0 y x = Some (Fin (inject_Z z)) /\
        (0 <= z <= 255)%Z /\
        nth_error image (4 * (y * 2 + x)) = Some (Z.to_N z) /\
        nth_error image (4 * (y * 2 + x) + 1) = Some (Z.to_N z) /\
        nth_error image (4 * (y * 2 + x) + 2) = Some (Z.to_N z) /\
        nth_error image (4 * (y * 2 + x) + 3) = Some 255%N.
Proof.
  apply (@export_keeps_pixels (mkCALProjector 2 2 twoViews 2) 2 0
           (mkProjection (Fin 0) [[Fin 0; Fin 43]; [Fin 255; Fin 85]])).
  - repeat constructor.
  - vm_compute. reflexivity.
  - repeat constructor.
  - lia.
Defined.

Section NameFacts.

Local Open Scope nat_scope.

Lemma digits_inj (d d' : Decimal.uint) :
  Names.digits d = Names.digits d' -> d = d'.
Proof.
  revert d'. induction d as [|d IH|d IH|d IH|d IH|d IH|d IH|d IH|d IH|d IH|d IH];
    intros [|d'|d'|d'|d'|d'|d'|d'|d'|d'|d'] H; cbn [Names.digits] in H;
    try discriminate H; try reflexivity;
    injection H as H; f_equal; apply IH; exact H.
Qed.

Lemma digits_zeroPadded (k : nat) (d : Decimal.uint) :
  Names.digits (Names.zeroPadded k d) = repeat 48%N k ++ Names.digits d.
Proof.
  induction k as [|k IH]; cbn [Names.zeroPadded Names.digits repeat app];
    [reflexivity|].
  rewrite IH. reflexivity.
Qed.

Lemma of_uint_zeroPadded (k : nat) (d : Decimal.uint) :
  Nat.of_uint (Names.zeroPadded k d) = Nat.of_uint d.
Proof.
  induction k as [|k IH]; [reflexivity|]. exact IH.
Qed.

(** The padded numeral of an index tells the index. *)
Lemma padded_inj (i j : nat) :
  Names.padStart 4 48%N (Names.ofIndex i)
  = Names.padStart 4 48%N (Names.ofIndex j) -> i = j.
Proof.
  unfold Names.padStart, Names.ofIndex.
  rewrite <- !digits_zeroPadded. intro H. apply digits_inj in H.
  apply (f_equal Nat.of_uint) in H.
  rewrite !of_uint_zeroPadded, !DecimalNat.Unsigned.of_to in H. exact H.
Qed.

Lemma fileName_inj (i j : nat) :
  Names.fileName i = Names.fileName j -> i = j.
Proof.
  unfold Names.fileName. intro H.
  apply app_inv_head, app_inv_tail in H. apply padded_inj, H.
Qed.

End NameFacts.

Section ZipFacts.

Local Open Scope nat_scope.

Variable Blob : Type.
Variable toBlob : list N -> option Blob.
Variable volumeSize : nat.

(** A name that is not in the archive yet makes a new entry. *)
Lemma zipFile_new (zip : list (jsstring * Blob)) (name : jsstring)
    (blob : Blob) :
  ~ In name (map fst zip) -> zipFile zip name blob = zip ++ [(name, blob)].
Proof.
  intro Hnew. unfold zipFile.
  match goal with
  | |- context [existsb ?f zip] => destruct (existsb f zip) eqn:E
  end; [|reflexivity].
  apply existsb_exists in E. destruct E as (e & He & Heq).
  destruct (list_eq_dec N.eq_dec (fst e) name) as [<-|]; [|discriminate].
  exfalso. apply Hnew, in_map, He.
Qed.

Lemma export_loop (ps : list Projection) :
  Forall (fun p => exists image blob,
            exportImage volumeSize p = Some image /\
            toBlob image = Some blob) ps ->
  forall start zip,
    map fst zip = map Names.fileName (seq 0 start) ->
    exists zip',
      for_each (exportStep toBlob volumeSize)
        (combine (seq start (length ps)) ps) zip = Some (zip ++ zip') /\
      map fst zip' = map Names.fileName (seq start (length ps)) /\
      Forall2 (fun p e => exists image,
                 exportImage volumeSize p = Some image /\
                 toBlob image = Some (snd e)) ps zip'.
Proof.
  induction 1 as [|p ps (image & blob & Ei & Eb) _ IH]; intros start zip Hzip.
  - exists []. cbn. rewrite app_nil_r. auto.
  - cbn [length seq combine for_each exportStep]. rewrite Ei, Eb.
    rewrite zipFile_new.
    + destruct (IH (Datatypes.S start) (zip ++ [(Names.fileName start, blob)]))
        as (zip' & -> & Hnames & Hblobs).
      { rewrite map_app, Hzip, seq_S, map_app. reflexivity. }
      exists ((Names.fileName start, blob) :: zip').
      rewrite <- app_assoc. split; [reflexivity|].
      split; [cbn [map fst]; rewrite Hnames; reflexivity|].
      constructor; [exists image; auto | exact Hblobs].
    + rewrite Hzip. intro Hin. apply in_map_iff in Hin.
      destruct Hin as (k & Ek & Hk). apply fileName_inj in Ek.
      apply in_seq in Hk. lia.
Qed.

End ZipFacts.

(** X22: the archive holds one file per projection.  When every
    projection can be exported and encoded, [exportImagesAsZip] files as
    many entries as there are projections, in their order, entry [i]
    under the name [projection_] + the index padded to four digits +
    [.png] with the PNG of projection [i]; the names are pairwise
    different, for any number of projections, so no entry replaces
    another. *)
Theorem export_one_file_each (Blob : Type) (toBlob : list N -> option Blob)
    (volumeSize : nat) (projections : list Projection) :
  projections <> [] ->
  Forall (fun p => exists image blob,
            exportImage volumeSize p = Some image /\
            toBlob image = Some blob) projections ->
  exists entries,
    exportImagesAsZip toBlob volumeSize projections = Zipped entries /\
    length entries = length projections /\
    NoDup (map fst entries) /\
    forall i p, nth_error projections i = Some p ->
      exists image blob,
        exportImage volumeSize p = Some image /\
        toBlob image = Some blob /\
        nth_error entries i = Some (Names.fileName i, blob).
Proof.
  intros Hne Hall. unfold exportImagesAsZip.
  destruct (Nat.eqb_spec (length projections) 0) as [E|_];
    [destruct projections; [congruence | discriminate E]|].
  destruct (@export_loop Blob toBlob volumeSize projections Hall 0 [] eq_refl)
    as (entries & -> & Hnames & Hblobs).
  exists entries. cbn [app]. split; [reflexivity|].
  pose proof (Forall2_length Hblobs) as Hlen.
  split; [symmetry; exact Hlen|]. split.
  - rewrite Hnames. apply Finite.Injective_map_NoDup; [|apply seq_NoDup].
    intros i j. apply fileName_inj.
  - intros i p Hp.
    destruct (Forall2_nth Hblobs i Hp) as ([name blob] & Ee & image & Ei & Eb).
    exists image, blob. split; [exact Ei|]. split; [exact Eb|].
    rewrite Ee. do 2 f_equal.
    assert (En : nth_error (map fst entries) i = Some name)
      by (rewrite nth_error_map, Ee; reflexivity).
    rewrite Hnames, nth_error_map, nth_error_seq0 in En.
    + injection En as <-. reflexivity.
    + rewrite Hlen. apply nth_error_Some. congruence.
Qed.

Lemma export_one_file_each_witness :
  exists entries,
    exportImagesAsZip (fun image => Some (length image)) 2
      [mkProjection (Fin 0) [[Fin 0; Fin 43]; [Fin 255; Fin 85]];
       mkProjection (Fin 180) [[Fin 170; Fin 0]; [Fin 213; Fin 85]]]
    = Zipped entries /\
    length entries = 2%nat /\
    NoDup (map fst entries) /\
    forall i p,
      nth_error
        [mkProjection (Fin 0) [[Fin 0; Fin 43]; [Fin 255; Fin 85]];
         mkProjection (Fin 180) [[Fin 170; Fin 0]; [Fin 213; Fin 85]]] i
      = Some p ->
      exists image blob,
        exportImage 2 p = Some image /\
        (fun image => Some (length image)) image = Some blob /\
        nth_error entries i = Some (Names.fileName i, blob).
Proof.
  apply (@export_one_file_each nat (fun image => Some (length image)) 2).
  - discriminate.
  - repeat constructor; eexists; eexists; split; reflexivity.
Defined.

(* ===================================================================== *)
(** ** Playback and progress *)
(* ===================================================================== *)

Section PlaybackFacts.

Local Open Scope nat_scope.

Variable len : nat.
Hypothesis Hlen : 0 < len.

Lemma playback_valid (k p : nat) : 0 < k -> playback len k p < len.
Proof.
  intro Hk. destruct k as [|k]; [lia|].
  change (playback len (Datatypes.S k) p)
    with (nextFrame len (playback len k p)).
  unfold nextFrame. apply Nat.mod_upper_bound. lia.
Qed.

Lemma playback_frame (k p : nat) :
  p < len -> playback len k p = (p + k) mod len.
Proof.
  intro Hp. induction k as [|k IH].
  - rewrite Nat.add_0_r. symmetry. apply Nat.mod_small, Hp.
  - change (playback len (Datatypes.S k) p)
      with (nextFrame len (playback len k p)).
    rewrite IH. unfold nextFrame.
    rewrite Nat.Div0.add_mod_idemp_l. f_equal. lia.
Qed.

End PlaybackFacts.

(** X23: playback cycles through the projections.  For a set of [len]
    projections, after any tick the frame is a valid index; from a valid
    frame [p], [k] ticks lead to [(p + k) mod len], so [len] ticks lead
    back to [p], and every frame is shown within one revolution. *)
Theorem playback_cycles (len p : nat) :
  (0 < len)%nat -> (p < len)%nat ->
  (forall k q, (0 < k)%nat -> (playback len k q < len)%nat) /\
  (forall k, playback len k p = ((p + k) mod len)%nat) /\
  playback len len p = p /\
  (forall frame, (frame < len)%nat ->
     exists k, (k < len)%nat /\ playback len k p = frame).
Proof.
  intros Hlen Hp. split; [|split; [|split]].
  - intros k q Hk. apply playback_valid; assumption.
  - intro k. apply playback_frame; assumption.
  - rewrite playback_frame by assumption.
    rewrite <- Nat.Div0.add_mod_idemp_r, Nat.Div0.mod_same, Nat.add_0_r.
    apply Nat.mod_small, Hp.
  - intros frame Hf. exists ((frame + len - p) mod len)%nat.
    split; [apply Nat.mod_upper_bound; lia|].
    rewrite playback_frame by assumption.
    rewrite Nat.Div0.add_mod_idemp_r.
    replace (p + (frame + len - p))%nat with (frame + 1 * len)%nat by lia.
    rewrite Nat.Div0.mod_add. apply Nat.mod_small, Hf.
Qed.

Lemma playback_cycles_witness :
  (forall k q, (0 < k)%nat -> (playback 180 k q < 180)%nat) /\
  (forall k, playback 180 k 7 = ((7 + k) mod 180)%nat) /\
  playback 180 180 7 = 7%nat /\
  (forall frame, (frame < 180)%nat ->
     exists k, (k < 180)%nat /\ playback 180 k 7 = frame).
Proof.
  apply playback_cycles; lia.
Defined.

Section ProgressFacts.

Import NumFacts.
Local Open Scope Q_scope.

Variables Math_cos Math_sin : num -> num.

(** The logged loop is the loop, with the reported values beside. *)
Lemma for_each_logged (inputVolume : Input) (indices : list nat) :
  forall self log,
    for_each (generateStepLogged Math_cos Math_sin inputVolume) indices
      (self, log)
    = match for_each (generateStep Math_cos Math_sin inputVolume) indices
              self with
      | Some self' =>
          Some (self',
                log ++ map (fun i =>
                         JS.div (JS.add (JS.of_nat i) (Fin 1))
                           (JS.of_nat (numProjections self))) indices)
      | None => None
      end.
Proof.
  induction indices as [|i indices IH]; intros self log;
    cbn [for_each map].
  - rewrite app_nil_r. reflexivity.
  - unfold generateStepLogged at 1.
    destruct (generateStep Math_cos Math_sin inputVolume self i)
      as [self1|] eqn:E; [|reflexivity].
    rewrite IH.
    assert (EM : numProjections self1 = numProjections self).
    { unfold generateStep in E.
      destruct (radonKernel _ _ _ _ _ _); [|discriminate].
      injection E as <-. reflexivity. }
    rewrite EM. unfold progressOf.
    destruct (for_each _ indices self1); [|reflexivity].
    rewrite <- app_assoc. reflexivity.
Qed.

Lemma progress_value (i m : nat) :
  (0 < m)%nat ->
  JS.div (JS.add (JS.of_nat i) (Fin 1)) (JS.of_nat m)
  = Fin (Qred (Qred (sideQ i + 1) / sideQ m)).
Proof.
  intro Hm. unfold JS.of_nat, JS.of_Z. cbn [JS.add JS.div]. fold (sideQ i).
  fold (sideQ m).
  destruct (Qeq_bool (sideQ m) 0) eqn:E; [|reflexivity].
  apply Qeq_bool_iff in E. pose proof (sideQ_pos Hm). lra.
Qed.

End ProgressFacts.

(** The logged run is the run, with the reported values beside. *)
Lemma logged_run (Math_cos Math_sin : num -> num) (self : CALProjector)
    (volume : VoxelVolume) :
  generateProjectionsLogged Math_cos Math_sin self volume
  = match generateProjections Math_cos Math_sin self volume with
    | Some (self', ps) =>
        Some (self', ps,
              map (fun i => JS.div (JS.add (JS.of_nat i) (Fin 1))
                              (JS.of_nat (numProjections self)))
                (seq 0 (numProjections self)))
    | None => None
    end.
Proof.
  unfold generateProjectionsLogged, generateProjections. cbv zeta.
  rewrite for_each_logged.
  cbn [numProjections set_projections].
  destruct (for_each _ _ _); reflexivity.
Qed.



(* ===================================================================== *)
(** ** meshToVoxels: the cells its vertices fall on *)
(* ===================================================================== *)

Section PlotFacts.

Import NumFacts.
Local Open Scope nat_scope.

Variable n : nat.

(** An index below [n] passes the range test of the voxelizer. *)
Lemma coordIs_range (c : num) (k : nat) :
  coordIs c k = true -> k < n ->
  JS.geb c (Fin 0) = true /\ JS.ltb c (JS.of_nat n) = true.
Proof.
  unfold coordIs, JS.index. destruct c as [q| | |]; try discriminate.
  destruct (Qeq_bool q (inject_Z (Qfloor q))) eqn:Eq; [|discriminate].
  destruct (Z.leb_spec 0 (Qfloor q)) as [H0|]; [|discriminate].
  cbn [andb]. intros Hk Hn. apply Nat.eqb_eq in Hk.
  apply Qeq_bool_iff in Eq. unfold JS.geb, JS.of_nat, JS.of_Z. split.
  - apply leb_Fin. rewrite Eq. change 0%Q with (inject_Z 0).
    rewrite <- Zle_Qle. exact H0.
  - apply ltb_Fin. rewrite Eq. rewrite <- Zlt_Qlt. lia.
Qed.

(** A floored coordinate that passes the range test is an index. *)
Lemma floor_coord (e : num) :
  JS.geb (JS.floor e) (Fin 0) = true ->
  JS.ltb (JS.floor e) (JS.of_nat n) = true ->
  exists k, JS.floor e = JS.of_nat k /\ k < n /\
            forall k', coordIs (JS.floor e) k' = (k =? k').
Proof.
  destruct e as [q| | |]; try discriminate.
  cbn [JS.floor]. unfold JS.of_Z, JS.geb. intros H0 H1.
  apply (leb_Fin 0 (inject_Z (Qfloor q))) in H0.
  apply (ltb_Fin (inject_Z (Qfloor q)) (inject_Z (Z.of_nat n))) in H1.
  change 0%Q with (inject_Z 0) in H0.
  rewrite <- Zle_Qle in H0. rewrite <- Zlt_Qlt in H1.
  exists (Z.to_nat (Qfloor q)).
  split; [rewrite of_nat_to_nat by exact H0; reflexivity|].
  split; [lia|].
  intro k'. unfold coordIs.
  rewrite (index_int (q := inject_Z (Qfloor q)) (z := Qfloor q));
    [reflexivity | reflexivity | exact H0].
Qed.

Variables min size : list num.
Variable scale : num.

(** One vertex paints the cell it falls on, if it falls on one. *)
Lemma plotVertex_painted (voxels : VoxelVolume) (vertex : list num) :
  cubic n voxels ->
  exists voxels',
    plotVertex n min size scale voxels vertex = Some voxels' /\
    painted n (plots n min size scale vertex) (fun _ _ _ => true)
      voxels voxels'.
Proof.
  intro Hc. unfold plotVertex, plots.
  destruct (_ && _) eqn:G.
  - repeat (apply andb_prop in G; destruct G as [G ?]).
    destruct (floor_coord _ G H3) as (i & Ei & Hi & Ci).
    destruct (floor_coord _ H2 H1) as (j & Ej & Hj & Cj).
    destruct (floor_coord _ H0 H) as (k & Ek & Hk & Ck).
    unfold gridCoord in *. rewrite Ei, Ej, Ek.
    destruct (@store_cell n voxels k j i (Fin 1) Hc Hk Hj Hi)
      as (voxels' & -> & Hc' & Hcell).
    exists voxels'. split; [reflexivity|]. split; [exact Hc'|].
    intros z y x. rewrite Hcell. rewrite <- Ei, <- Ej, <- Ek, Ci, Cj, Ck.
    rewrite (Nat.eqb_sym z k), (Nat.eqb_sym y j), (Nat.eqb_sym x i).
    destruct (Nat.eqb_spec k z) as [<-|]; [|reflexivity].
    destruct (Nat.eqb_spec j y) as [<-|]; [|reflexivity].
    destruct (Nat.eqb_spec i x) as [<-|]; [|reflexivity].
    rewrite (proj2 (Nat.ltb_lt _ _) Hk), (proj2 (Nat.ltb_lt _ _) Hj),
      (proj2 (Nat.ltb_lt _ _) Hi). reflexivity.
  - exists voxels. split; [reflexivity|]. split; [exact Hc|].
    intros z y x.
    destruct (coordIs _ z && coordIs _ y && coordIs _ x && (z <? n)
              && (y <? n) && (x <? n)) eqn:P; [|reflexivity].
    exfalso.
    repeat (apply andb_prop in P; destruct P as [P ?]).
    apply Nat.ltb_lt in H, H0, H1.
    destruct (coordIs_range _ P H1) as [A1 A2].
    destruct (coordIs_range _ H3 H0) as [B1 B2].
    destruct (coordIs_range _ H2 H) as [C1 C2].
    rewrite C1, C2, B1, B2, A1, A2 in G. discriminate G.
Qed.

End PlotFacts.

(** The cells of [meshToVoxels], with the bounding box spelled out. *)
Lemma meshToVoxels_plotted (mesh : Mesh) (gridSize : nat) :
  exists voxels,
    meshToVoxels mesh gridSize = Some voxels /\
    forall z y x,
      (z < gridSize)%nat -> (y < gridSize)%nat -> (x < gridSize)%nat ->
      cell voxels z y x
      = Some (if existsb
                   (fun vertex =>
                      plots gridSize (fst (boundingBox (vertices mesh)))
                        (meshExtent mesh)
                        (meshScale gridSize (meshExtent mesh)) vertex z y x)
                   (vertices mesh)
              then Fin 1 else Fin 0).
Proof.
  unfold meshToVoxels, meshExtent.
  destruct (boundingBox (vertices mesh)) as [min max]. cbn [fst].
  destruct (@for_each_painted gridSize (list num) (fun _ _ _ => true)
              (plots gridSize min (extent min max)
                 (meshScale gridSize (extent min max)))
              (plotVertex gridSize min (extent min max)
                 (meshScale gridSize (extent min max)))
              (vertices mesh))
    with (grid := zeros gridSize) as (voxels & -> & _ & Hcell).
  - intros vertex grid _ Hc. apply plotVertex_painted, Hc.
  - apply zeros_cubic.
  - exists voxels. split; [reflexivity|].
    intros z y x Hz Hy Hx. rewrite Hcell, cell_zeros by assumption.
    rewrite andb_true_r. destruct (existsb _ _); reflexivity.
Qed.


Section BoundingBoxFacts.

Import NumFacts.
Local Open Scope nat_scope.

(** One vertex moves each bound of the box by [Math.min], [Math.max]. *)
Lemma boundVertex_at (acc : list num * list num) (v : list num) (i : nat) :
  length (fst acc) = 3 -> length (snd acc) = 3 -> i < 3 ->
  length (fst (boundVertex acc v)) = 3 /\
  length (snd (boundVertex acc v)) = 3 /\
  at_ (fst (boundVertex acc v)) i = JS.min (at_ (fst acc) i) (at_ v i) /\
  at_ (snd (boundVertex acc v)) i = JS.max (at_ (snd acc) i) (at_ v i).
Proof.
  destruct acc as [[|m0 [|m1 [|m2 [|? ?]]]] [|M0 [|M1 [|M2 [|? ?]]]]];
    cbn [fst snd length]; intros Hm HM Hi; try discriminate.
  do 3 (destruct i as [|i]; [repeat split|]). lia.
Qed.

Lemma boundingBox_fold (vs : list (list num)) (i : nat) :
  i < 3 ->
  forall acc,
    length (fst acc) = 3 -> length (snd acc) = 3 ->
    length (fst (fold_left boundVertex vs acc)) = 3 /\
    length (snd (fold_left boundVertex vs acc)) = 3 /\
    at_ (fst (fold_left boundVertex vs acc)) i
    = fold_left JS.min (map (fun v => at_ v i) vs) (at_ (fst acc) i) /\
    at_ (snd (fold_left boundVertex vs acc)) i
    = fold_left JS.max (map (fun v => at_ v i) vs) (at_ (snd acc) i).
Proof.
  intro Hi. induction vs as [|v vs IH]; intros acc Hm HM;
    cbn [fold_left map]; [auto|].
  destruct (boundVertex_at acc v Hm HM Hi) as (Hm' & HM' & Emin & Emax).
  destruct (IH _ Hm' HM') as (A & B & C & D).
  rewrite C, D, Emin, Emax. auto.
Qed.

Lemma boundingBox_axis (vs : list (list num)) (i : nat) :
  i < 3 ->
  length (fst (boundingBox vs)) = 3 /\
  length (snd (boundingBox vs)) = 3 /\
  at_ (fst (boundingBox vs)) i = JS.min_list (map (fun v => at_ v i) vs) /\
  at_ (snd (boundingBox vs)) i = JS.max_list (map (fun v => at_ v i) vs).
Proof.
  intro Hi. unfold boundingBox, JS.min_list, JS.max_list.
  destruct (@boundingBox_fold vs i Hi
              ([JS.PInf; JS.PInf; JS.PInf], [JS.NInf; JS.NInf; JS.NInf])
              eq_refl eq_refl) as (A & B & C & D).
  rewrite C, D. cbn [fst snd].
  do 3 (destruct i as [|i]; [auto|]). lia.
Qed.

Lemma extent_at (min max : list num) (i : nat) :
  length max = 3 -> i < 3 ->
  at_ (extent min max) i = JS.sub (at_ max i) (at_ min i).
Proof.
  destruct max as [|M0 [|M1 [|M2 [|? ?]]]]; cbn [length]; intros HM Hi;
    try discriminate.
  do 3 (destruct i as [|i]; [reflexivity|]). lia.
Qed.

Lemma extent_three (min max : list num) :
  length max = 3 ->
  extent min max = [at_ (extent min max) 0; at_ (extent min max) 1;
                    at_ (extent min max) 2].
Proof.
  destruct max as [|M0 [|M1 [|M2 [|? ?]]]]; cbn [length]; intro HM;
    try discriminate. reflexivity.
Qed.

Lemma vertex3_at (v : list num) (i : nat) :
  vertex3 v -> i < 3 -> JS.finite (at_ v i).
Proof.
  intros (a & b & c & ->) Hi.
  do 3 (destruct i as [|i]; [exact I|]). lia.
Qed.

End BoundingBoxFacts.

Section MarginFacts.

Import NumFacts.
Local Open Scope Q_scope.

Variable gridSize : nat.
Hypothesis Hgrid : (0 < gridSize)%nat.
Local Abbreviation G := (sideQ gridSize).

(** A coordinate between a tenth and nine tenths of the grid floors to a
    cell of the margin. *)
Lemma floor_margin (e : Q) :
  (1 # 10) * G <= e -> e <= (9 # 10) * G ->
  exists k, JS.floor (Fin e) = JS.of_nat k /\ inMargin gridSize k.
Proof.
  intros H0 H1.
  assert (HG : 0 < G) by (apply sideQ_pos; exact Hgrid).
  assert (Elo : Qfloor ((1 # 10) * G) = (Z.of_nat gridSize / 10)%Z).
  { apply (@Qfloor_frac _ (Z.of_nat gridSize) 10).
    unfold sideQ. change (inject_Z (Z.pos 10)) with 10. field. }
  assert (Ehi : Qfloor ((9 # 10) * G) = (9 * Z.of_nat gridSize / 10)%Z).
  { apply (@Qfloor_frac _ (9 * Z.of_nat gridSize) 10).
    unfold sideQ. rewrite inject_Z_mult.
    change (inject_Z (Z.pos 10)) with 10. change (inject_Z 9) with 9.
    field. }
  pose proof (Qfloor_resp_le _ _ H0) as L.
  pose proof (Qfloor_resp_le _ _ H1) as U.
  rewrite Elo in L. rewrite Ehi in U.
  assert (Hz : (0 <= Qfloor e)%Z).
  { apply Z.le_trans with (Z.of_nat gridSize / 10)%Z; [|exact L].
    apply Z.div_pos; lia. }
  exists (Z.to_nat (Qfloor e)). split.
  - cbn [JS.floor]. rewrite of_nat_to_nat by exact Hz. reflexivity.
  - unfold inMargin. split.
    + apply Nat2Z.inj_le. rewrite Nat2Z.inj_div, Z2Nat.id by exact Hz.
      exact L.
    + apply Nat2Z.inj_le.
      rewrite Nat2Z.inj_div, Nat2Z.inj_mul, Z2Nat.id by exact Hz.
      exact U.
Qed.

(** The grid coordinate of a value [x] of [[m, m + s]] on an axis of
    extent [s], for a longest extent [S]. *)
Lemma gridCoord_value (x m s S : Q) :
  0 < S -> m <= x -> x <= m + s -> s <= S ->
  exists k,
    JS.floor
      (JS.add (JS.mul (JS.sub (Fin x) (Fin m))
                 (JS.div (JS.mul (JS.of_nat gridSize) (Fin (8 # 10)))
                    (Fin S)))
         (JS.div (JS.sub (JS.of_nat gridSize)
                    (JS.mul (Fin s)
                       (JS.div (JS.mul (JS.of_nat gridSize) (Fin (8 # 10)))
                          (Fin S))))
            (Fin 2)))
    = JS.of_nat k /\ inMargin gridSize k.
Proof.
  intros HS Hm Hx Hs.
  assert (HG : 0 < G) by (apply sideQ_pos; exact Hgrid).
  unfold JS.of_nat, JS.of_Z. fold G. cbn [JS.mul JS.sub].
  assert (Ediv : forall p, JS.div (Fin p) (Fin S) = Fin (Qred (p / S))).
  { intro p. cbn [JS.div].
    destruct (Qeq_bool S 0) eqn:E; [apply Qeq_bool_iff in E; lra|].
    reflexivity. }
  rewrite !Ediv. cbn [JS.mul JS.sub].
  change (JS.div (Fin ?p) (Fin 2)) with (Fin (Qred (p / 2))).
  cbn [JS.add].
  set (t := Qred (G * (8 # 10)) / S).
  assert (Et : t * S == (8 # 10) * G)
    by (unfold t; rewrite Qred_correct; field; lra).
  assert (Ht : 0 <= t).
  { unfold t. rewrite Qred_correct. apply Qle_shift_div_l; lra. }
  set (a := (x - m) * t). set (b := s * t).
  assert (Ha0 : 0 <= a) by (unfold a; apply Qmult_le_0_compat; lra).
  assert (Hab : a <= b) by (unfold a, b; apply Qmult_le_compat_r; lra).
  assert (Hb : b <= (8 # 10) * G).
  { rewrite <- Et. unfold b. rewrite (Qmult_comm t S).
    apply Qmult_le_compat_r; lra. }
  apply floor_margin.
  - rewrite !Qred_correct. fold t. fold a. fold b.
    setoid_replace ((G - b) / 2) with ((G - b) * (1 # 2)) by field. lra.
  - rewrite !Qred_correct. fold t. fold a. fold b.
    setoid_replace ((G - b) / 2) with ((G - b) * (1 # 2)) by field. lra.
Qed.

End MarginFacts.

Section VertexMargin.

Import NumFacts.

Variable mesh : Mesh.
Variable gridSize : nat.
Hypothesis Hgrid : (0 < gridSize)%nat.
Hypothesis Hvs : Forall vertex3 (vertices mesh).
Hypothesis Hpos : JS.ltb (Fin 0) (JS.max_list (meshExtent mesh)) = true.

Lemma vertices_some : vertices mesh <> [].
Proof.
  intro E. unfold meshExtent in Hpos. rewrite E in Hpos. discriminate.
Qed.

(** Along each axis the box bounds are finite and hold every vertex. *)
Lemma axis_bounds (i : nat) :
  (i < 3)%nat ->
  exists m M : Q,
    at_ (fst (boundingBox (vertices mesh))) i = Fin m /\
    at_ (snd (boundingBox (vertices mesh))) i = Fin M /\
    length (snd (boundingBox (vertices mesh))) = 3%nat /\
    forall v, In v (vertices mesh) ->
      exists x, at_ v i = Fin x /\ m <= x /\ x <= M.
Proof.
  intro Hi.
  destruct (@boundingBox_axis (vertices mesh) i Hi) as (_ & HM & Emin & Emax).
  assert (Hf : Forall JS.finite (map (fun v => at_ v i) (vertices mesh))).
  { apply Forall_forall. intros c Hc. apply in_map_iff in Hc.
    destruct Hc as (v & <- & Hv). apply vertex3_at; [|exact Hi].
    exact (proj1 (Forall_forall _ _) Hvs v Hv). }
  assert (Hne : map (fun v => at_ v i) (vertices mesh) <> []).
  { pose proof vertices_some as N. destruct (vertices mesh); [congruence|].
    discriminate. }
  destruct (min_list_fin Hf Hne) as (m & Em & _ & Hm).
  destruct (max_list_fin Hf Hne) as (M & EM & _ & HM').
  exists m, M. rewrite Emin, Emax. repeat split; try assumption.
  intros v Hv.
  assert (Hin : In (at_ v i) (map (fun v => at_ v i) (vertices mesh)))
    by (apply (in_map (fun w => at_ w i)); exact Hv).
  destruct (proj1 (Forall_forall _ _) Hm _ Hin) as (x & Ex & Lx).
  destruct (proj1 (Forall_forall _ _) HM' _ Hin) as (x' & Ex' & Ux).
  rewrite Ex in Ex'. injection Ex' as <-.
  exists x. auto.
Qed.

(** Every vertex has, along each axis, a grid coordinate in the margin. *)
Lemma gridCoord_margin (v : list num) (i : nat) :
  In v (vertices mesh) -> (i < 3)%nat ->
  exists k,
    gridCoord gridSize (fst (boundingBox (vertices mesh)))
      (meshExtent mesh) (meshScale gridSize (meshExtent mesh)) v i
    = JS.of_nat k /\ inMargin gridSize k.
Proof.
  intros Hv Hi.
  assert (Hsize : forall j, (j < 3)%nat ->
            exists m M, at_ (fst (boundingBox (vertices mesh))) j = Fin m /\
              at_ (meshExtent mesh) j = Fin (Qred (M - m)) /\
              forall w, In w (vertices mesh) ->
                exists x, at_ w j = Fin x /\ m <= x /\ x <= M).
  { intros j Hj. destruct (axis_bounds Hj) as (m & M & Em & EM & HM & Hb).
    exists m, M. split; [exact Em|]. split; [|exact Hb].
    unfold meshExtent.
    destruct (boundingBox (vertices mesh)) as [min max]. cbn [fst snd] in *.
    rewrite extent_at by assumption. rewrite Em, EM. reflexivity. }
  assert (Hthree : meshExtent mesh
                   = [at_ (meshExtent mesh) 0; at_ (meshExtent mesh) 1;
                      at_ (meshExtent mesh) 2]).
  { destruct (@axis_bounds 0%nat ltac:(lia)) as (_ & _ & _ & _ & HM & _).
    unfold meshExtent.
    destruct (boundingBox (vertices mesh)) as [min max]. cbn [snd] in HM.
    apply extent_three. exact HM. }
  assert (Hfin : Forall JS.finite (meshExtent mesh)).
  { rewrite Hthree.
    destruct (Hsize 0%nat ltac:(lia)) as (? & ? & _ & -> & _).
    destruct (Hsize 1%nat ltac:(lia)) as (? & ? & _ & -> & _).
    destruct (Hsize 2%nat ltac:(lia)) as (? & ? & _ & -> & _).
    repeat constructor. }
  assert (Hne : meshExtent mesh <> []) by (rewrite Hthree; discriminate).
  destruct (max_list_fin Hfin Hne) as (S & ES & _ & HS).
  assert (HS0 : 0 < S).
  { pose proof Hpos as P. rewrite ES in P. apply ltb_Fin in P. exact P. }
  destruct (Hsize i Hi) as (m & M & Em & Es & Hb).
  destruct (Hb v Hv) as (x & Ex & Lx & Ux).
  assert (Hs : Qred (M - m) <= S).
  { assert (Hin : In (at_ (meshExtent mesh) i) (meshExtent mesh)).
    { rewrite Hthree at 2.
      do 3 (destruct i as [|i]; [cbn [In]; auto|]). lia. }
    destruct (proj1 (Forall_forall _ _) HS _ Hin) as (s & Es' & Ls).
    rewrite Es in Es'. injection Es' as <-. exact Ls. }
  unfold gridCoord, meshScale. rewrite ES, Em, Es, Ex.
  apply gridCoord_value; try assumption.
  rewrite Qred_correct. lra.
Qed.

End VertexMargin.

Lemma coordIs_of_nat (k k' : nat) :
  coordIs (JS.of_nat k) k' = (k =? k')%nat.
Proof.
  unfold coordIs. rewrite index_of_nat. reflexivity.
Qed.


